(** * PatchMatch inpainting (kis_clone_test.cpp): a shallow embedding

    The development follows
    [plugins/paintops/defaultpaintops/brush/tests/kis_clone_test.cpp]:
    the [MaskedImage] container with its caches, the image pyramid built by
    [Inpaint::patch], the [NearestNeighborField] with its patch distance,
    initialisation and minimisation, and the voting step [Inpaint::EM_Step].

    Conventions.
    - [int] coordinates and sizes are modelled by [Z]; the accumulators of
      the patch distance ([int] of 32 bits, [long] of 64 bits) and the
      [qint32] additions of [alignRectBy2] carry their wrap-around
      explicitly.
    - Channel samples are [Byte.byte]; [u8] reads one as a number.
    - [boost::multi_array] caches are dense lists in storage order (last
      index fastest) read with stdpp's total lookup.
    - [float] values are modelled by exact rationals [Q]; conversion of a
      [float] to [int] truncates towards zero, as in C++.
    - The process-wide [std::mt19937] is a generator state threaded through
      the [Rand] monad.
    - A read outside an array is undefined in the source; the total lookup
      of the model returns the default of the element type there.
    - An integer division by zero is undefined in the source; [Z.quot]
      returns 0 there.  Theorems that depend on a quotient assume a divisor
      that is not zero.
    - Host classes that are not part of the file: [KisPaintDevice] is a
      small record, and the operations of [KoMixColorsOp],
      [KisTransformWorker] and the colour space are fields of the record
      [Host] that the pyramid, [upscale] and the driver take as a
      parameter. *)

From Stdlib Require Import ZArith QArith Qround Lia Lqa.
From Stdlib.Strings Require Import Byte.
From stdpp Require Import base list.

Local Open Scope Z_scope.

(** ** Machine integers *)

(** Two's-complement wrap-around of a [bits]-wide signed integer. *)
Definition wrap (bits : Z) (z : Z) : Z :=
  (z + 2 ^ (bits - 1)) mod 2 ^ bits - 2 ^ (bits - 1).

Definition int32 : Z -> Z := wrap 32.
Definition long64 : Z -> Z := wrap 64.

(** [#define isOdd(x) ((x) & 0x01)] *)
Definition isOdd (x : Z) : Z := Z.land x 1.

Definition MAX_DIST : Z := 65535.

(** A [quint8] sample read as a number. *)
Definition u8 (b : byte) : Z := Z.of_N (Byte.to_N b).

#[global] Instance byte_inhabited : Inhabited byte := populate Byte.x00.

(** ** Host pixel surface *)

Record QRect := mkRect { rx : Z; ry : Z; rwidth : Z; rheight : Z }.

(** Modelled from the spec: [KisPaintDevice] is the host's pixel surface
    (section 4.A: bounds, channel count, per-pixel read, fill).  A device is
    unbounded storage with a default pixel, so [pixelAt] is total. *)
Record KisPaintDevice := mkDevice {
  exactBounds : QRect;
  channelCount : Z;
  channelIsAlpha : list bool;   (* [channelType() == ALPHA], per channel *)
  pixelAt : Z -> Z -> list byte
}.

Definition in_rect (x y w h px py : Z) : bool :=
  (x <=? px) && (px <? x + w) && (y <=? py) && (py <? y + h).

(** [KisPaintDevice::fill(x, y, w, h, &val)] *)
Definition fill (dev : KisPaintDevice) (x y w h : Z) (val : list byte)
  : KisPaintDevice :=
  {| exactBounds := exactBounds dev;
     channelCount := channelCount dev;
     channelIsAlpha := channelIsAlpha dev;
     pixelAt := fun px py =>
       if in_rect x y w h px py then val else pixelAt dev px py |}.

(** ** MaskedImage *)

Record MaskedImage := mkMaskedImage {
  imageDev : KisPaintDevice;
  maskDev : KisPaintDevice;
  imageSize : QRect;
  maskCache : list bool;
  imageCache : list byte
}.

(** Position of [a[x][y]] in a [boost::multi_array] of extents [..][h]. *)
Definition idx2 (h x y : Z) : nat := Z.to_nat (x * h + y).

(** Position of [a[x][y][c]] in a [boost::multi_array] of extents
    [..][h][n]. *)
Definition idx3 (h n x y c : Z) : nat := Z.to_nat ((x * h + y) * n + c).

(** [cacheImage]: [imageCache[x][y][chan] = scaleToU8(pixel, chan)] with the
    iterator running over [imageSize]. *)
Definition cacheImage (dev : KisPaintDevice) (sz : QRect) : list byte :=
  x ← seqZ 0 (rwidth sz);
  y ← seqZ 0 (rheight sz);
  chan ← seqZ 0 (channelCount dev);
  [pixelAt dev (rx sz + x) (ry sz + y) !!! Z.to_nat chan].

(** [cacheMask]: [maskCache[x][y]] is set when the mask byte is below 128,
    with the iterator running over [QRect(0, 0, width, height)]. *)
Definition cacheMask (dev : KisPaintDevice) (sz : QRect) : list bool :=
  x ← seqZ 0 (rwidth sz);
  y ← seqZ 0 (rheight sz);
  [u8 (pixelAt dev x y !!! 0%nat) <? 128].

Definition cacheEverything (img msk : KisPaintDevice) : MaskedImage :=
  let sz := exactBounds img in
  {| imageDev := img; maskDev := msk; imageSize := sz;
     maskCache := cacheMask msk sz;
     imageCache := cacheImage img sz |}.

(** [MaskedImage(KisPaintDeviceSP, KisPaintDeviceSP)] and both [clone]s:
    copy the devices and cache everything. *)
Definition MaskedImage_new (img msk : KisPaintDevice) : MaskedImage :=
  cacheEverything img msk.

Definition clone (mi : MaskedImage) : MaskedImage :=
  MaskedImage_new (imageDev mi) (maskDev mi).

(** [clearMask]: fill the mask device with zero over its exact bounds.  The
    caches are not rebuilt. *)
Definition clearMask (mi : MaskedImage) : MaskedImage :=
  let sz := exactBounds (maskDev mi) in
  {| imageDev := imageDev mi;
     maskDev := fill (maskDev mi) (rx sz) (ry sz) (rwidth sz) (rheight sz)
                     [Byte.x00];
     imageSize := imageSize mi;
     maskCache := maskCache mi;
     imageCache := imageCache mi |}.

Definition size (mi : MaskedImage) : QRect := imageSize mi.

(** [countMasked]: [std::count] of [true] over the mask cache. *)
Definition countMasked (mi : MaskedImage) : Z :=
  Z.of_nat (length (filter (fun b => b = true) (maskCache mi))).

Definition isMasked (mi : MaskedImage) (x y : Z) : bool :=
  maskCache mi !!! idx2 (rheight (imageSize mi)) x y.

Definition getImagePixelU8 (mi : MaskedImage) (x y chan : Z) : byte :=
  imageCache mi
    !!! idx3 (rheight (imageSize mi)) (channelCount (imageDev mi)) x y chan.

(** [MaskedImage::distance]: squared difference summed over the channels,
    accumulated in an [int]. *)
Definition MaskedImage_distance (mi : MaskedImage) (x y : Z)
    (other : MaskedImage) (xo yo : Z) : Z :=
  fold_left
    (fun dsq chan =>
       let v := int32 (u8 (getImagePixelU8 mi x y chan)
                       - u8 (getImagePixelU8 other xo yo chan)) in
       int32 (dsq + int32 (v * v)))
    (seqZ 0 (channelCount (imageDev mi))) 0.

(** ** The random generator *)

(** State of the process-wide [std::mt19937]: the sequence of values it
    yields and how many of them have been consumed.  The source seeds it
    from [std::random_device]; no entry point takes a seed. *)
Record mt19937 := mkGen { stream : nat -> Z; pos : nat }.

Definition Rand (A : Type) : Type := mt19937 -> A * mt19937.

Definition ret {A} (a : A) : Rand A := fun g => (a, g).

Definition bind {A B} (m : Rand A) (f : A -> Rand B) : Rand B :=
  fun g => let (a, g') := m g in f a g'.

Declare Scope rand_scope.
Delimit Scope rand_scope with rand.
Notation "'draw' x ':=' m 'in' k" := (bind m (fun x => k))
  (at level 10, x name, m at level 100, k at level 200) : rand_scope.

(** [random_int(range)]: a draw of [uniform_int_distribution(0, range-1)]. *)
Definition random_int (range : Z) : Rand Z :=
  fun g => (stream g (pos g) mod range, mkGen (stream g) (S (pos g))).

(** Monadic left fold, for the [for] loops that draw random numbers. *)
Fixpoint foldRand {A B} (f : A -> B -> Rand A) (l : list B) (a : A) : Rand A :=
  match l with
  | [] => ret a
  | b :: l' => (draw a' := f a b in foldRand f l' a')%rand
  end.

(** ** NearestNeighborField *)

Record NNPixel := mkNNPixel { nn_x : Z; nn_y : Z; nn_distance : Z }.

#[global] Instance NNPixel_inhabited : Inhabited NNPixel :=
  populate (mkNNPixel 0 0 0).

Record NearestNeighborField := mkNNF {
  patchSize : Z;
  input : MaskedImage;
  output : MaskedImage;
  imSize : QRect;
  field : list NNPixel;
  similarity : Z -> Q;
  channels : list bool;   (* [channelType() == ALPHA] per channel *)
  histogram : list Z      (* [boost::multi_array<int, 2>], [nColors][256] *)
}.

(** [field[x][y]] *)
Definition field_at (nnf : NearestNeighborField) (x y : Z) : NNPixel :=
  field nnf !!! idx2 (rheight (imSize nnf)) x y.

Definition set_field (nnf : NearestNeighborField) (l : list NNPixel)
  : NearestNeighborField :=
  {| patchSize := patchSize nnf; input := input nnf; output := output nnf;
     imSize := imSize nnf; field := l; similarity := similarity nnf;
     channels := channels nnf; histogram := histogram nnf |}.

(** [field[x][y] = p] *)
Definition field_set (nnf : NearestNeighborField) (x y : Z) (p : NNPixel)
  : NearestNeighborField :=
  set_field nnf (<[idx2 (rheight (imSize nnf)) x y := p]> (field nnf)).

Definition ssdmax : Z := 10 * 255 * 255.

(** Body of the two nested loops of [NearestNeighborField::distance] for one
    offset; the accumulator is the pair of [long]s [(distance, wsum)]. *)
Definition distance_body (nnf : NearestNeighborField) (x y xp yp : Z)
    (dy dx : Z) (acc : Z * Z) : Z * Z :=
  let '(distance, wsum) := acc in
  let wsum := long64 (wsum + ssdmax) in
  let penalty := (long64 (distance + ssdmax), wsum) in
  let xks := x + dx in
  let yks := y + dy in
  if (xks <? 0) || (xks >=? rwidth (size (input nnf))) then penalty
  else if (yks <? 0) || (yks >=? rheight (size (input nnf))) then penalty
  else if isMasked (input nnf) xks yks then penalty
  else
    let xkt := xp + dx in
    let ykt := yp + dy in
    if (xkt <? 0) || (xkt >=? rwidth (size (output nnf))) then penalty
    else if (ykt <? 0) || (ykt >=? rheight (size (output nnf))) then penalty
    else if isMasked (output nnf) xkt ykt then penalty
    else
      let ssd := MaskedImage_distance (input nnf) xks yks (output nnf) xkt ykt in
      (long64 (distance + ssd), wsum).

(** The offsets [-patchSize .. patchSize] of one loop. *)
Definition offsets (r : Z) : list Z := seqZ (- r) (2 * r + 1).

(** [NearestNeighborField::distance] *)
Definition distance (nnf : NearestNeighborField) (x y xp yp : Z) : Z :=
  let '(distance, wsum) :=
    fold_left
      (fun acc dy =>
         fold_left (fun acc dx => distance_body nnf x y xp yp dy dx acc)
                   (offsets (patchSize nnf)) acc)
      (offsets (patchSize nnf)) (0, 0) in
  int32 (Z.quot (long64 (MAX_DIST * distance)) wsum).

(** The block repeated three times in [minimizeLink]: compute the
    candidate's distance and take the candidate when it is strictly
    smaller. *)
Definition adopt (nnf : NearestNeighborField) (x y xp yp : Z)
  : NearestNeighborField :=
  let dp := distance nnf x y xp yp in
  if dp <? nn_distance (field_at nnf x y)
  then field_set nnf x y (mkNNPixel xp yp dp)
  else nnf.

(** One iteration of the random-search loop with window [wi]. *)
Definition random_search_step (nnf : NearestNeighborField) (x y xpi ypi wi : Z)
  : Rand NearestNeighborField :=
  (draw r1 := random_int (2 * wi) in
   draw r2 := random_int (2 * wi) in
   let xp := xpi + r1 - wi in
   let yp := ypi + r2 - wi in
   let xp := Z.max 0 (Z.min (rwidth (size (output nnf)) - 1) xp) in
   let yp := Z.max 0 (Z.min (rheight (size (output nnf)) - 1) yp) in
   ret (adopt nnf x y xp yp))%rand.

(** [while (wi > 0) { ...; wi /= 2; }] for a positive [wi]: halving a
    positive integer drops its lowest binary digit. *)
Fixpoint random_search (wi : positive) (x y xpi ypi : Z)
    (nnf : NearestNeighborField) : Rand NearestNeighborField :=
  (draw nnf' := random_search_step nnf x y xpi ypi (Z.pos wi) in
   match wi with
   | xH => ret nnf'
   | xO p | xI p => random_search p x y xpi ypi nnf'
   end)%rand.

(** [minimizeLink], first block: propagation left/right. *)
Definition propagate_x (nnf : NearestNeighborField) (x y dir : Z)
  : NearestNeighborField :=
  if (x - dir >? 0) && (x - dir <? rwidth (imSize nnf)) then
    adopt nnf x y (nn_x (field_at nnf (x - dir) y) + dir)
                  (nn_y (field_at nnf (x - dir) y))
  else nnf.

(** The candidate [(xp, yp)] of the second block, as the source forms it:
    [xp = field[x][y].x; yp = field[x][y].y + dir]. *)
Definition vertical_candidate (nnf : NearestNeighborField) (x y dir : Z)
  : Z * Z :=
  (nn_x (field_at nnf x y), nn_y (field_at nnf x y) + dir).

(** [minimizeLink], second block: propagation up/down. *)
Definition propagate_y (nnf : NearestNeighborField) (x y dir : Z)
  : NearestNeighborField :=
  if (y - dir >? 0) && (y - dir <? rheight (imSize nnf)) then
    let '(xp, yp) := vertical_candidate nnf x y dir in
    adopt nnf x y xp yp
  else nnf.

(** [minimizeLink]: the two propagations, then the random search around
    the link they left. *)
Definition minimizeLink (nnf : NearestNeighborField) (x y dir : Z)
  : Rand NearestNeighborField :=
  let nnf := propagate_x nnf x y dir in
  let nnf := propagate_y nnf x y dir in
  let wi := rwidth (size (output nnf)) in
  let xpi := nn_x (field_at nnf x y) in
  let ypi := nn_y (field_at nnf x y) in
  match wi with
  | Z.pos p => random_search p x y xpi ypi nnf
  | _ => ret nnf
  end.

(** The retry loop of [initialize()]: while the distance is [MAX_DIST] and
    retries remain, draw a new link. *)
Fixpoint retry (n : nat) (nnf : NearestNeighborField) (x y : Z)
  : Rand NearestNeighborField :=
  match n with
  | O => ret nnf
  | S n' =>
      if nn_distance (field_at nnf x y) =? MAX_DIST then
        (draw r1 := random_int (rwidth (imSize nnf)) in
         draw r2 := random_int (rheight (imSize nnf)) in
         let nnf := field_set nnf x y (mkNNPixel r1 r2 (distance nnf x y r1 r2)) in
         retry n' nnf x y)%rand
      else ret nnf
  end.

(** Pixels in scanline order: [y] outer, [x] inner. *)
Definition scanline (w h : Z) : list (Z * Z) :=
  y ← seqZ 0 h; x ← seqZ 0 w; [(x, y)].

(** [initialize()]: compute the initial value of the distance term. *)
Definition initialize (nnf : NearestNeighborField) : Rand NearestNeighborField :=
  foldRand
    (fun nnf '(x, y) =>
       let p := field_at nnf x y in
       let nnf := field_set nnf x y
                    (mkNNPixel (nn_x p) (nn_y p)
                               (distance nnf x y (nn_x p) (nn_y p))) in
       retry 20 nnf x y)
    (scanline (rwidth (imSize nnf)) (rheight (imSize nnf))) nnf.

(** [randomize] *)
Definition randomize (nnf : NearestNeighborField) : Rand NearestNeighborField :=
  (draw nnf := foldRand
     (fun nnf '(x, y) =>
        draw r1 := random_int (rwidth (imSize nnf)) in
        draw r2 := random_int (rheight (imSize nnf)) in
        ret (field_set nnf x y (mkNNPixel r1 r2 MAX_DIST)))
     (scanline (rwidth (imSize nnf)) (rheight (imSize nnf))) nnf in
   initialize nnf)%rand.

(** [initialize(const NearestNeighborField&)]: start from a coarser field. *)
Definition initialize_from (nnf coarse : NearestNeighborField)
  : Rand NearestNeighborField :=
  let xscale := Z.quot (rwidth (imSize nnf)) (rwidth (imSize coarse)) in
  let yscale := Z.quot (rheight (imSize nnf)) (rheight (imSize coarse)) in
  let nnf :=
    fold_left
      (fun nnf '(x, y) =>
         let xlow := Z.min (Z.quot x xscale) (rwidth (imSize coarse) - 1) in
         let ylow := Z.min (Z.quot y yscale) (rheight (imSize coarse) - 1) in
         field_set nnf x y
           (mkNNPixel (nn_x (field_at coarse xlow ylow) * xscale)
                      (nn_y (field_at coarse xlow ylow) * yscale)
                      MAX_DIST))
      (scanline (rwidth (imSize nnf)) (rheight (imSize nnf))) nnf in
  initialize nnf.

(** Scan orders of [minimize], with [max_x = width - 1], [max_y = height - 1]:
    forward [for (y = 0; y < max_y; y++) for (x = 0; x <= max_x; x++)],
    reverse [for (y = max_y; y >= 0; y--) for (x = max_x; x >= 0; x--)]. *)
Definition forward_scan (w h : Z) : list (Z * Z) :=
  let max_x := w - 1 in
  let max_y := h - 1 in
  y ← seqZ 0 max_y; x ← seqZ 0 (max_x + 1); [(x, y)].

Definition reverse_scan (w h : Z) : list (Z * Z) :=
  let max_x := w - 1 in
  let max_y := h - 1 in
  y ← reverse (seqZ 0 (max_y + 1)); x ← reverse (seqZ 0 (max_x + 1)); [(x, y)].

(** One outer iteration of [minimize]. *)
Definition minimize_pass (nnf : NearestNeighborField)
  : Rand NearestNeighborField :=
  let w := rwidth (imSize nnf) in
  let h := rheight (imSize nnf) in
  (draw nnf := foldRand
     (fun nnf '(x, y) =>
        if nn_distance (field_at nnf x y) >? 0
        then minimizeLink nnf x y 1 else ret nnf)
     (forward_scan w h) nnf in
   foldRand
     (fun nnf '(x, y) =>
        if negb (nn_distance (field_at nnf x y) =? 0)
        then minimizeLink nnf x y (-1) else ret nnf)
     (reverse_scan w h) nnf)%rand.

(** [minimize(pass)] *)
Fixpoint minimize_n (pass : nat) (nnf : NearestNeighborField)
  : Rand NearestNeighborField :=
  match pass with
  | O => ret nnf
  | S n => (draw nnf' := minimize_pass nnf in minimize_n n nnf')%rand
  end.

Definition minimize (pass : Z) (nnf : NearestNeighborField)
  : Rand NearestNeighborField :=
  minimize_n (Z.to_nat pass) nnf.

(** ** Host operations used by the pyramid and the voting step *)

(** A [float] result: [None] stands for the outcome of a division by zero
    (an infinity or a NaN). *)
Definition fval : Type := option Q.

(** What the code takes from the host and from libm:
    - [mixColors pixels weights]: [KoMixColorsOp::mixColors] on four pixels;
    - [transformWorker dev xscale yscale]: [KisTransformWorker::run] with the
      bilinear filter and the given scale factors;
    - [normalisedChannelsValue], [fromNormalisedChannelsValue]: the colour
      space's conversions behind [getImagePixels] and [setImagePixels];
    - [similarity_curve]: the table filled by [init_similarity_curve]
      ([0.5 - 0.5 * tanh(coef * (t - 0.1))] in [float]). *)
Record Host := mkHost {
  mixColors : list (list byte) -> list Z -> list byte;
  transformWorker : KisPaintDevice -> Z -> Z -> KisPaintDevice;
  normalisedChannelsValue : list byte -> list fval;
  fromNormalisedChannelsValue : list byte -> list fval -> list byte;
  similarity_curve : Z -> Q
}.

(** [a += b] on a [qint32] for an increment [b] of 0 or 1.  The only sum
    that leaves the type is 2147483648, reached from the largest [qint32];
    the addition of the machine wraps it to -2147483648. *)
Definition incr32 (a b : Z) : Z :=
  if a + b =? 2147483648 then -2147483648 else a + b.

(** [alignRectBy2], statement by statement.  [x -= isOdd(x)] stays inside
    the type, the least [qint32] being even; the four additions to [w] and
    [h] are those of [incr32]. *)
Definition alignRectBy2 (r : QRect) : QRect :=
  let x := rx r - isOdd (rx r) in
  let y := ry r - isOdd (ry r) in
  let w := incr32 (rwidth r) (isOdd x) in
  let w := incr32 w (isOdd w) in
  let h := incr32 (rheight r) (isOdd y) in
  let h := incr32 h (isOdd h) in
  mkRect x y w h.

(** [static const qint16 weights[4] = {64, 64, 64, 63}] *)
Definition weights : list Z := [64; 64; 64; 63].

(** One device halved by [downsample2x]/[downsampleRow]: destination pixel
    [(dstX + i, dstY + row)] mixes the source pixels at columns
    [srcX + 2i], [srcX + 2i + 1] of rows [srcY + 2 row], [srcY + 2 row + 1]. *)
Definition downsampleDevice (host : Host) (dev : KisPaintDevice)
    (src dst : QRect) : KisPaintDevice :=
  {| exactBounds := dst;
     channelCount := channelCount dev;
     channelIsAlpha := channelIsAlpha dev;
     pixelAt := fun px py =>
       if in_rect (rx dst) (ry dst) (rwidth dst) (rheight dst) px py then
         let sx := rx src + 2 * (px - rx dst) in
         let sy := ry src + 2 * (py - ry dst) in
         mixColors host
           [pixelAt dev sx sy; pixelAt dev (sx + 1) sy;
            pixelAt dev sx (sy + 1); pixelAt dev (sx + 1) (sy + 1)]
           weights
       else replicate (Z.to_nat (channelCount dev)) Byte.x00 |}.

(** [downsample2x] *)
Definition downsample2x (host : Host) (mi : MaskedImage) : MaskedImage :=
  let src := alignRectBy2 (exactBounds (imageDev mi)) in
  if (rwidth src <? 1) || (rheight src <? 1) then mi
  else
    let dst := mkRect (Z.quot (rx src) 2) (Z.quot (ry src) 2)
                      (Z.quot (rwidth src) 2) (Z.quot (rheight src) 2) in
    cacheEverything (downsampleDevice host (imageDev mi) src dst)
                    (downsampleDevice host (maskDev mi) src dst).

(** [upscale(xsize, ysize)]: both scale factors are quotients of [int]s. *)
Definition upscale (host : Host) (mi : MaskedImage) (xsize ysize : Z)
  : MaskedImage :=
  let sz := size mi in
  let scaledImage := clone mi in
  let xscale := Z.quot xsize (rwidth sz) in
  let yscale := Z.quot ysize (rheight sz) in
  cacheEverything (transformWorker host (imageDev scaledImage) xscale yscale)
                  (transformWorker host (maskDev scaledImage) xscale yscale).

(** [getImagePixels] and [setImagePixels] go to the device, not the cache. *)
Definition getImagePixels (host : Host) (mi : MaskedImage) (x y : Z)
  : list fval :=
  normalisedChannelsValue host (pixelAt (imageDev mi) x y).

Definition setImagePixels (host : Host) (mi : MaskedImage) (x y : Z)
    (values : list fval) : MaskedImage :=
  let dev := imageDev mi in
  {| imageDev :=
       {| exactBounds := exactBounds dev;
          channelCount := channelCount dev;
          channelIsAlpha := channelIsAlpha dev;
          pixelAt := fun px py =>
            if (px =? x) && (py =? y)
            then fromNormalisedChannelsValue host (pixelAt dev x y) values
            else pixelAt dev px py |};
     maskDev := maskDev mi;
     imageSize := imageSize mi;
     maskCache := maskCache mi;
     imageCache := imageCache mi |}.

(** The constructor of [NearestNeighborField]. *)
Definition NearestNeighborField_new (host : Host) (_input _output : MaskedImage)
    (_patchsize : Z) : NearestNeighborField :=
  let sz := size _input in
  let chans := channelIsAlpha (imageDev _input) in
  let nColors := length (filter (fun a => a = false) chans) in
  {| patchSize := _patchsize;
     input := _input;
     output := _output;
     imSize := sz;
     field := replicate (Z.to_nat (rwidth sz * rheight sz)) (mkNNPixel 0 0 0);
     similarity := similarity_curve host;
     channels := chans;
     histogram := replicate (nColors * 256) 0 |}.

(** ** The voting step [Inpaint::EM_Step] *)

(** Conversion of a [float] to [int]: truncation towards zero. *)
Definition Qtrunc (q : Q) : Z :=
  if Qle_bool 0 q then Qfloor q else Qceiling q.

(** [histogram[colorChan][colorValue] += w] on a cell of type [int] with a
    [float] weight: the sum is computed in [float] and converted back. *)
Definition hist_add (h : Z) (w : Q) : Z := Qtrunc (inject_Z h + w).

Definition Qltb (a b : Q) : bool := negb (Qle_bool b a).

(** Position of [histogram[colorChan][colorValue]]. *)
Definition hidx (colorChan colorValue : Z) : nat :=
  Z.to_nat (colorChan * 256 + colorValue).

(** The channel loop that adds the weight [w] of one source patch. *)
Definition vote_channels (source : MaskedImage) (nnf : NearestNeighborField)
    (x y : Z) (w : Q) (hist : list Z) : list Z :=
  fst (fold_left
         (fun (st : list Z * Z) chan =>
            let '(hist, colorChan) := st in
            if negb (channels nnf !!! Z.to_nat chan) then
              let colorValue := u8 (getImagePixelU8 source x y chan) in
              let i := hidx colorChan colorValue in
              (<[i := hist_add (hist !!! i) w]> hist, colorChan + 1)
            else (hist, colorChan))
         (seqZ 0 (channelCount (imageDev (input nnf)))) (hist, 0)).

(** Body of the estimation loops for one offset [(dx, dy)]; the accumulator
    is the histogram and the [float] [wsum]. *)
Definition vote_body (source : MaskedImage) (nnf : NearestNeighborField)
    (upscaled : bool) (x y dy dx : Z) (acc : list Z * Q) : list Z * Q :=
  let '(hist, wsum) := acc in
  let sz := size (input nnf) in
  let xpt := x + dx in
  let ypt := y + dy in
  let link :=
    if negb upscaled then
      if (xpt <? 0) || (xpt >=? rwidth sz) then None
      else if (ypt <? 0) || (ypt >=? rheight sz) then None
      else
        let p := field_at nnf xpt ypt in
        Some (nn_x p, nn_y p, similarity nnf (nn_distance p))
    else
      if (xpt <? 0) || (xpt >=? 2 * rwidth sz) then None
      else if (ypt <? 0) || (ypt >=? 2 * rheight sz) then None
      else
        let p := field_at nnf (Z.quot xpt 2) (Z.quot ypt 2) in
        Some (2 * nn_x p + Z.rem xpt 2, 2 * nn_y p + Z.rem ypt 2,
              similarity nnf (nn_distance p)) in
  match link with
  | None => acc
  | Some (xst, yst, w) =>
      let xs := xst - dx in
      let ys := yst - dy in
      if (xs <? 0) || (xs >=? rwidth sz) then acc
      else if (ys <? 0) || (ys >=? rheight sz) then acc
      else if isMasked source xs ys then acc
      else (vote_channels source nnf x y w hist, (wsum + w)%Q)
  end.

(** Estimation step for the target pixel [(x, y)]: the histogram is zeroed,
    then every offset of the window votes. *)
Definition estimate (source : MaskedImage) (nnf : NearestNeighborField)
    (upscaled : bool) (R x y : Z) : list Z * Q :=
  fold_left
    (fun acc dy =>
       fold_left (fun acc dx => vote_body source nnf upscaled x y dy dx acc)
                 (offsets R) acc)
    (offsets R) (replicate (length (histogram nnf)) 0, 0%Q).

(** The walk over the bins [i = 0 .. 255] of one colour channel; [bins]
    pairs each remaining [i] with [histogram[colorChan][i]]. *)
Fixpoint cdf_walk (bins : list (Z * Z)) (lowth highth cdf contrib wcontrib : Q)
  : Q * Q :=
  match bins with
  | [] => (contrib, wcontrib)
  | (i, h) :: rest =>
      let cdf := (cdf + inject_Z h)%Q in
      if Qltb cdf lowth then cdf_walk rest lowth highth cdf contrib wcontrib
      else
        let contrib := (contrib + inject_Z (i * h))%Q in
        let wcontrib := (wcontrib + inject_Z h)%Q in
        if Qltb highth cdf then (contrib, wcontrib)
        else cdf_walk rest lowth highth cdf contrib wcontrib
  end.

(** [contrib / wcontrib] in [float]. *)
Definition fdiv (a b : Q) : fval :=
  if Qeq_bool b 0 then None else Some (a / b)%Q.

(** The bins of colour channel [colorChan]. *)
Definition bins_of (hist : list Z) (colorChan : Z) : list (Z * Z) :=
  map (fun i => (i, hist !!! hidx colorChan i)) (seqZ 0 256).

(** [contrib] and [wcontrib] of one colour channel after the walk. *)
Definition walk_channel (hist : list Z) (wsum : Q) (colorChan : Z) : Q * Q :=
  let lowth := ((2 # 5) * wsum)%Q in
  let highth := ((3 # 5) * wsum)%Q in
  cdf_walk (bins_of hist colorChan) lowth highth 0 0 0.

(** [channel_values[chan] = contrib / wcontrib] for one colour channel. *)
Definition channel_value (hist : list Z) (wsum : Q) (colorChan : Z) : fval :=
  let '(contrib, wcontrib) := walk_channel hist wsum colorChan in
  fdiv contrib wcontrib.

(** Maximization step for one target pixel with [wsum >= 1]: the value of
    every colour channel is replaced by [contrib / wcontrib], and the pixel
    is written back in each round of the channel loop. *)
Definition maximize (host : Host) (nnf : NearestNeighborField)
    (hist : list Z) (wsum : Q) (target : MaskedImage) (x y : Z) : MaskedImage :=
  let channel_values := getImagePixels host target x y in
  fst (fold_left
         (fun (st : MaskedImage * list fval * Z) chan =>
            let '(target, channel_values, colorChan) := st in
            let '(channel_values, colorChan) :=
              if negb (channels nnf !!! chan) then
                (<[chan := channel_value hist wsum colorChan]> channel_values,
                 colorChan + 1)
              else (channel_values, colorChan) in
            (setImagePixels host target x y channel_values,
             channel_values, colorChan))
         (seq 0 (length (channels nnf))) (target, channel_values, 0)).1.

(** [EM_Step]: for each pixel of the target, estimate, skip the pixel when
    [wsum < 1], maximize otherwise.  The histogram member of the field is
    left as the last pixel filled it. *)
Definition EM_Step (host : Host) (radius : Z) (source target : MaskedImage)
    (nnf : NearestNeighborField) (upscaled : bool)
  : MaskedImage * NearestNeighborField :=
  let R := if upscaled then radius * 2 else radius in
  fold_left
    (fun (st : MaskedImage * NearestNeighborField) '(x, y) =>
       let '(target, nnf) := st in
       let '(hist, wsum) := estimate source nnf upscaled R x y in
       let nnf :=
         {| patchSize := patchSize nnf; input := input nnf;
            output := output nnf; imSize := imSize nnf; field := field nnf;
            similarity := similarity nnf; channels := channels nnf;
            histogram := hist |} in
       if Qltb wsum 1 then (target, nnf)
       else (maximize host nnf hist wsum target x y, nnf))
    (scanline (rwidth (size target)) (rheight (size target)))
    (target, nnf).

(** ** The driver: [Inpaint::ExpectationMaximization] and [Inpaint::patch] *)

#[global] Instance MaskedImage_inhabited : Inhabited MaskedImage :=
  populate (cacheEverything (mkDevice (mkRect 0 0 0 0) 0 [] (fun _ _ => []))
                            (mkDevice (mkRect 0 0 0 0) 0 [] (fun _ _ => []))).

(** [nnf->input = newtarget] *)
Definition set_input (nnf : NearestNeighborField) (mi : MaskedImage)
  : NearestNeighborField :=
  {| patchSize := patchSize nnf; input := mi; output := output nnf;
     imSize := imSize nnf; field := field nnf; similarity := similarity nnf;
     channels := channels nnf; histogram := histogram nnf |}.

(** One round [emloop] of the EM loop.  [target] is the target the function
    started from; the state is the field and the previous [newtarget]. *)
Definition EM_round (host : Host) (radius : Z) (pyramid : list MaskedImage)
    (level iterEM iterNNF : Z) (target : MaskedImage)
    (st : NearestNeighborField * option MaskedImage) (emloop : Z)
  : Rand (NearestNeighborField * option MaskedImage) :=
  let '(nnf, newtarget) := st in
  let nnf := match newtarget with
             | Some t => set_input nnf t
             | None => nnf
             end in
  (draw nnf := minimize iterNNF nnf in
   let '(newsource, newtarget, upscaled) :=
     if (level >=? 1) && (emloop =? iterEM) then
       let newsource := pyramid !!! Z.to_nat (level - 1) in
       let sz := size newsource in
       (newsource, upscale host target (rwidth sz) (rheight sz), true)
     else (pyramid !!! Z.to_nat level, clone target, false) in
   let '(newtarget, nnf) :=
     EM_Step host radius newsource newtarget nnf upscaled in
   ret (nnf, Some newtarget))%rand.

(** [ExpectationMaximization(level)]; the result is [None] when the loop
    body never ran ([newtarget] still null). *)
Definition ExpectationMaximization (host : Host) (radius : Z)
    (pyramid : list MaskedImage) (level : Z) (nnf : NearestNeighborField)
  : Rand (NearestNeighborField * option MaskedImage) :=
  let iterEM := Z.min (2 * level) 4 in
  let iterNNF := Z.min 5 level in
  let target := input nnf in
  foldRand (EM_round host radius pyramid level iterEM iterNNF target)
           (seqZ 1 iterEM) (nnf, None).

(** The pyramid loop of [patch]:
    [while (width > radius && height > radius)
       { if (countMasked == 0) break; downsample2x; append clone; }].
    [None] is returned only when [fuel] rounds did not reach the exit. *)
Fixpoint pyramid_loop (fuel : nat) (host : Host) (radius : Z)
    (source : MaskedImage) (pyramid : list MaskedImage)
  : option (MaskedImage * list MaskedImage) :=
  if (rwidth (size source) >? radius) && (rheight (size source) >? radius) then
    if countMasked source =? 0 then Some (source, pyramid)
    else
      match fuel with
      | O => None
      | S fuel' =>
          let source := downsample2x host source in
          pyramid_loop fuel' host radius source (pyramid ++ [clone source])
      end
  else Some (source, pyramid).

(** One round of the level loop of [patch]; the state is the target and the
    member [nnf_TargetToSource] (null before the first round). *)
Definition patch_level (host : Host) (radius : Z) (pyramid : list MaskedImage)
    (maxlevel : Z)
    (st : option (MaskedImage * option NearestNeighborField)) (level : Z)
  : Rand (option (MaskedImage * option NearestNeighborField)) :=
  match st with
  | None => ret None
  | Some (target, old) =>
      let source := pyramid !!! Z.to_nat level in
      let fresh := NearestNeighborField_new host target source radius in
      (draw nnf :=
         (if level =? maxlevel - 1 then
            draw n := randomize fresh in ret (Some n)
          else
            match old with
            | Some o => draw n := initialize_from fresh o in ret (Some n)
            | None => ret None
            end) in
       match nnf with
       | None => ret None
       | Some nnf =>
           draw r := ExpectationMaximization host radius pyramid level nnf in
           match r with
           | (nnf, Some target) => ret (Some (target, Some nnf))
           | (_, None) => ret None
           end
       end)%rand
  end.

(** [Inpaint(dev, devMask, radius).patch()].  [fuel] bounds the pyramid
    loop; the result is [None] only if it is too small. *)
Definition patch (fuel : nat) (host : Host) (dev devMask : KisPaintDevice)
    (radius : Z) : Rand (option MaskedImage) :=
  let initial := MaskedImage_new dev devMask in
  match pyramid_loop fuel host radius (clone initial) [initial] with
  | None => ret None
  | Some (source, pyramid) =>
      let maxlevel := Z.of_nat (length pyramid) in
      let target := clearMask (clone source) in
      (draw r := foldRand (patch_level host radius pyramid maxlevel)
                   (reverse (seqZ 1 (maxlevel - 1))) (Some (target, None)) in
       ret (option_map fst r))%rand
  end.

(** ** The patch distance as the specification words it *)

Definition Zsum (l : list Z) : Z := foldr Z.add 0 l.

(** [distance_sq]: the sum over the channels of the squared difference. *)
Definition distance_sq (mi : MaskedImage) (x y : Z) (other : MaskedImage)
    (xo yo : Z) : Z :=
  Zsum (map (fun chan => (u8 (getImagePixelU8 mi x y chan)
                          - u8 (getImagePixelU8 other xo yo chan)) ^ 2)
            (seqZ 0 (channelCount (imageDev mi)))).

(** A sample that is in bounds and not masked in its image. *)
Definition usable (mi : MaskedImage) (x y : Z) : bool :=
  (0 <=? x) && (x <? rwidth (size mi)) && (0 <=? y) && (y <? rheight (size mi))
  && negb (isMasked mi x y).

(** What one offset adds to the running sum. *)
Definition contribution (nnf : NearestNeighborField) (x y xp yp dy dx : Z) : Z :=
  if usable (input nnf) (x + dx) (y + dy)
     && usable (output nnf) (xp + dx) (yp + dy)
  then distance_sq (input nnf) (x + dx) (y + dy) (output nnf) (xp + dx) (yp + dy)
  else ssdmax.

Definition distance_spec (nnf : NearestNeighborField) (x y xp yp : Z) : Z :=
  let R := patchSize nnf in
  let sum :=
    Zsum (map (fun dy =>
                 Zsum (map (fun dx => contribution nnf x y xp yp dy dx)
                           (offsets R)))
              (offsets R)) in
  let wsum := (2 * R + 1) ^ 2 * ssdmax in
  (MAX_DIST * sum) / wsum.

(** ** Fixtures for the examples *)

Definition byte_of_Z (z : Z) : byte :=
  default Byte.x00 (Byte.of_N (Z.to_N z)).

(** A device holding the rows [rows] (each pixel a list of bytes) at the
    origin, with pixel [dflt] elsewhere. *)
Definition device_of_rows (alpha : list bool) (dflt : list byte)
    (w h : Z) (rows : list (list (list byte))) : KisPaintDevice :=
  {| exactBounds := mkRect 0 0 w h;
     channelCount := Z.of_nat (length alpha);
     channelIsAlpha := alpha;
     pixelAt := fun px py =>
       if in_rect 0 0 w h px py
       then default dflt (rows !! Z.to_nat py ≫= fun row => row !! Z.to_nat px)
       else dflt |}.

(** A one-channel device from rows of numbers. *)
Definition gray (w h : Z) (rows : list (list Z)) : KisPaintDevice :=
  device_of_rows [false] [Byte.x00] w h
    (map (map (fun v => [byte_of_Z v])) rows).

(** A stand-in for the table of [init_similarity_curve]: the line segments
    through the values of [1 / (1 + 999 ^ (10 t - 1))], which is what the
    source's formula simplifies to, at [t = 0, 0.05, 0.1, 0.15, 0.2]
    (0.999, 0.969, 0.5, 0.031, 0.001), and zero from [t = 0.2] on; [d] is
    [65536 t]. *)
Definition demo_similarity (d : Z) : Q :=
  if d <=? 0 then 999 # 1000
  else if d <? 3277 then (999 * 3277 - 30 * d) # 3277000
  else if d <? 6554 then (969 * 3277 - 469 * (d - 3277)) # 3277000
  else if d <? 9831 then (500 * 3277 - 469 * (d - 6554)) # 3277000
  else if d <? 13108 then (31 * 3277 - 30 * (d - 9831)) # 3277000
  else 0.

(** A stand-in host for the examples: weighted average for [mixColors],
    pixel replication for the transform worker, scaling by 255 for the
    normalised values, and [demo_similarity] for the similarity curve. *)
Definition demo_host : Host :=
  {| mixColors := fun pixels ws =>
       let n := length (default [] (head pixels)) in
       map (fun c =>
              byte_of_Z
                (Zsum (zip_with (fun p w => w * u8 (p !!! c)) pixels ws) / 255))
           (seq 0 n);
     transformWorker := fun dev xscale yscale =>
       let b := exactBounds dev in
       {| exactBounds := mkRect (rx b * xscale) (ry b * yscale)
                                (rwidth b * xscale) (rheight b * yscale);
          channelCount := channelCount dev;
          channelIsAlpha := channelIsAlpha dev;
          pixelAt := fun px py =>
            if (xscale <=? 0) || (yscale <=? 0)
            then replicate (Z.to_nat (channelCount dev)) Byte.x00
            else pixelAt dev (px / xscale) (py / yscale) |};
     normalisedChannelsValue := map (fun b => Some (inject_Z (u8 b) / 255)%Q);
     fromNormalisedChannelsValue := fun _ values =>
       map (fun v : fval =>
              match v with
              | Some q => byte_of_Z (Z.max 0 (Z.min 255 (Qfloor (q * 255))))
              | None => Byte.x00
              end) values;
     similarity_curve := demo_similarity |}.

(** The generator that yields the constant [v]. *)
Definition const_gen (v : Z) : mt19937 := mkGen (fun _ => v) 0.

(** Fixtures.  [two_pixels]: one hole next to one known pixel.
    [strip_nnf]: a 3x1 target over a 3x1 source whose last two pixels are
    holes.  [column_nnf]: a 1x3 image matched against itself with the links
    [(0,0)], [(0,1)], [(0,0)].  [flat_nnf]: a constant 4x3 image matched
    against itself by the identity.  [square3]: a 3x3 image with a hole in
    the middle. *)
Definition two_pixels : MaskedImage :=
  MaskedImage_new (gray 2 1 [[10; 20]]) (gray 2 1 [[0; 255]]).

Definition strip_target : MaskedImage :=
  MaskedImage_new (gray 3 1 [[255; 0; 0]]) (gray 3 1 [[255; 255; 255]]).

Definition strip_source : MaskedImage :=
  MaskedImage_new (gray 3 1 [[0; 7; 7]]) (gray 3 1 [[255; 0; 0]]).

Definition strip_nnf : NearestNeighborField :=
  NearestNeighborField_new demo_host strip_target strip_source 1.

Definition column : MaskedImage :=
  MaskedImage_new (gray 1 3 [[10]; [20]; [30]])
                  (gray 1 3 [[255]; [255]; [255]]).

Definition column_base : NearestNeighborField :=
  NearestNeighborField_new demo_host column column 1.

Definition column_nnf : NearestNeighborField :=
  set_field column_base
    [mkNNPixel 0 0 (distance column_base 0 0 0 0);
     mkNNPixel 0 1 (distance column_base 0 1 0 1);
     mkNNPixel 0 0 (distance column_base 0 2 0 0)].

Definition flat : MaskedImage :=
  MaskedImage_new
    (gray 4 3 [[100; 100; 100; 100]; [100; 100; 100; 100];
               [100; 100; 100; 100]])
    (gray 4 3 [[255; 255; 255; 255]; [255; 255; 255; 255];
               [255; 255; 255; 255]]).

Definition flat_base : NearestNeighborField :=
  NearestNeighborField_new demo_host flat flat 1.

Definition flat_nnf : NearestNeighborField :=
  set_field flat_base
    (x ← seqZ 0 4; y ← seqZ 0 3;
     [mkNNPixel x y (distance flat_base x y x y)]).

(** The widest image there is: 2147483647 columns, two rows, one channel,
    every byte 0; and a mask of the same bounds with one hole, at [(0, 0)],
    and 255 everywhere else. *)
Definition widest : KisPaintDevice := gray 2147483647 2 [].

Definition widest_mask : KisPaintDevice :=
  device_of_rows [false] [Byte.xff] 2147483647 2 [[[Byte.x00]]].




Definition image3 : KisPaintDevice :=
  gray 3 3 [[10; 20; 30]; [40; 50; 60]; [70; 80; 90]].

Definition mask3 : KisPaintDevice :=
  gray 3 3 [[255; 255; 255]; [255; 0; 255]; [255; 255; 255]].

Definition square3 : MaskedImage := MaskedImage_new image3 mask3.

(** [square3] halved, and the field [patch] builds at level 1 of the
    pyramid [square3], [coarse3] with radius 2. *)
Definition coarse3 : MaskedImage := clone (downsample2x demo_host (clone square3)).

Definition level1_nnf : NearestNeighborField :=
  NearestNeighborField_new demo_host (clearMask (clone coarse3)) coarse3 2.

(** ** Properties stated about the model *)

(** No overflow in [distance]: the [long] product [MAX_DIST * distance]
    stays below [2^63]. *)
Definition radius_fits (r : Z) : Prop :=
  0 <= r /\ MAX_DIST * ((2 * r + 1) ^ 2 * ssdmax) < 2 ^ 63.

(** A link with its coordinates in a window and its distance in range. *)
Definition link_within (lox hix loy hiy : Z) (p : NNPixel) : Prop :=
  (lox <= nn_x p < hix) /\ (loy <= nn_y p < hiy)
  /\ 0 <= nn_distance p <= MAX_DIST.

(** Every entry [field[x][y]] of the grid satisfies [P]. *)
Definition every_entry (nnf : NearestNeighborField) (P : NNPixel -> Prop)
  : Prop :=
  forall x y,
    0 <= x < rwidth (imSize nnf) -> 0 <= y < rheight (imSize nnf) ->
    P (field_at nnf x y).

(** The array has one cell per pixel. *)
Definition field_sized (nnf : NearestNeighborField) : Prop :=
  length (field nnf)
  = Z.to_nat (rwidth (imSize nnf) * rheight (imSize nnf)).

(** [m] yields a value satisfying [I] whatever the generator state. *)
Definition Rand_post {A} (m : Rand A) (I : A -> Prop) : Prop :=
  forall g, I (m g).1.

(** [nnf] has the images, sizes and radius of [n0]. *)
Record same_frame (n0 nnf : NearestNeighborField) : Prop := {
  sf_patch : patchSize nnf = patchSize n0;
  sf_input : input nnf = input n0;
  sf_output : output nnf = output n0;
  sf_size : imSize nnf = imSize n0
}.

(** The invariant carried through the loops: same frame, a cell per pixel,
    and [P] at every entry. *)
Definition Inv (n0 : NearestNeighborField) (P : NNPixel -> Prop)
    (nnf : NearestNeighborField) : Prop :=
  same_frame n0 nnf /\ field_sized nnf /\ every_entry nnf P.

Definition in_grid (n0 : NearestNeighborField) (x y : Z) : Prop :=
  0 <= x < rwidth (imSize n0) /\ 0 <= y < rheight (imSize n0).

Definition grid_point (n0 : NearestNeighborField) (p : Z * Z) : Prop :=
  in_grid n0 p.1 p.2.

(** Three windows for a link: the target grid, the source, and the source
    grown by the patch radius on every side. *)
Definition in_target (n0 : NearestNeighborField) : NNPixel -> Prop :=
  link_within 0 (rwidth (imSize n0)) 0 (rheight (imSize n0)).

Definition in_source (n0 : NearestNeighborField) : NNPixel -> Prop :=
  link_within 0 (rwidth (size (output n0))) 0 (rheight (size (output n0))).

Definition near_source (n0 : NearestNeighborField) : NNPixel -> Prop :=
  link_within (- patchSize n0) (rwidth (size (output n0)) + patchSize n0)
              (- patchSize n0) (rheight (size (output n0)) + patchSize n0).

(** The first loop of [randomize] has overwritten the entries in [done]. *)
Definition drawn (n0 : NearestNeighborField) (done : list (Z * Z))
    (nnf : NearestNeighborField) : Prop :=
  same_frame n0 nnf /\ field_sized nnf
  /\ forall x y, (x, y) ∈ done -> in_grid n0 x y ->
                 in_target n0 (field_at nnf x y).



(** Half of a length rounded up to even. *)
Definition half_up (w : Z) : Z := Z.quot (w + isOdd w) 2.

(** The cached size is the exact bounds of the image device. *)
Definition fresh (mi : MaskedImage) : Prop :=
  imageSize mi = exactBounds (imageDev mi).

(** A side that [alignRectBy2] rounds up without overflow. *)
Definition aligns (w : Z) : Prop := w <> 2147483647 /\ w <> 2147483648.

(** The pyramid loop has left: a side is at most the radius, or no pixel is
    masked. *)
Definition loop_exit (radius : Z) (source : MaskedImage) : Prop :=
  rwidth (size source) <= radius \/ rheight (size source) <= radius
  \/ countMasked source = 0.

Definition all_zero (hist : list Z) : Prop := Forall (eq 0) hist.

(** The transform worker leaves the bounds alone when both factors are 1. *)
Definition unit_scale_keeps_bounds (host : Host) : Prop :=
  forall d, exactBounds (transformWorker host d 1 1) = exactBounds d.

(** ** Further properties stated about the model *)

(** Each level of a pyramid has the sides of the level before it, halved
    and rounded up. *)
Fixpoint halving_chain (l : list MaskedImage) : Prop :=
  match l with
  | a :: (b :: _) as rest =>
      rwidth (size b) = half_up (rwidth (size a))
      /\ rheight (size b) = half_up (rheight (size a))
      /\ halving_chain rest
  | _ => True
  end.

(** Two images with the same channel layout. *)
Definition same_layout (a b : MaskedImage) : Prop :=
  channelCount (imageDev b) = channelCount (imageDev a)
  /\ channelIsAlpha (imageDev b) = channelIsAlpha (imageDev a).

(** The transform worker multiplies the bounds by its factors. *)
Definition scales_bounds (host : Host) : Prop :=
  forall d sx sy,
    rwidth (exactBounds (transformWorker host d sx sy))
    = rwidth (exactBounds d) * sx
    /\ rheight (exactBounds (transformWorker host d sx sy))
       = rheight (exactBounds d) * sy.

(** The invariant of a field with a property that may depend on the
    pixel: same frame, a cell per pixel, and [P x y] at entry [(x, y)]. *)
Definition Inv_at (n0 : NearestNeighborField) (P : Z -> Z -> NNPixel -> Prop)
    (nnf : NearestNeighborField) : Prop :=
  same_frame n0 nnf /\ field_sized nnf
  /\ forall x y, in_grid n0 x y -> P x y (field_at nnf x y).

(** The distance stored with a link is the patch distance of that link. *)
Definition true_distance (n0 : NearestNeighborField) (x y : Z) (p : NNPixel)
  : Prop :=
  nn_distance p = distance n0 x y (nn_x p) (nn_y p).

(** No stored distance of [n'] exceeds the one [n] stores in the same
    cell. *)
Definition not_farther (n n' : NearestNeighborField) : Prop :=
  imSize n' = imSize n
  /\ forall i : nat, nn_distance (field n' !!! i) <= nn_distance (field n !!! i).

(** [n'] differs from [n] at most in the cell of pixel [(x, y)]. *)
Definition only_cell (x y : Z) (n n' : NearestNeighborField) : Prop :=
  same_frame n n'
  /\ length (field n') = length (field n)
  /\ forall i : nat, i <> idx2 (rheight (imSize n)) x y ->
                     field n' !!! i = field n !!! i.

(** The cell of pixel [(x0, y0)] is as in [n0], and the frame too. *)
Definition cell_kept (n0 : NearestNeighborField) (x0 y0 : Z)
    (n : NearestNeighborField) : Prop :=
  same_frame n0 n /\ field_at n x0 y0 = field_at n0 x0 y0.

(** [Inv_at] restricted to the pixels of [done]. *)
Definition visited (n0 : NearestNeighborField) (P : Z -> Z -> NNPixel -> Prop)
    (done : list (Z * Z)) (nnf : NearestNeighborField) : Prop :=
  same_frame n0 nnf /\ field_sized nnf
  /\ forall x y, (x, y) ∈ done -> in_grid n0 x y -> P x y (field_at nnf x y).

(** [m] consumes exactly [k] values of the generator and leaves its
    sequence alone. *)
Definition draws {A} (m : Rand A) (k : nat) : Prop :=
  forall g, pos (m g).2 = (pos g + k)%nat /\ stream (m g).2 = stream g.

(** [t'] is [t] with other pixel values in its image device at most: the
    bounds and the channel layout of the device, the mask device, the size
    and both caches are those of [t]. *)
Definition repainted (t t' : MaskedImage) : Prop :=
  exactBounds (imageDev t') = exactBounds (imageDev t)
  /\ channelCount (imageDev t') = channelCount (imageDev t)
  /\ channelIsAlpha (imageDev t') = channelIsAlpha (imageDev t)
  /\ maskDev t' = maskDev t
  /\ imageSize t' = imageSize t
  /\ maskCache t' = maskCache t
  /\ imageCache t' = imageCache t.

(** What of a target does not depend on its pixel values: the sides, the
    mask device and the mask cache. *)
Definition frame_of (t : MaskedImage) : Z * Z * KisPaintDevice * list bool :=
  (rwidth (size t), rheight (size t), maskDev t, maskCache t).

(** The frame of a target after [upscale] towards the size of [finer],
    for a transform worker that multiplies the bounds by its factors. *)
Definition upscaled_frame (host : Host) (finer : MaskedImage)
    (f : Z * Z * KisPaintDevice * list bool)
  : Z * Z * KisPaintDevice * list bool :=
  let '(w, h, m, _) := f in
  let xscale := Z.quot (rwidth (size finer)) w in
  let yscale := Z.quot (rheight (size finer)) h in
  let m' := transformWorker host m xscale yscale in
  (w * xscale, h * yscale, m',
   cacheMask m' (mkRect 0 0 (w * xscale) (h * yscale))).

(** The frame of the target after the levels [k], [k - 1], ..., 1 of the
    level loop of [patch], from the frame [f] it has before. *)
Definition frames (host : Host) (pyramid : list MaskedImage) (k : nat)
    (f : Z * Z * KisPaintDevice * list bool)
  : Z * Z * KisPaintDevice * list bool :=
  fold_left
    (fun f level => upscaled_frame host (pyramid !!! Z.to_nat (level - 1)) f)
    (reverse (seqZ 1 (Z.of_nat k))) f.

(** [t] is freshly cached, not empty, and no larger than [level]. *)
Definition within (level t : MaskedImage) : Prop :=
  fresh t
  /\ 1 <= rwidth (size t) <= rwidth (size level)
  /\ 1 <= rheight (size t) <= rheight (size level).

(** The device pixels of [t] and [t'] agree outside the rectangle of
    size [sz] at the origin. *)
Definition same_outside (sz : QRect) (t t' : MaskedImage) : Prop :=
  forall px py,
    px < 0 \/ rwidth sz <= px \/ py < 0 \/ rheight sz <= py ->
    pixelAt (imageDev t') px py = pixelAt (imageDev t) px py.

(** * Theorems *)

(** ** Arithmetic of the accumulators *)

Lemma int32_small z : -2147483648 <= z < 2147483648 -> int32 z = z.
Proof.
  intros H. unfold int32, wrap.
  change (2 ^ (32 - 1)) with 2147483648. change (2 ^ 32) with 4294967296.
  rewrite Z.mod_small; lia.
Qed.

Lemma long64_small z :
  -9223372036854775808 <= z < 9223372036854775808 -> long64 z = z.
Proof.
  intros H. unfold long64, wrap.
  change (2 ^ (64 - 1)) with 9223372036854775808.
  change (2 ^ 64) with 18446744073709551616.
  rewrite Z.mod_small; lia.
Qed.

Lemma u8_range b : 0 <= u8 b <= 255.
Proof.
  unfold u8. pose proof (Byte.to_N_bounded b) as H.
  apply N2Z.inj_le in H. split; [apply N2Z.is_nonneg | exact H].
Qed.

Lemma sq_diff_range a b : 0 <= (u8 a - u8 b) ^ 2 <= 65025.
Proof.
  pose proof (u8_range a). pose proof (u8_range b).
  rewrite Z.pow_2_r. set (d := u8 a - u8 b).
  assert (0 <= (255 - d) * (255 + d)) by (apply Z.mul_nonneg_nonneg; lia).
  pose proof (Z.square_nonneg d). lia.
Qed.

Lemma Zsum_cons a l : Zsum (a :: l) = a + Zsum l.
Proof. reflexivity. Qed.

Lemma Zsum_bounds (f : Z -> Z) (lo hi : Z) (l : list Z) :
  (forall a, lo <= f a <= hi) ->
  Z.of_nat (length l) * lo <= Zsum (map f l) <= Z.of_nat (length l) * hi.
Proof.
  intros Hf. induction l as [|a l IH]; simpl; [lia|].
  specialize (Hf a). lia.
Qed.

(** The [int] accumulation of [MaskedImage::distance] does not wrap for a
    list of channels short enough. *)
Lemma channel_fold_exact (v : Z -> Z) (l : list Z) (dsq : Z) :
  (forall c, 0 <= v c <= 65025) ->
  0 <= dsq -> dsq + Z.of_nat (length l) * 65025 < 2147483648 ->
  fold_left (fun dsq c => int32 (dsq + int32 (v c))) l dsq
  = dsq + Zsum (map v l).
Proof.
  intros Hv. revert dsq. induction l as [|c l IH]; intros dsq H0 Hb.
  - simpl. lia.
  - cbn [fold_left map Zsum foldr length] in *.
    pose proof (Hv c) as Hc.
    rewrite (int32_small (v c)) by lia.
    rewrite int32_small by lia.
    rewrite IH by lia. unfold Zsum. lia.
Qed.

Lemma MaskedImage_distance_exact mi x y other xo yo :
  channelCount (imageDev mi) <= 10 ->
  MaskedImage_distance mi x y other xo yo = distance_sq mi x y other xo yo.
Proof.
  intros Hn. unfold MaskedImage_distance, distance_sq.
  set (l := seqZ 0 _).
  assert (Hl : Z.of_nat (length l) <= 10).
  { unfold l. rewrite length_seqZ. lia. }
  transitivity
    (fold_left
       (fun dsq c =>
          int32 (dsq + int32 ((u8 (getImagePixelU8 mi x y c)
                               - u8 (getImagePixelU8 other xo yo c)) ^ 2)))
       l 0).
  - clear Hl. generalize 0. induction l as [|c l IH]; intros a; [done|].
    cbn [fold_left]. rewrite <- IH. cbv zeta.
    pose proof (u8_range (getImagePixelU8 mi x y c)).
    pose proof (u8_range (getImagePixelU8 other xo yo c)).
    rewrite (int32_small (_ - _)) by lia.
    by rewrite Z.pow_2_r.
  - rewrite (channel_fold_exact (fun c => (u8 (getImagePixelU8 mi x y c)
                               - u8 (getImagePixelU8 other xo yo c)) ^ 2)).
    + lia.
    + intros c. apply sq_diff_range.
    + lia.
    + lia.
Qed.

Lemma distance_sq_range mi x y other xo yo :
  channelCount (imageDev mi) <= 10 ->
  0 <= distance_sq mi x y other xo yo <= ssdmax.
Proof.
  intros Hn. unfold distance_sq.
  pose proof (Zsum_bounds
    (fun chan => (u8 (getImagePixelU8 mi x y chan)
                  - u8 (getImagePixelU8 other xo yo chan)) ^ 2)
    0 65025 (seqZ 0 (channelCount (imageDev mi)))
    (fun c => sq_diff_range _ _)) as H.
  rewrite length_seqZ in H. unfold ssdmax. lia.
Qed.

Lemma contribution_range nnf x y xp yp dy dx :
  channelCount (imageDev (input nnf)) <= 10 ->
  0 <= contribution nnf x y xp yp dy dx <= ssdmax.
Proof.
  intros Hn. unfold contribution.
  destruct (_ && _).
  - by apply distance_sq_range.
  - unfold ssdmax. lia.
Qed.

Lemma usable_tests mi x y :
  usable mi x y
  = negb ((x <? 0) || (x >=? rwidth (size mi)))
    && negb ((y <? 0) || (y >=? rheight (size mi)))
    && negb (isMasked mi x y).
Proof.
  unfold usable. rewrite !Z.geb_leb.
  destruct (Z.ltb_spec x 0), (Z.leb_spec 0 x); try lia;
    destruct (Z.ltb_spec x (rwidth (size mi))),
             (Z.leb_spec (rwidth (size mi)) x); try lia;
    destruct (Z.ltb_spec y 0), (Z.leb_spec 0 y); try lia;
    destruct (Z.ltb_spec y (rheight (size mi))),
             (Z.leb_spec (rheight (size mi)) y); try lia;
    reflexivity.
Qed.

Lemma distance_body_exact nnf x y xp yp dy dx d w :
  channelCount (imageDev (input nnf)) <= 10 ->
  0 <= d -> d + ssdmax < 9223372036854775808 ->
  0 <= w -> w + ssdmax < 9223372036854775808 ->
  distance_body nnf x y xp yp dy dx (d, w)
  = (d + contribution nnf x y xp yp dy dx, w + ssdmax).
Proof.
  intros Hn Hd Hd' Hw Hw'.
  pose proof (distance_sq_range (input nnf) (x + dx) (y + dy)
                (output nnf) (xp + dx) (yp + dy) Hn) as Hssd.
  unfold distance_body, contribution. rewrite !usable_tests.
  rewrite (MaskedImage_distance_exact _ _ _ _ _ _ Hn).
  rewrite (long64_small (w + ssdmax)) by lia.
  rewrite (long64_small (d + ssdmax)) by lia.
  rewrite (long64_small (d + distance_sq _ _ _ _ _ _)) by lia.
  destruct (_ || _); [reflexivity|].
  destruct (_ || _); [reflexivity|].
  destruct (isMasked (input nnf) _ _); [reflexivity|].
  destruct (_ || _); [reflexivity|].
  destruct (_ || _); [reflexivity|].
  destruct (isMasked (output nnf) _ _); reflexivity.
Qed.

Lemma distance_row_exact nnf x y xp yp dy (l : list Z) :
  channelCount (imageDev (input nnf)) <= 10 ->
  forall d w,
    0 <= d -> 0 <= w ->
    d + Z.of_nat (length l) * ssdmax < 9223372036854775808 ->
    w + Z.of_nat (length l) * ssdmax < 9223372036854775808 ->
    fold_left (fun acc dx => distance_body nnf x y xp yp dy dx acc) l (d, w)
    = (d + Zsum (map (fun dx => contribution nnf x y xp yp dy dx) l),
       w + Z.of_nat (length l) * ssdmax).
Proof.
  intros Hn. assert (Hs : ssdmax = 650250) by reflexivity.
  induction l as [|dx l IH]; intros d w Hd Hw Hd' Hw'.
  - cbn. f_equal; lia.
  - cbn [fold_left map length] in *. rewrite Nat2Z.inj_succ in *.
    pose proof (contribution_range nnf x y xp yp dy dx Hn) as Hc.
    rewrite distance_body_exact by lia.
    rewrite IH by lia.
    rewrite Zsum_cons. f_equal; lia.
Qed.

Lemma Zsum_contribution_range nnf x y xp yp dy (l : list Z) :
  channelCount (imageDev (input nnf)) <= 10 ->
  0 <= Zsum (map (fun dx => contribution nnf x y xp yp dy dx) l)
    <= Z.of_nat (length l) * ssdmax.
Proof.
  intros Hn.
  pose proof (Zsum_bounds (fun dx => contribution nnf x y xp yp dy dx)
                0 ssdmax l
                (fun dx => contribution_range nnf x y xp yp dy dx Hn)).
  lia.
Qed.

Lemma distance_grid_exact nnf x y xp yp (cols rows : list Z) :
  channelCount (imageDev (input nnf)) <= 10 ->
  forall d w,
    0 <= d -> 0 <= w ->
    d + Z.of_nat (length rows) * (Z.of_nat (length cols) * ssdmax)
      < 9223372036854775808 ->
    w + Z.of_nat (length rows) * (Z.of_nat (length cols) * ssdmax)
      < 9223372036854775808 ->
    fold_left
      (fun acc dy =>
         fold_left (fun acc dx => distance_body nnf x y xp yp dy dx acc)
                   cols acc)
      rows (d, w)
    = (d + Zsum (map (fun dy =>
                        Zsum (map (fun dx => contribution nnf x y xp yp dy dx)
                                  cols))
                     rows),
       w + Z.of_nat (length rows) * (Z.of_nat (length cols) * ssdmax)).
Proof.
  intros Hn. assert (Hs : ssdmax = 650250) by reflexivity.
  induction rows as [|dy rows IH]; intros d w Hd Hw Hd' Hw'.
  - cbn. f_equal; lia.
  - cbn [fold_left map length] in *. rewrite Nat2Z.inj_succ in *.
    pose proof (Zsum_contribution_range nnf x y xp yp dy cols Hn) as Hc.
    rewrite distance_row_exact by lia.
    rewrite IH by lia.
    rewrite Zsum_cons. f_equal; lia.
Qed.

Lemma Zsum_rows_range nnf x y xp yp (cols rows : list Z) :
  channelCount (imageDev (input nnf)) <= 10 ->
  0 <= Zsum (map (fun dy =>
                    Zsum (map (fun dx => contribution nnf x y xp yp dy dx) cols))
                 rows)
    <= Z.of_nat (length rows) * (Z.of_nat (length cols) * ssdmax).
Proof.
  intros Hn.
  pose proof (Zsum_bounds
           (fun dy => Zsum (map (fun dx => contribution nnf x y xp yp dy dx) cols))
           0 (Z.of_nat (length cols) * ssdmax) rows) as H.
  rewrite Z.mul_0_r in H. apply H.
  intros dy. pose proof (Zsum_contribution_range nnf x y xp yp dy cols Hn). lia.
Qed.

Lemma length_offsets r : 0 <= r -> Z.of_nat (length (offsets r)) = 2 * r + 1.
Proof. intros Hr. unfold offsets. rewrite length_seqZ. lia. Qed.

Lemma distance_exact nnf x y xp yp :
  radius_fits (patchSize nnf) ->
  channelCount (imageDev (input nnf)) <= 10 ->
  distance nnf x y xp yp = distance_spec nnf x y xp yp
  /\ 0 <= distance nnf x y xp yp <= MAX_DIST.
Proof.
  intros [Hr Hfit] Hn.
  pose proof (length_offsets _ Hr) as Hlen.
  pose proof (Zsum_rows_range nnf x y xp yp (offsets (patchSize nnf))
                (offsets (patchSize nnf)) Hn) as Hsum.
  rewrite Hlen in Hsum.
  change (2 ^ 63) with 9223372036854775808 in Hfit.
  rewrite Z.pow_2_r in Hfit.
  assert (Hs : ssdmax = 650250) by reflexivity.
  assert (Hm : MAX_DIST = 65535) by reflexivity.
  set (n := 2 * patchSize nnf + 1) in *.
  assert (Hn1 : 1 <= n) by lia.
  assert (Hnn : 1 <= n * n) by nia.
  unfold distance, distance_spec.
  rewrite distance_grid_exact;
    [ | first [ lia | rewrite Hlen; fold n; nia ] .. ].
  rewrite Hlen. fold n. rewrite Z.pow_2_r.
  set (sum := Zsum _) in *.
  replace (0 + n * (n * ssdmax)) with (n * n * ssdmax) by lia.
  replace (0 + sum) with sum by lia.
  rewrite long64_small by nia.
  rewrite Z.quot_div_nonneg by nia.
  assert (Hq : 0 <= MAX_DIST * sum / (n * n * ssdmax) <= MAX_DIST).
  { split.
    - apply Z.div_pos; nia.
    - apply Z.div_le_upper_bound; nia. }
  rewrite int32_small by lia.
  split; [reflexivity | exact Hq].
Qed.

(** C8.  With a radius that keeps the [long] arithmetic below [2^63] and
    an image of at most ten channels, the patch distance computed by the
    loops of [NearestNeighborField::distance] equals
    [(MAX_DIST * sum) / wsum], where every offset of the
    [(2R+1) x (2R+1)] window adds [ssdmax] when one of its two samples is
    out of bounds or masked and the squared pixel difference otherwise, and
    [wsum = (2R+1)^2 * ssdmax]; the value lies in [0, MAX_DIST]. *)
Theorem distance_refines_spec (nnf : NearestNeighborField) (x y xp yp : Z) :
  0 <= patchSize nnf ->
  MAX_DIST * ((2 * patchSize nnf + 1) ^ 2 * ssdmax) < 2 ^ 63 ->
  channelCount (imageDev (input nnf)) <= 10 ->
  distance nnf x y xp yp = distance_spec nnf x y xp yp
  /\ 0 <= distance nnf x y xp yp <= MAX_DIST.
Proof.
  intros Hr Hfit Hn. apply distance_exact; [by split | exact Hn].
Qed.

Lemma distance_refines_spec_witness :
  (0 <= patchSize strip_nnf
   /\ MAX_DIST * ((2 * patchSize strip_nnf + 1) ^ 2 * ssdmax) < 2 ^ 63
   /\ channelCount (imageDev (input strip_nnf)) <= 10)
  /\ (distance strip_nnf 0 0 (-1) 0 = distance_spec strip_nnf 0 0 (-1) 0
      /\ 0 <= distance strip_nnf 0 0 (-1) 0 <= MAX_DIST).
Proof.
  assert (H1 : 0 <= patchSize strip_nnf) by (vm_compute; discriminate).
  assert (H2 : MAX_DIST * ((2 * patchSize strip_nnf + 1) ^ 2 * ssdmax) < 2 ^ 63)
    by (vm_compute; reflexivity).
  assert (H3 : channelCount (imageDev (input strip_nnf)) <= 10)
    by (vm_compute; discriminate).
  split; [tauto|].
  exact (distance_refines_spec strip_nnf 0 0 (-1) 0 H1 H2 H3).
Defined.

(** *** Fields and frames *)

Lemma idx2_lt h w x y :
  0 <= x < w -> 0 <= y < h -> (idx2 h x y < Z.to_nat (w * h))%nat.
Proof. intros Hx Hy. unfold idx2. nia. Qed.

Lemma field_set_sized nnf x y p :
  field_sized nnf -> field_sized (field_set nnf x y p).
Proof. unfold field_sized. cbn. by rewrite length_insert. Qed.

Lemma field_set_every nnf x y p (P : NNPixel -> Prop) :
  field_sized nnf ->
  0 <= x < rwidth (imSize nnf) -> 0 <= y < rheight (imSize nnf) ->
  P p -> every_entry nnf P -> every_entry (field_set nnf x y p) P.
Proof.
  intros Hlen Hx Hy Hp Hall x' y' Hx' Hy'.
  unfold field_at, field_set. cbn in *.
  rewrite list_lookup_total_insert.
  case_decide as Hd; [exact Hp |].
  by apply Hall.
Qed.

(** *** A distance below [MAX_DIST] places the link near the source *)

Lemma usable_in_bounds mi x y :
  usable mi x y = true ->
  0 <= x < rwidth (size mi) /\ 0 <= y < rheight (size mi).
Proof.
  unfold usable. intros H.
  repeat (apply andb_prop in H; destruct H as [H ?]).
  lia.
Qed.

Lemma Zsum_const (f : Z -> Z) (c : Z) (l : list Z) :
  (forall a, a ∈ l -> f a = c) -> Zsum (map f l) = Z.of_nat (length l) * c.
Proof.
  induction l as [|a l IH]; intros Hf; [reflexivity|].
  cbn [map length]. rewrite Zsum_cons, Nat2Z.inj_succ.
  rewrite IH, (Hf a); [lia | left | intros b Hb; apply Hf; by right].
Qed.

Lemma elem_of_offsets r d : d ∈ offsets r -> - r <= d <= r.
Proof. unfold offsets. rewrite elem_of_seqZ. lia. Qed.

Lemma distance_far nnf x y xp yp :
  radius_fits (patchSize nnf) ->
  channelCount (imageDev (input nnf)) <= 10 ->
  ~ (- patchSize nnf <= xp < rwidth (size (output nnf)) + patchSize nnf
     /\ - patchSize nnf <= yp < rheight (size (output nnf)) + patchSize nnf) ->
  distance nnf x y xp yp = MAX_DIST.
Proof.
  intros Hfit Hn Hfar.
  destruct (distance_exact nnf x y xp yp Hfit Hn) as [-> _].
  destruct Hfit as [Hr _].
  unfold distance_spec.
  assert (Hall : forall dy dx, dy ∈ offsets (patchSize nnf) ->
                 dx ∈ offsets (patchSize nnf) ->
                 contribution nnf x y xp yp dy dx = ssdmax).
  { intros dy dx Hdy%elem_of_offsets Hdx%elem_of_offsets.
    unfold contribution.
    destruct (usable (input nnf) _ _); [|reflexivity]. cbn [andb].
    destruct (usable (output nnf) _ _) eqn:E; [|reflexivity].
    apply usable_in_bounds in E. lia. }
  rewrite (Zsum_const _ (Z.of_nat (length (offsets (patchSize nnf))) * ssdmax)).
  2:{ intros dy Hdy. apply Zsum_const. intros dx Hdx. by apply Hall. }
  rewrite length_offsets by done. rewrite Z.pow_2_r.
  set (n := 2 * patchSize nnf + 1).
  assert (Hs : ssdmax = 650250) by reflexivity.
  replace (MAX_DIST * (n * (n * ssdmax))) with (MAX_DIST * (n * n * ssdmax))
    by lia.
  apply Z.div_mul. nia.
Qed.

Lemma distance_near nnf x y xp yp :
  radius_fits (patchSize nnf) ->
  channelCount (imageDev (input nnf)) <= 10 ->
  distance nnf x y xp yp < MAX_DIST ->
  - patchSize nnf <= xp < rwidth (size (output nnf)) + patchSize nnf
  /\ - patchSize nnf <= yp < rheight (size (output nnf)) + patchSize nnf.
Proof.
  intros Hfit Hn Hlt.
  destruct (decide (- patchSize nnf <= xp
                      < rwidth (size (output nnf)) + patchSize nnf
                    /\ - patchSize nnf <= yp
                      < rheight (size (output nnf)) + patchSize nnf))
    as [H|H]; [exact H|].
  rewrite (distance_far nnf x y xp yp Hfit Hn H) in Hlt. lia.
Qed.

(** *** Postconditions in the [Rand] monad *)

Lemma post_ret {A} (a : A) (I : A -> Prop) : I a -> Rand_post (ret a) I.
Proof. intros H g. exact H. Qed.

Lemma post_bind {A B} (m : Rand A) (f : A -> Rand B) (I : A -> Prop)
    (J : B -> Prop) :
  Rand_post m I -> (forall a, I a -> Rand_post (f a) J) ->
  Rand_post (bind m f) J.
Proof.
  intros Hm Hf g. unfold bind. specialize (Hm g).
  destruct (m g) as [a g']. by apply Hf.
Qed.

Lemma post_random_int range :
  0 < range -> Rand_post (random_int range) (fun r => 0 <= r < range).
Proof. intros Hr g. cbn. by apply Z.mod_pos_bound. Qed.

Lemma post_foldRand {A B} (f : A -> B -> Rand A) (I : A -> Prop)
    (Q : B -> Prop) (l : list B) :
  Forall Q l ->
  (forall a b, I a -> Q b -> Rand_post (f a b) I) ->
  forall a, I a -> Rand_post (foldRand f l a) I.
Proof.
  intros Hl Hf. induction Hl as [|b l Hb Hl IH]; intros a Ha.
  - by apply post_ret.
  - cbn [foldRand]. apply (post_bind _ _ I); [by apply Hf | exact IH].
Qed.

(** *** Invariants of a field relative to its frame *)

Lemma same_frame_refl n : same_frame n n.
Proof. by split. Qed.

Lemma distance_frame n0 nnf x y xp yp :
  same_frame n0 nnf -> distance nnf x y xp yp = distance n0 x y xp yp.
Proof.
  destruct nnf, n0. intros [H1 H2 H3 H4]. cbn in *. subst.
  reflexivity.
Qed.

Lemma Inv_field_set n0 P nnf x y p :
  Inv n0 P nnf -> in_grid n0 x y -> P p -> Inv n0 P (field_set nnf x y p).
Proof.
  intros (Hf & Hs & He) [Hx Hy] Hp. split; [|split].
  - destruct Hf. by split.
  - by apply field_set_sized.
  - destruct Hf as [_ _ _ Hsz]. apply field_set_every; rewrite ?Hsz; done.
Qed.

Lemma Inv_entry n0 P nnf x y :
  Inv n0 P nnf -> in_grid n0 x y -> P (field_at nnf x y).
Proof.
  intros (Hf & _ & He) [Hx Hy]. destruct Hf as [_ _ _ Hsz].
  apply He; rewrite Hsz; done.
Qed.

Section Invariants.
Variable n0 : NearestNeighborField.
Hypothesis Hfit : radius_fits (patchSize n0).
Hypothesis Hchan : channelCount (imageDev (input n0)) <= 10.

Lemma distance_range x y xp yp : 0 <= distance n0 x y xp yp <= MAX_DIST.
Proof. by destruct (distance_exact n0 x y xp yp Hfit Hchan). Qed.

(** [adopt] keeps every link near the source: a candidate is taken only
    with a distance below the current one, hence below [MAX_DIST]. *)
Lemma adopt_near nnf x y xp yp :
  Inv n0 (near_source n0) nnf -> in_grid n0 x y ->
  Inv n0 (near_source n0) (adopt nnf x y xp yp).
Proof.
  intros HI Hxy. unfold adopt.
  rewrite (distance_frame n0) by apply HI.
  destruct (Z.ltb_spec (distance n0 x y xp yp) (nn_distance (field_at nnf x y)))
    as [Hlt|]; [|exact HI].
  apply Inv_field_set; [done..|].
  pose proof (Inv_entry _ _ _ _ _ HI Hxy) as (_ & _ & Hd).
  pose proof (distance_range x y xp yp) as Hr.
  destruct (distance_near n0 x y xp yp Hfit Hchan) as [Hx Hy]; [lia|].
  unfold near_source, link_within; cbn [nn_x nn_y nn_distance]; lia.
Qed.

Lemma random_search_near wi x y xpi ypi nnf :
  Inv n0 (near_source n0) nnf -> in_grid n0 x y ->
  Rand_post (random_search wi x y xpi ypi nnf) (Inv n0 (near_source n0)).
Proof.
  revert nnf. induction wi as [p IH|p IH|]; intros nnf HI Hxy;
    cbn [random_search];
    (apply (post_bind _ _ (Inv n0 (near_source n0)));
     [ intros g; unfold random_search_step, bind, random_int, ret; cbn;
       by apply adopt_near
     | intros nnf' HI'; first [ by apply IH | by apply post_ret ] ]).
Qed.

Lemma minimizeLink_near nnf x y dir :
  Inv n0 (near_source n0) nnf -> in_grid n0 x y ->
  Rand_post (minimizeLink nnf x y dir) (Inv n0 (near_source n0)).
Proof.
  intros HI Hxy. unfold minimizeLink.
  assert (H1 : Inv n0 (near_source n0) (propagate_x nnf x y dir)).
  { unfold propagate_x. destruct (_ && _); [by apply adopt_near | exact HI]. }
  assert (H2 : Inv n0 (near_source n0)
                   (propagate_y (propagate_x nnf x y dir) x y dir)).
  { unfold propagate_y, vertical_candidate.
    destruct (_ && _); [by apply adopt_near | exact H1]. }
  cbv zeta.
  destruct (rwidth (size (output _)));
    [by apply post_ret | by apply random_search_near | by apply post_ret].
Qed.

(** Coordinates produced by the scans lie in the grid. *)
Lemma scanline_in_grid w h x y :
  (x, y) ∈ scanline w h -> 0 <= x < w /\ 0 <= y < h.
Proof.
  unfold scanline. intros H.
  apply list_elem_of_bind in H as (y' & H & Hy).
  apply list_elem_of_bind in H as (x' & H & Hx).
  apply list_elem_of_singleton in H. injection H as -> ->.
  apply elem_of_seqZ in Hx, Hy. lia.
Qed.

Lemma scanline_complete w h x y :
  0 <= x < w -> 0 <= y < h -> (x, y) ∈ scanline w h.
Proof.
  intros Hx Hy. unfold scanline.
  apply list_elem_of_bind. exists y. split; [|apply elem_of_seqZ; lia].
  apply list_elem_of_bind. exists x. split; [|apply elem_of_seqZ; lia].
  by apply list_elem_of_singleton.
Qed.

Lemma forward_scan_in_grid w h x y :
  (x, y) ∈ forward_scan w h -> 0 <= x < w /\ 0 <= y < h - 1.
Proof.
  unfold forward_scan. intros H.
  apply list_elem_of_bind in H as (y' & H & Hy).
  apply list_elem_of_bind in H as (x' & H & Hx).
  apply list_elem_of_singleton in H. injection H as -> ->.
  apply elem_of_seqZ in Hx, Hy. lia.
Qed.

Lemma reverse_scan_in_grid w h x y :
  (x, y) ∈ reverse_scan w h -> 0 <= x < w /\ 0 <= y < h.
Proof.
  unfold reverse_scan. intros H.
  apply list_elem_of_bind in H as (y' & H & Hy).
  apply list_elem_of_bind in H as (x' & H & Hx).
  apply list_elem_of_singleton in H. injection H as -> ->.
  apply elem_of_reverse, elem_of_seqZ in Hx.
  apply elem_of_reverse, elem_of_seqZ in Hy. lia.
Qed.

Lemma minimize_pass_near nnf :
  Inv n0 (near_source n0) nnf ->
  Rand_post (minimize_pass nnf) (Inv n0 (near_source n0)).
Proof.
  intros HI. unfold minimize_pass.
  assert (Hsz : imSize nnf = imSize n0) by apply HI.
  rewrite Hsz.
  apply (post_bind _ _ (Inv n0 (near_source n0))).
  - apply (post_foldRand _ _ (grid_point n0)); [| |exact HI].
    + apply Forall_forall. intros [x y] Hin.
      apply forward_scan_in_grid in Hin. unfold grid_point, in_grid. cbn. lia.
    + intros a [x y] Ha Hb. destruct (_ >? _);
        [by apply minimizeLink_near | by apply post_ret].
  - intros n1 H1.
    apply (post_foldRand _ _ (grid_point n0)); [| |exact H1].
    + apply Forall_forall. intros [x y] Hin.
      apply reverse_scan_in_grid in Hin. unfold grid_point, in_grid. cbn. lia.
    + intros a [x y] Ha Hb. destruct (negb _);
        [by apply minimizeLink_near | by apply post_ret].
Qed.

Lemma minimize_near pass nnf :
  Inv n0 (near_source n0) nnf ->
  Rand_post (minimize pass nnf) (Inv n0 (near_source n0)).
Proof.
  unfold minimize. generalize (Z.to_nat pass) as n. intros n. revert nnf.
  induction n as [|n IH]; intros nnf HI; cbn [minimize_n].
  - by apply post_ret.
  - apply (post_bind _ _ (Inv n0 (near_source n0)));
      [by apply minimize_pass_near | exact IH].
Qed.

(** [retry] and [initialize] keep every link inside the target grid, from
    which the new links are drawn. *)
Lemma retry_target n nnf x y :
  Inv n0 (in_target n0) nnf -> in_grid n0 x y ->
  Rand_post (retry n nnf x y) (Inv n0 (in_target n0)).
Proof.
  revert nnf. induction n as [|n IH]; intros nnf HI Hxy; cbn [retry].
  - by apply post_ret.
  - destruct (_ =? _); [|by apply post_ret].
    assert (Hsz : imSize nnf = imSize n0) by apply HI.
    rewrite Hsz. destruct Hxy as [Hx Hy].
    apply (post_bind _ _ (fun r => 0 <= r < rwidth (imSize n0)));
      [apply post_random_int; lia|]. intros r1 Hr1.
    apply (post_bind _ _ (fun r => 0 <= r < rheight (imSize n0)));
      [apply post_random_int; lia|]. intros r2 Hr2.
    apply IH; [|done].
    apply Inv_field_set; [done..|].
    rewrite (distance_frame n0) by apply HI.
    pose proof (distance_range x y r1 r2).
    unfold in_target, link_within; cbn [nn_x nn_y nn_distance]; lia.
Qed.

Lemma initialize_target nnf :
  Inv n0 (in_target n0) nnf ->
  Rand_post (initialize nnf) (Inv n0 (in_target n0)).
Proof.
  intros HI. unfold initialize.
  assert (Hsz : imSize nnf = imSize n0) by apply HI.
  rewrite Hsz.
  apply (post_foldRand _ _ (grid_point n0)); [| |exact HI].
  - apply Forall_forall. intros [x y] Hin.
    apply scanline_in_grid in Hin. unfold grid_point, in_grid. cbn. lia.
  - intros a [x y] Ha Hb. unfold grid_point in Hb. cbn [fst snd] in Hb.
    apply retry_target; [|done].
    apply Inv_field_set; [done..|].
    rewrite (distance_frame n0) by apply Ha.
    pose proof (Inv_entry _ _ _ _ _ Ha Hb) as (Hx & Hy & _).
    pose proof (distance_range x y (nn_x (field_at a x y))
                                   (nn_y (field_at a x y))).
    unfold in_target, link_within; cbn [nn_x nn_y nn_distance]; lia.
Qed.
End Invariants.

Lemma post_foldRand_prefix {A B} (f : A -> B -> Rand A)
    (I : list B -> A -> Prop) (Q : B -> Prop) (l : list B) :
  Forall Q l ->
  (forall done a b, I done a -> Q b -> Rand_post (f a b) (I (done ++ [b]))) ->
  forall done a, I done a -> Rand_post (foldRand f l a) (I (done ++ l)).
Proof.
  intros Hl Hf. induction Hl as [|b l Hb Hl IH]; intros done a Ha.
  - rewrite app_nil_r. by apply post_ret.
  - cbn [foldRand]. apply (post_bind _ _ (I (done ++ [b]))); [by apply Hf|].
    intros a' Ha'. rewrite (cons_middle b done l), app_assoc. by apply IH.
Qed.

Lemma randomize_target n0 :
  radius_fits (patchSize n0) ->
  channelCount (imageDev (input n0)) <= 10 ->
  field_sized n0 ->
  Rand_post (randomize n0) (Inv n0 (in_target n0)).
Proof.
  intros Hfit Hchan Hlen. unfold randomize.
  apply (post_bind _ _ (Inv n0 (in_target n0)));
    [|intros a Ha; by apply initialize_target].
  intros g.
  pose proof (post_foldRand_prefix
    (fun nnf '(x, y) =>
       bind (random_int (rwidth (imSize nnf))) (fun r1 =>
       bind (random_int (rheight (imSize nnf))) (fun r2 =>
       ret (field_set nnf x y (mkNNPixel r1 r2 MAX_DIST)))))
    (drawn n0) (grid_point n0)
    (scanline (rwidth (imSize n0)) (rheight (imSize n0)))) as H.
  cbn [app] in H.
  specialize (H ltac:(apply Forall_forall; intros [x y] Hin;
                      apply scanline_in_grid in Hin;
                      unfold grid_point, in_grid; cbn; lia)).
  lapply H.
  - clear H. intros H. specialize (H [] n0).
    destruct (H ltac:(split; [apply same_frame_refl|split; [done|]];
                      intros x y Hin; by apply elem_of_nil in Hin) g)
      as (Hf & Hs & He).
    split; [done|split; [done|]].
    intros x y Hx Hy.
    assert (Hsz : imSize (foldRand _ _ n0 g).1 = imSize n0) by apply Hf.
    rewrite Hsz in Hx, Hy.
    apply He; [by apply scanline_complete | by split].
  - clear H. intros done a [x y] (Hf & Hs & He) [Hx Hy]. cbn in Hx, Hy.
    assert (Hsz : imSize a = imSize n0) by apply Hf. rewrite Hsz.
    apply (post_bind _ _ (fun r => 0 <= r < rwidth (imSize n0)));
      [apply post_random_int; lia|]. intros r1 Hr1.
    apply (post_bind _ _ (fun r => 0 <= r < rheight (imSize n0)));
      [apply post_random_int; lia|]. intros r2 Hr2.
    apply post_ret. split; [|split].
    + destruct Hf. by split.
    + by apply field_set_sized.
    + intros x' y' Hin [Hx' Hy'].
      unfold field_at, field_set. cbn. rewrite Hsz.
      rewrite list_lookup_total_insert.
      case_decide as Hd.
      * unfold in_target, link_within, MAX_DIST; cbn [nn_x nn_y nn_distance]; lia.
      * apply elem_of_app in Hin as [Hin|Hin].
        -- specialize (He x' y' Hin (conj Hx' Hy')).
           unfold field_at in He. by rewrite Hsz in He.
        -- apply list_elem_of_singleton in Hin. injection Hin as -> ->.
           exfalso. apply Hd. split; [done|].
           rewrite Hs, Hsz. by apply idx2_lt.
Qed.

Lemma Inv_weaken n0 (P Q : NNPixel -> Prop) nnf :
  (forall p, P p -> Q p) -> Inv n0 P nnf -> Inv n0 Q nnf.
Proof.
  intros HPQ (Hf & Hs & He). split; [done|split; [done|]].
  intros x y Hx Hy. by apply HPQ, He.
Qed.

(** C4, as the code has it.  For a field whose target is no larger than its
    source: after [randomize] every entry has its link inside the source
    and its distance in [0, MAX_DIST]; after any number of [minimize]
    passes every entry has its distance in [0, MAX_DIST] and its link at
    most the patch radius outside the source on each side.  (Random-search
    candidates are clamped; propagation candidates are taken whenever
    strictly closer, which only forces some offset of the patch into the
    source.) *)
Theorem links_stay_near_source (n0 : NearestNeighborField) (pass : Z)
    (g g' : mt19937) :
  0 <= patchSize n0 ->
  MAX_DIST * ((2 * patchSize n0 + 1) ^ 2 * ssdmax) < 2 ^ 63 ->
  channelCount (imageDev (input n0)) <= 10 ->
  field_sized n0 ->
  rwidth (imSize n0) <= rwidth (size (output n0)) ->
  rheight (imSize n0) <= rheight (size (output n0)) ->
  every_entry (randomize n0 g).1 (in_source n0)
  /\ every_entry (minimize pass (randomize n0 g).1 g').1 (near_source n0).
Proof.
  intros Hr Hfit Hn Hlen Hw Hh.
  assert (Hf : radius_fits (patchSize n0)) by (by split).
  pose proof (randomize_target n0 Hf Hn Hlen g) as HI.
  split.
  - apply (Inv_weaken n0 (in_target n0) (in_source n0)) in HI; [apply HI|].
    unfold in_target, in_source, link_within. intros p. lia.
  - apply (Inv_weaken n0 (in_target n0) (near_source n0)) in HI.
    + apply (minimize_near n0 Hf Hn pass _ HI g').
    + unfold in_target, near_source, link_within. intros p. lia.
Qed.

Lemma links_stay_near_source_witness :
  (0 <= patchSize strip_nnf
   /\ MAX_DIST * ((2 * patchSize strip_nnf + 1) ^ 2 * ssdmax) < 2 ^ 63
   /\ channelCount (imageDev (input strip_nnf)) <= 10
   /\ field_sized strip_nnf
   /\ rwidth (imSize strip_nnf) <= rwidth (size (output strip_nnf))
   /\ rheight (imSize strip_nnf) <= rheight (size (output strip_nnf)))
  /\ (every_entry (randomize strip_nnf (const_gen 0)).1 (in_source strip_nnf)
      /\ every_entry
           (minimize 1 (randomize strip_nnf (const_gen 0)).1 (const_gen 0)).1
           (near_source strip_nnf)).
Proof.
  assert (H1 : 0 <= patchSize strip_nnf) by (vm_compute; discriminate).
  assert (H2 : MAX_DIST * ((2 * patchSize strip_nnf + 1) ^ 2 * ssdmax) < 2 ^ 63)
    by (vm_compute; reflexivity).
  assert (H3 : channelCount (imageDev (input strip_nnf)) <= 10)
    by (vm_compute; discriminate).
  assert (H4 : field_sized strip_nnf) by (vm_compute; reflexivity).
  assert (H5 : rwidth (imSize strip_nnf) <= rwidth (size (output strip_nnf)))
    by (vm_compute; discriminate).
  assert (H6 : rheight (imSize strip_nnf) <= rheight (size (output strip_nnf)))
    by (vm_compute; discriminate).
  split; [tauto|].
  exact (links_stay_near_source strip_nnf 1 (const_gen 0) (const_gen 0)
           H1 H2 H3 H4 H5 H6).
Defined.

(** C4 as stated fails: on the 3x1 strip, [randomize] followed by one
    [minimize] pass leaves the entry at [(0,0)] with [sx = -1], taken by
    propagation from its right neighbour. *)
Lemma propagation_leaves_source_range :
  ~ every_entry
      (minimize 1 (randomize strip_nnf (const_gen 0)).1
                  (randomize strip_nnf (const_gen 0)).2).1
      (in_source strip_nnf).
Proof.
  intros H.
  assert (Hx : 0 <= 0 < rwidth (imSize
             (minimize 1 (randomize strip_nnf (const_gen 0)).1
                         (randomize strip_nnf (const_gen 0)).2).1))
    by (vm_compute; split; [discriminate | reflexivity]).
  assert (Hy : 0 <= 0 < rheight (imSize
             (minimize 1 (randomize strip_nnf (const_gen 0)).1
                         (randomize strip_nnf (const_gen 0)).2).1))
    by (vm_compute; split; [discriminate | reflexivity]).
  destruct (H 0 0 Hx Hy) as [[Hlo _] _].
  vm_compute in Hlo. by apply Hlo.
Qed.

(** *** The scans of [minimize] *)

(** The forward scan never reaches the last row. *)
Lemma forward_scan_rows w h x y : (x, y) ∈ forward_scan w h -> y < h - 1.
Proof. intros H. apply forward_scan_in_grid in H. lia. Qed.

(** The reverse scan reaches every pixel. *)
Lemma reverse_scan_complete w h x y :
  0 <= x < w -> 0 <= y < h -> (x, y) ∈ reverse_scan w h.
Proof.
  intros Hx Hy. unfold reverse_scan.
  apply list_elem_of_bind. exists y.
  split; [|apply elem_of_reverse, elem_of_seqZ; lia].
  apply list_elem_of_bind. exists x.
  split; [|apply elem_of_reverse, elem_of_seqZ; lia].
  by apply list_elem_of_singleton.
Qed.

(** C6 at a 2x2 grid: the forward scan of a pass visits the pixels of row 0
    only, so pixel [(0,1)] of the last row is not visited by it; the
    reverse scan visits all four pixels, last row first. *)
Theorem forward_scan_misses_last_row :
  forward_scan 2 2 = [(0, 0); (1, 0)]
  /\ ((0, 1) ∉ forward_scan 2 2)
  /\ reverse_scan 2 2 = [(1, 1); (0, 1); (1, 0); (0, 0)].
Proof.
  split; [reflexivity|]. split; [|reflexivity].
  intros H. apply forward_scan_rows in H. lia.
Qed.

(** *** Vertical propagation *)

(** The candidate of the second block reads the current cell only. *)
Lemma vertical_candidate_current nnf l x y dir :
  let nnf' := set_field nnf l in
  field_at nnf' x y = field_at nnf x y ->
  vertical_candidate nnf' x y dir = vertical_candidate nnf x y dir.
Proof. intros nnf' H. unfold vertical_candidate. by rewrite H. Qed.

(** C7 at the 1x3 column, pixel [(0,2)], direction [+1]: the guard
    [0 < y - dir < H] holds, the cell above holds the link [(0,1)] and the
    current cell the link [(0,0)].  The candidate the code tries is
    [(0, 0 + 1)], built from the current cell alone, not [(0, 1 + 1)]; it is
    strictly closer than the current link and is taken. *)
Theorem vertical_candidate_ignores_neighbour :
  vertical_candidate column_nnf 0 2 1 = (0, 1)
  /\ (nn_x (field_at column_nnf 0 2), nn_y (field_at column_nnf 0 1) + 1)
     = (0, 2)
  /\ field_at (propagate_y column_nnf 0 2 1) 0 2 = mkNNPixel 0 1 50973.
Proof. vm_compute. repeat split. Qed.

(** *** [clearMask] *)

(** [clearMask] zeroes the mask device inside its bounds and leaves the
    image device and both caches as they were. *)
Lemma clearMask_effect mi :
  imageDev (clearMask mi) = imageDev mi
  /\ imageCache (clearMask mi) = imageCache mi
  /\ maskCache (clearMask mi) = maskCache mi
  /\ forall x y,
       in_rect (rx (exactBounds (maskDev mi))) (ry (exactBounds (maskDev mi)))
               (rwidth (exactBounds (maskDev mi)))
               (rheight (exactBounds (maskDev mi))) x y = true ->
       pixelAt (maskDev (clearMask mi)) x y = [Byte.x00].
Proof.
  repeat split. intros x y H. cbn. by rewrite H.
Qed.

Lemma clearMask_isMasked mi x y : isMasked (clearMask mi) x y = isMasked mi x y.
Proof. reflexivity. Qed.

(** C2 at an image of two pixels whose first mask byte is 0 (a hole): after
    [clearMask] the mask bytes are 0, yet [isMasked 0 0] still answers
    [true] from the cache; and a cache rebuilt from the zeroed device
    answers [true] at both pixels. *)
Theorem clearMask_leaves_holes :
  isMasked (clearMask two_pixels) 0 0 = true
  /\ pixelAt (maskDev (clearMask two_pixels)) 0 0 = [Byte.x00]
  /\ pixelAt (maskDev (clearMask two_pixels)) 1 0 = [Byte.x00]
  /\ maskCache (clone (clearMask two_pixels)) = [true; true].
Proof. vm_compute. repeat split. Qed.

(** *** The pyramid *)

Lemma isOdd_mod x : isOdd x = x mod 2.
Proof. unfold isOdd. exact (Z.land_ones x 1 ltac:(lia)). Qed.

Lemma isOdd_aligned x : isOdd (x - isOdd x) = 0.
Proof.
  rewrite !isOdd_mod.
  rewrite (Z.div_mod x 2) at 1 by lia.
  replace (2 * (x / 2) + x mod 2 - x mod 2) with (x / 2 * 2) by lia.
  apply Z.mod_mul. lia.
Qed.

Lemma isOdd_range x : 0 <= isOdd x <= 1.
Proof. rewrite isOdd_mod. pose proof (Z.mod_pos_bound x 2). lia. Qed.

(** On a [qint32] and an increment of 0 or 1, [incr32] is the addition
    followed by the wrap-around of the type. *)
Lemma incr32_int32 a b :
  -2147483648 <= a <= 2147483647 -> 0 <= b <= 1 -> incr32 a b = int32 (a + b).
Proof.
  intros Ha Hb. unfold incr32.
  destruct (Z.eqb_spec (a + b) 2147483648) as [E|E].
  - rewrite E. reflexivity.
  - symmetry. apply int32_small. lia.
Qed.

Lemma incr32_twice w :
  incr32 (incr32 w 0) (isOdd (incr32 w 0))
  = if (w =? 2147483647) || (w =? 2147483648) then -2147483648
    else w + isOdd w.
Proof.
  unfold incr32. rewrite Z.add_0_r.
  destruct (Z.eqb_spec w 2147483648) as [->|H1]; [reflexivity|].
  destruct (Z.eqb_spec w 2147483647) as [->|H2]; [reflexivity|].
  cbn [orb]. pose proof (isOdd_range w) as Hr.
  destruct (Z.eqb_spec (w + isOdd w) 2147483648) as [E|E]; [|reflexivity].
  assert (Hw : w = 2147483647 \/ w = 2147483648) by lia.
  destruct Hw; contradiction.
Qed.

Lemma alignRectBy2_sides r :
  rwidth (alignRectBy2 r)
  = (if (rwidth r =? 2147483647) || (rwidth r =? 2147483648)
     then -2147483648 else rwidth r + isOdd (rwidth r))
  /\ rheight (alignRectBy2 r)
     = (if (rheight r =? 2147483647) || (rheight r =? 2147483648)
        then -2147483648 else rheight r + isOdd (rheight r)).
Proof.
  unfold alignRectBy2. cbn [rwidth rheight].
  rewrite !isOdd_aligned, !incr32_twice. done.
Qed.

Lemma alignRectBy2_size r :
  aligns (rwidth r) -> aligns (rheight r) ->
  rwidth (alignRectBy2 r) = rwidth r + isOdd (rwidth r)
  /\ rheight (alignRectBy2 r) = rheight r + isOdd (rheight r).
Proof.
  intros [W1 W2] [H1 H2]. destruct (alignRectBy2_sides r) as [-> ->].
  destruct (Z.eqb_spec (rwidth r) 2147483647); [done|].
  destruct (Z.eqb_spec (rwidth r) 2147483648); [done|].
  destruct (Z.eqb_spec (rheight r) 2147483647); [done|].
  destruct (Z.eqb_spec (rheight r) 2147483648); [done|].
  done.
Qed.

Lemma alignRectBy2_overflow r :
  ~ aligns (rwidth r) \/ ~ aligns (rheight r) ->
  rwidth (alignRectBy2 r) = -2147483648
  \/ rheight (alignRectBy2 r) = -2147483648.
Proof.
  intros H. destruct (alignRectBy2_sides r) as [-> ->]. unfold aligns in H.
  destruct (Z.eqb_spec (rwidth r) 2147483647); [by left|].
  destruct (Z.eqb_spec (rwidth r) 2147483648); [by left|].
  destruct (Z.eqb_spec (rheight r) 2147483647); [by right|].
  destruct (Z.eqb_spec (rheight r) 2147483648); [by right|].
  exfalso. destruct H as [H|H]; apply H; done.
Qed.

Lemma aligns_dec w : aligns w \/ ~ aligns w.
Proof. unfold aligns. lia. Qed.

Lemma half_up_bounds w : 1 <= w -> 1 <= half_up w /\ (2 <= w -> half_up w < w).
Proof.
  intros Hw. unfold half_up. rewrite isOdd_mod.
  pose proof (Z.mod_pos_bound w 2 ltac:(lia)) as Hm.
  rewrite Z.quot_div_nonneg by lia.
  pose proof (Z.div_mod w 2 ltac:(lia)) as Hd.
  assert (Hq : (w + w mod 2) / 2 = w / 2 + w mod 2).
  { replace (w + w mod 2) with ((w / 2 + w mod 2) * 2) by lia.
    apply Z.div_mul. lia. }
  rewrite Hq. lia.
Qed.

Lemma fresh_clone mi : fresh (clone mi).
Proof. reflexivity. Qed.

Lemma downsample2x_size host mi :
  fresh mi -> 1 <= rwidth (size mi) -> 1 <= rheight (size mi) ->
  aligns (rwidth (size mi)) -> aligns (rheight (size mi)) ->
  fresh (downsample2x host mi)
  /\ rwidth (size (downsample2x host mi)) = half_up (rwidth (size mi))
  /\ rheight (size (downsample2x host mi)) = half_up (rheight (size mi)).
Proof.
  unfold fresh, size. intros Hf Hw Hh Aw Ah. rewrite Hf in Hw, Hh, Aw, Ah |- *.
  unfold downsample2x.
  destruct (alignRectBy2_size (exactBounds (imageDev mi)) Aw Ah) as [Ew Eh].
  pose proof (isOdd_mod (rwidth (exactBounds (imageDev mi)))) as Ow.
  pose proof (isOdd_mod (rheight (exactBounds (imageDev mi)))) as Oh.
  pose proof (Z.mod_pos_bound (rwidth (exactBounds (imageDev mi))) 2
                ltac:(lia)).
  pose proof (Z.mod_pos_bound (rheight (exactBounds (imageDev mi))) 2
                ltac:(lia)).
  destruct (Z.ltb_spec (rwidth (alignRectBy2 (exactBounds (imageDev mi)))) 1);
    [lia|].
  destruct (Z.ltb_spec (rheight (alignRectBy2 (exactBounds (imageDev mi)))) 1);
    [lia|].
  cbn [orb]. unfold cacheEverything, downsampleDevice, half_up.
  cbn [imageSize imageDev exactBounds rwidth rheight].
  rewrite Ew, Eh. done.
Qed.

Lemma downsample2x_stuck host mi :
  ~ aligns (rwidth (exactBounds (imageDev mi)))
  \/ ~ aligns (rheight (exactBounds (imageDev mi))) ->
  downsample2x host mi = mi.
Proof.
  intros H. apply alignRectBy2_overflow in H. unfold downsample2x.
  destruct H as [-> | ->]; [reflexivity|].
  by rewrite orb_true_r.
Qed.

(** While [downsample2x] leaves the image as it is and the loop condition
    holds, the pyramid loop does not leave. *)
Lemma pyramid_loop_stuck host radius source :
  downsample2x host source = source ->
  radius < rwidth (size source) -> radius < rheight (size source) ->
  countMasked source <> 0 ->
  forall fuel pyramid, pyramid_loop fuel host radius source pyramid = None.
Proof.
  intros Hd Hw Hh Hc fuel.
  induction fuel as [|fuel IH]; intros pyramid; cbn [pyramid_loop];
    destruct (Z.gtb_spec (rwidth (size source)) radius); try lia;
    destruct (Z.gtb_spec (rheight (size source)) radius); try lia;
    cbn [andb];
    (destruct (Z.eqb_spec (countMasked source) 0); [contradiction|]).
  - reflexivity.
  - rewrite Hd. apply IH.
Qed.

Lemma pyramid_loop_exits host radius (n : nat) :
  1 <= radius ->
  forall source pyramid fuel,
    fresh source ->
    rwidth (size source) < 2147483647 -> rheight (size source) < 2147483647 ->
    rwidth (size source) <= Z.of_nat n -> (n <= fuel)%nat ->
    exists source' pyramid',
      pyramid_loop fuel host radius source pyramid = Some (source', pyramid')
      /\ loop_exit radius source' /\ fresh source'.
Proof.
  intros Hr. induction n as [|n IH];
    intros source pyramid fuel Hf Bw Bh Hw Hfuel.
  - exists source, pyramid. unfold loop_exit.
    destruct fuel; cbn [pyramid_loop];
      destruct (Z.gtb_spec (rwidth (size source)) radius); try lia;
      (split; [reflexivity | split; [lia | exact Hf]]).
  - destruct fuel as [|fuel]; [lia|]. cbn [pyramid_loop].
    destruct (Z.gtb_spec (rwidth (size source)) radius) as [Hgw|Hgw];
      [|exists source, pyramid;
        split; [reflexivity | split; [left; lia | exact Hf]]].
    destruct (Z.gtb_spec (rheight (size source)) radius) as [Hgh|Hgh];
      [|exists source, pyramid;
        split; [reflexivity | split; [right; left; lia | exact Hf]]].
    cbn [andb].
    destruct (Z.eqb_spec (countMasked source) 0) as [Hc|Hc];
      [exists source, pyramid;
       split; [reflexivity | split; [right; right; exact Hc | exact Hf]]|].
    destruct (downsample2x_size host source Hf) as (Hf' & Hw' & Hh');
      [lia | lia | unfold aligns; lia | unfold aligns; lia |].
    destruct (half_up_bounds (rwidth (size source))) as [_ Hlt]; [lia|].
    destruct (half_up_bounds (rheight (size source))) as [_ Hlt']; [lia|].
    apply IH; [exact Hf' | lia | lia | lia | lia].
Qed.

(** *** [upscale] and the size of the result of [patch] *)

Lemma size_cacheEverything img msk : size (cacheEverything img msk) = exactBounds img.
Proof. reflexivity. Qed.

(** When the transform worker multiplies the bounds by its factors, the
    width after [upscale] is the old width times the integer quotient. *)
Lemma upscale_width host mi xsize ysize :
  (forall d sx sy,
      rwidth (exactBounds (transformWorker host d sx sy))
      = rwidth (exactBounds d) * sx) ->
  fresh mi ->
  rwidth (size (upscale host mi xsize ysize))
  = rwidth (size mi) * Z.quot xsize (rwidth (size mi)).
Proof.
  intros Hw Hf. unfold upscale. rewrite size_cacheEverything, Hw.
  unfold size. by rewrite Hf.
Qed.

(** With factors that are both 1 the result keeps the bounds it had. *)
Lemma upscale_unit host mi xsize ysize :
  unit_scale_keeps_bounds host ->
  Z.quot xsize (rwidth (size mi)) = 1 -> Z.quot ysize (rheight (size mi)) = 1 ->
  size (upscale host mi xsize ysize) = exactBounds (imageDev mi).
Proof.
  intros Hu Hx Hy. unfold upscale. rewrite size_cacheEverything, Hx, Hy.
  by rewrite Hu.
Qed.

Lemma size_maximize host nnf hist wsum target x y :
  size (maximize host nnf hist wsum target x y) = size target.
Proof.
  unfold maximize.
  generalize (getImagePixels host target x y) as vals. generalize 0 as c.
  generalize (seq 0 (length (channels nnf))) as l. intros l. revert target.
  induction l as [|chan l IH]; intros target c vals; [reflexivity|].
  cbn [fold_left]. destruct (negb _); rewrite IH; reflexivity.
Qed.

Lemma size_EM_Step host radius source target nnf upscaled :
  size (EM_Step host radius source target nnf upscaled).1 = size target.
Proof.
  unfold EM_Step.
  generalize (scanline (rwidth (size target)) (rheight (size target))) as l.
  intros l. revert target nnf.
  induction l as [|[x y] l IH]; intros target nnf; [reflexivity|].
  cbn [fold_left]. destruct (estimate _ _ _ _ _ _) as [hist wsum].
  destruct (Qltb wsum 1); rewrite IH; [reflexivity | apply size_maximize].
Qed.

Lemma post_foldRand_last {A B} (f : A -> B -> Rand A) (I : A -> Prop)
    (l : list B) (b : B) :
  (forall a, Rand_post (f a b) I) ->
  forall a, Rand_post (foldRand f (l ++ [b]) a) I.
Proof.
  intros Hf. induction l as [|c l IH]; intros a; cbn [app foldRand].
  - apply (post_bind _ _ I); [apply Hf | intros a' Ha'; by apply post_ret].
  - apply (post_bind _ _ (fun _ => True)); [done | intros a' _; apply IH].
Qed.

(** The surface returned by [ExpectationMaximization] has the size of the
    target upscaled in the last round. *)
Lemma ExpectationMaximization_size host radius pyramid level nnf :
  1 <= level ->
  Rand_post (ExpectationMaximization host radius pyramid level nnf)
    (fun r => exists t,
       r.2 = Some t
       /\ size t = size (upscale host (input nnf)
                           (rwidth (size (pyramid !!! Z.to_nat (level - 1))))
                           (rheight (size (pyramid !!! Z.to_nat (level - 1)))))).
Proof.
  intros Hl. unfold ExpectationMaximization.
  set (iterEM := Z.min (2 * level) 4).
  assert (Hi : 1 <= iterEM) by (unfold iterEM; lia).
  assert (seqZ 1 iterEM = seqZ 1 (iterEM - 1) ++ [iterEM]) as ->.
  { replace iterEM with (iterEM - 1 + 1) at 1 by lia.
    rewrite seqZ_app by lia. f_equal.
    rewrite seqZ_cons by lia. rewrite seqZ_nil by lia. f_equal. lia. }
  apply post_foldRand_last. intros [n t] g. unfold EM_round, bind.
  destruct (minimize _ _ g) as [n' g'].
  destruct (Z.geb_spec level 1) as [_|]; [|lia].
  rewrite Z.eqb_refl. cbn [andb].
  destruct (EM_Step _ _ _ _ _ _) as [t' n''] eqn:E.
  exists t'. split; [reflexivity|].
  pose proof (size_EM_Step host radius (pyramid !!! Z.to_nat (level - 1))
    (upscale host (input nnf)
       (rwidth (size (pyramid !!! Z.to_nat (level - 1))))
       (rheight (size (pyramid !!! Z.to_nat (level - 1)))))
    n' true) as Hs.
  rewrite E in Hs. exact Hs.
Qed.

Lemma field_set_frame n0 nnf x y p :
  same_frame n0 nnf -> same_frame n0 (field_set nnf x y p).
Proof. intros []. by split. Qed.

Lemma retry_frame n0 n nnf x y :
  same_frame n0 nnf -> Rand_post (retry n nnf x y) (same_frame n0).
Proof.
  revert nnf. induction n as [|n IH]; intros nnf Hf; cbn [retry].
  - by apply post_ret.
  - destruct (_ =? _); [|by apply post_ret].
    apply (post_bind _ _ (fun _ => True)); [done|]. intros r1 _.
    apply (post_bind _ _ (fun _ => True)); [done|]. intros r2 _.
    by apply IH, field_set_frame.
Qed.

Lemma initialize_frame n0 nnf :
  same_frame n0 nnf -> Rand_post (initialize nnf) (same_frame n0).
Proof.
  intros Hf. unfold initialize.
  apply (post_foldRand _ _ (fun _ => True)); [by apply Forall_true | | exact Hf].
  intros a [x y] Ha _. by apply retry_frame, field_set_frame.
Qed.

Lemma randomize_frame n0 : Rand_post (randomize n0) (same_frame n0).
Proof.
  unfold randomize.
  apply (post_bind _ _ (same_frame n0)); [|intros a Ha; by apply initialize_frame].
  apply (post_foldRand _ _ (fun _ => True));
    [by apply Forall_true | | by split].
  intros a [x y] Ha _.
  apply (post_bind _ _ (fun _ => True)); [done|]. intros r1 _.
  apply (post_bind _ _ (fun _ => True)); [done|]. intros r2 _.
  by apply post_ret, field_set_frame.
Qed.

(** The pyramid of the 3x3 image for radius 2, for any host. *)
Lemma pyramid_square3 host :
  pyramid_loop 8 host 2 (clone square3) [square3]
  = Some (downsample2x host (clone square3),
          [square3; clone (downsample2x host (clone square3))]).
Proof. reflexivity. Qed.

Lemma patch_square3 host :
  unit_scale_keeps_bounds host ->
  Rand_post (patch 8 host image3 mask3 2)
            (fun r => option_map size r = Some (mkRect 0 0 2 2)).
Proof.
  intros Hu. unfold patch. change (MaskedImage_new image3 mask3) with square3.
  rewrite (pyramid_square3 host). cbv zeta.
  set (S1 := downsample2x host (clone square3)).
  set (target := clearMask (clone S1)).
  change (reverse (seqZ 1 (Z.of_nat (length [square3; clone S1]) - 1)))
    with [1].
  cbn [foldRand].
  set (post := fun r : option (MaskedImage * option NearestNeighborField) =>
                 option_map size (option_map fst r)
                 = Some (mkRect 0 0 2 2)).
  apply (post_bind _ _ post); [|intros r Hr; by apply post_ret].
  apply (post_bind _ _ post); [|intros r Hr; by apply post_ret].
  unfold patch_level.
  change (1 =? Z.of_nat (length [square3; clone S1]) - 1) with true.
  cbv iota.
  set (fresh0 := NearestNeighborField_new host target
                   ([square3; clone S1] !!! Z.to_nat 1) 2).
  apply (post_bind _ _ (fun o => exists n, o = Some n /\ same_frame fresh0 n)).
  - apply (post_bind _ _ (same_frame fresh0)); [apply randomize_frame|].
    intros n Hn. apply post_ret. by exists n.
  - intros o (n & -> & Hn).
    apply (post_bind _ _ _ _
             (ExpectationMaximization_size host 2 [square3; clone S1] 1 n
                ltac:(lia))).
    intros [n' o'] (t & Ht & Hs). cbn [snd] in Ht. subst o'.
    apply post_ret. unfold post. cbn [option_map fst]. f_equal.
    rewrite Hs. destruct Hn as [_ Hin _ _]. rewrite Hin.
    change (input fresh0) with target.
    change ([square3; clone S1] !!! Z.to_nat (1 - 1)) with square3.
    rewrite upscale_unit; [reflexivity | exact Hu | reflexivity | reflexivity].
Qed.

Lemma demo_host_unit_scale : unit_scale_keeps_bounds demo_host.
Proof.
  intros [[x y w h] c a p]. cbn. by rewrite !Z.mul_1_r.
Qed.

(** C5 at the 3x3 image and the requested size 5x5, for every host whose
    transform worker keeps the bounds at factor 1: both factors are the
    integer quotient [5 / 3 = 1], and the result is 3x3. *)
Theorem upscale_misses_requested_size (host : Host) :
  unit_scale_keeps_bounds host ->
  size square3 = mkRect 0 0 3 3
  /\ Z.quot 5 (rwidth (size square3)) = 1
  /\ size (upscale host square3 5 5) = mkRect 0 0 3 3.
Proof.
  intros Hu. split; [reflexivity|]. split; [reflexivity|].
  rewrite upscale_unit; [reflexivity | exact Hu | reflexivity | reflexivity].
Qed.

Lemma upscale_misses_requested_size_witness :
  unit_scale_keeps_bounds demo_host
  /\ (size square3 = mkRect 0 0 3 3
      /\ Z.quot 5 (rwidth (size square3)) = 1
      /\ size (upscale demo_host square3 5 5) = mkRect 0 0 3 3).
Proof.
  split; [exact demo_host_unit_scale|].
  exact (upscale_misses_requested_size demo_host demo_host_unit_scale).
Defined.

(** C3 at the 3x3 image with a hole in the middle and radius 2, for every
    such host and every generator state: the pyramid has the sizes 3x3 and
    2x2, the only [upscale] asks for 3x3 from the 2x2 target and gets the
    factors [3 / 2 = 1], and the surface returned by [patch] is 2x2, not
    3x3. *)
Theorem patch_misses_input_size (host : Host) (g : mt19937) :
  unit_scale_keeps_bounds host ->
  exactBounds image3 = mkRect 0 0 3 3
  /\ option_map size (patch 8 host image3 mask3 2 g).1
     = Some (mkRect 0 0 2 2).
Proof.
  intros Hu. split; [reflexivity|]. by apply patch_square3.
Qed.

Lemma patch_misses_input_size_witness :
  unit_scale_keeps_bounds demo_host
  /\ (exactBounds image3 = mkRect 0 0 3 3
      /\ option_map size (patch 8 demo_host image3 mask3 2 (const_gen 0)).1
         = Some (mkRect 0 0 2 2)).
Proof.
  split; [exact demo_host_unit_scale|].
  exact (patch_misses_input_size demo_host (const_gen 0) demo_host_unit_scale).
Defined.

(** *** The result is a function of the inputs and of the draws *)















(** *** The histogram of [int]s *)

(** A weight below one vanishes when it is added to an empty [int] cell. *)
Lemma hist_add_zero (w : Q) : (0 <= w)%Q -> (w < 1)%Q -> hist_add 0 w = 0.
Proof.
  intros H0 H1. unfold hist_add, Qtrunc.
  assert (E : (inject_Z 0 + w == w)%Q) by ring.
  rewrite (Qleb_comp 0%Q 0%Q (Qeq_refl 0%Q) _ _ E).
  rewrite (Qfloor_comp _ _ E).
  apply Qle_bool_iff in H0 as Hb. rewrite Hb.
  pose proof (Qfloor_resp_le _ _ H0) as Hlo.
  change (Qfloor 0%Q) with 0 in Hlo.
  pose proof (Qfloor_le w) as Hhi.
  assert (Hlt : (inject_Z (Qfloor w) < inject_Z 1)%Q)
    by (eapply Qle_lt_trans; [exact Hhi | exact H1]).
  rewrite <- Zlt_Qlt in Hlt. lia.
Qed.

Lemma all_zero_lookup hist (i : nat) :
  all_zero hist -> (i < length hist)%nat -> hist !!! i = 0.
Proof.
  intros Hz Hi. symmetry.
  apply (Forall_lookup_total_1 (eq 0) hist i Hz Hi).
Qed.

Lemma all_zero_vote hist (i : nat) (w : Q) :
  (0 <= w)%Q -> (w < 1)%Q -> all_zero hist ->
  <[i := hist_add (hist !!! i) w]> hist = hist.
Proof.
  intros H0 H1 Hz.
  destruct (decide (i < length hist)%nat) as [Hi|Hi].
  - rewrite (all_zero_lookup _ _ Hz Hi), hist_add_zero by done.
    apply list_insert_id. apply list_lookup_lookup_total_lt in Hi as Hl.
    by rewrite Hl, (all_zero_lookup _ _ Hz Hi).
  - apply list_insert_ge. lia.
Qed.

Lemma vote_channels_zero source nnf x y (w : Q) hist :
  (0 <= w)%Q -> (w < 1)%Q -> all_zero hist ->
  vote_channels source nnf x y w hist = hist.
Proof.
  intros H0 H1 Hz. unfold vote_channels.
  generalize (seqZ 0 (channelCount (imageDev (input nnf)))) as l.
  intros l. generalize 0 as c.
  induction l as [|chan l IH]; intros c; [reflexivity|].
  cbn [fold_left]. destruct (negb _); [|apply IH].
  rewrite all_zero_vote by done. apply IH.
Qed.

Section Votes.
Variables (source : MaskedImage) (nnf : NearestNeighborField).
Variables (upscaled : bool) (x y : Z).
Hypothesis Hsim : forall d, (0 <= similarity nnf d)%Q /\ (similarity nnf d < 1)%Q.

Lemma vote_body_zero dy dx hist wsum :
  all_zero hist ->
  (vote_body source nnf upscaled x y dy dx (hist, wsum)).1 = hist.
Proof.
  intros Hz. unfold vote_body.
  destruct (negb upscaled).
  - repeat (destruct (_ || _); [reflexivity|]).
    destruct (isMasked _ _ _); [reflexivity|]. cbn [fst].
    apply vote_channels_zero; [apply Hsim.. | done].
  - repeat (destruct (_ || _); [reflexivity|]).
    destruct (isMasked _ _ _); [reflexivity|]. cbn [fst].
    apply vote_channels_zero; [apply Hsim.. | done].
Qed.

Lemma vote_row_zero dy (l : list Z) hist wsum :
  all_zero hist ->
  (fold_left (fun acc dx => vote_body source nnf upscaled x y dy dx acc)
             l (hist, wsum)).1 = hist.
Proof.
  intros Hz. revert wsum. induction l as [|dx l IH]; intros wsum;
    [reflexivity|].
  cbn [fold_left].
  pose proof (vote_body_zero dy dx hist wsum Hz) as E.
  destruct (vote_body _ _ _ _ _ _ _ _) as [h' w']. cbn in E. subst h'.
  apply IH.
Qed.

Lemma estimate_zero R :
  (estimate source nnf upscaled R x y).1
  = replicate (length (histogram nnf)) 0.
Proof.
  unfold estimate.
  assert (Hz : all_zero (replicate (length (histogram nnf)) 0))
    by (apply Forall_replicate; reflexivity).
  revert Hz. generalize (replicate (length (histogram nnf)) 0) as hist.
  generalize 0%Q as wsum. generalize (offsets R) at 2 as rows.
  intros rows. induction rows as [|dy rows IH]; intros wsum hist Hz;
    [reflexivity|].
  cbn [fold_left].
  pose proof (vote_row_zero dy (offsets R) hist wsum Hz) as E.
  destruct (fold_left _ (offsets R) _) as [h' w']. cbn in E. subst h'.
  by apply IH.
Qed.
End Votes.

(** With every bin empty the running [cdf] never reaches a positive low
    threshold, so nothing is accumulated. *)
Lemma cdf_walk_empty (bins : list (Z * Z)) (lowth highth cdf contrib wcontrib : Q) :
  Forall (fun b => b.2 = 0) bins -> (cdf < lowth)%Q ->
  cdf_walk bins lowth highth cdf contrib wcontrib = (contrib, wcontrib).
Proof.
  intros Hb. revert cdf. induction Hb as [|[i h] bins Hh Hb IH]; intros cdf Hc;
    [reflexivity|].
  cbn in Hh. subst h. cbn [cdf_walk].
  assert (Hc' : (cdf + inject_Z 0 < lowth)%Q).
  { assert (E : (cdf + inject_Z 0 == cdf)%Q) by ring. by rewrite E. }
  unfold Qltb at 1.
  destruct (Qle_bool lowth (cdf + inject_Z 0)) eqn:E.
  - apply Qle_bool_iff in E. exfalso. by apply (Qlt_not_le _ _ Hc').
  - cbn [negb]. by apply IH.
Qed.

Lemma bins_of_zero n (colorChan : Z) :
  0 <= colorChan -> (colorChan + 1) * 256 <= Z.of_nat n ->
  Forall (fun b => b.2 = 0) (bins_of (replicate n 0) colorChan).
Proof.
  intros Hc Hn. unfold bins_of. apply Forall_map, Forall_forall.
  intros i Hi%elem_of_seqZ. cbn.
  apply lookup_total_replicate_2. unfold hidx. lia.
Qed.

Lemma channel_value_empty n (wsum : Q) (colorChan : Z) :
  0 <= colorChan -> (colorChan + 1) * 256 <= Z.of_nat n ->
  (1 <= wsum)%Q ->
  channel_value (replicate n 0) wsum colorChan = None.
Proof.
  intros Hc Hn Hw. unfold channel_value, walk_channel.
  rewrite cdf_walk_empty; [reflexivity | by apply bins_of_zero |].
  apply (Qlt_le_trans _ ((2 # 5) * 1)); [reflexivity|].
  apply Qmult_le_l; [reflexivity | exact Hw].
Qed.

(** C1 fails on the code.  The histogram cells are [int]s, and every weight
    of the similarity curve is below one, so each vote is truncated away:
    for every target pixel whose sweep yields [wsum >= 1] and every colour
    channel, the walk ends with [wcontrib = 0] and the channel value is the
    result of a division by zero. *)
Theorem EM_Step_divides_by_zero (source : MaskedImage)
    (nnf : NearestNeighborField) (upscaled : bool) (R x y colorChan : Z) :
  (forall d, (0 <= similarity nnf d)%Q /\ (similarity nnf d < 1)%Q) ->
  0 <= colorChan ->
  (colorChan + 1) * 256 <= Z.of_nat (length (histogram nnf)) ->
  (1 <= (estimate source nnf upscaled R x y).2)%Q ->
  walk_channel (estimate source nnf upscaled R x y).1
               (estimate source nnf upscaled R x y).2 colorChan = (0%Q, 0%Q)
  /\ channel_value (estimate source nnf upscaled R x y).1
                   (estimate source nnf upscaled R x y).2 colorChan = None.
Proof.
  intros Hsim Hc Hn Hw.
  rewrite (estimate_zero source nnf upscaled x y Hsim R).
  pose proof (channel_value_empty (length (histogram nnf)) _ colorChan
                Hc Hn Hw) as Hv.
  split; [|exact Hv].
  unfold walk_channel.
  apply cdf_walk_empty; [by apply bins_of_zero|].
  apply (Qlt_le_trans _ ((2 # 5) * 1)); [reflexivity|].
  apply Qmult_le_l; [reflexivity | exact Hw].
Qed.

Lemma demo_similarity_range d :
  (0 <= demo_similarity d)%Q /\ (demo_similarity d < 1)%Q.
Proof.
  unfold demo_similarity.
  destruct (Z.leb_spec d 0); [unfold Qle, Qlt; cbn [Qnum Qden]; lia|].
  destruct (Z.ltb_spec d 3277); [unfold Qle, Qlt; cbn [Qnum Qden]; lia|].
  destruct (Z.ltb_spec d 6554); [unfold Qle, Qlt; cbn [Qnum Qden]; lia|].
  destruct (Z.ltb_spec d 9831); [unfold Qle, Qlt; cbn [Qnum Qden]; lia|].
  destruct (Z.ltb_spec d 13108); [unfold Qle, Qlt; cbn [Qnum Qden]; lia|].
  split; vm_compute; [discriminate | reflexivity].
Qed.

Lemma EM_Step_divides_by_zero_witness :
  ((forall d, (0 <= similarity flat_nnf d)%Q /\ (similarity flat_nnf d < 1)%Q)
   /\ 0 <= 0
   /\ (0 + 1) * 256 <= Z.of_nat (length (histogram flat_nnf))
   /\ (1 <= (estimate flat flat_nnf false 1 1 1).2)%Q)
  /\ (walk_channel (estimate flat flat_nnf false 1 1 1).1
                   (estimate flat flat_nnf false 1 1 1).2 0 = (0%Q, 0%Q)
      /\ channel_value (estimate flat flat_nnf false 1 1 1).1
                       (estimate flat flat_nnf false 1 1 1).2 0 = None).
Proof.
  assert (H1 : forall d, (0 <= similarity flat_nnf d)%Q
                         /\ (similarity flat_nnf d < 1)%Q)
    by exact demo_similarity_range.
  assert (H2 : 0 <= 0) by lia.
  assert (H3 : (0 + 1) * 256 <= Z.of_nat (length (histogram flat_nnf)))
    by (vm_compute; discriminate).
  assert (H4 : (1 <= (estimate flat flat_nnf false 1 1 1).2)%Q)
    by (vm_compute; discriminate).
  split; [tauto|].
  exact (EM_Step_divides_by_zero flat flat_nnf false 1 1 1 0 H1 H2 H3 H4).
Defined.

(** On the constant 4x3 image matched by the identity, the two patches
    around [(1,1)] and [(2,1)] have distance 0 and vote with the largest
    weight; the histogram stays empty and [EM_Step] overwrites the pixel
    [(1,1)], whose value was 100. *)
Example EM_Step_flat_image :
  nn_distance (field_at flat_nnf 1 1) = 0
  /\ nn_distance (field_at flat_nnf 2 1) = 0
  /\ (estimate flat flat_nnf false 1 1 1).1 = replicate 256 0
  /\ pixelAt (imageDev flat) 1 1 = [byte_of_Z 100]
  /\ pixelAt (imageDev (EM_Step demo_host 1 flat (clone flat) flat_nnf false).1)
             1 1 = [Byte.x00].
Proof. vm_compute. repeat split. Qed.

(** ** Further properties of the code *)

(** *** [alignRectBy2] *)

Lemma add_isOdd_even w : (w + isOdd w) mod 2 = 0.
Proof.
  rewrite isOdd_mod.
  rewrite (Z.div_mod w 2) at 1 by lia.
  replace (2 * (w / 2) + w mod 2 + w mod 2) with ((w / 2 + w mod 2) * 2) by lia.
  apply Z.mod_mul. lia.
Qed.

Lemma sub_isOdd_even x : (x - isOdd x) mod 2 = 0.
Proof. rewrite <- isOdd_mod. apply isOdd_aligned. Qed.

(** X1.  For sides below the largest [qint32], the rectangle returned by
    [alignRectBy2] has an even origin and even sides; the origin moves by
    at most one towards the negative side and each side grows by at most
    one. *)
Theorem alignRectBy2_even (r : QRect) :
  rwidth r < 2147483647 -> rheight r < 2147483647 ->
  rx (alignRectBy2 r) mod 2 = 0 /\ ry (alignRectBy2 r) mod 2 = 0
  /\ rwidth (alignRectBy2 r) mod 2 = 0 /\ rheight (alignRectBy2 r) mod 2 = 0
  /\ rx r - 1 <= rx (alignRectBy2 r) <= rx r
  /\ ry r - 1 <= ry (alignRectBy2 r) <= ry r
  /\ rwidth r <= rwidth (alignRectBy2 r) <= rwidth r + 1
  /\ rheight r <= rheight (alignRectBy2 r) <= rheight r + 1.
Proof.
  intros Bw Bh.
  destruct (alignRectBy2_size r) as [Ew Eh]; [unfold aligns; lia..|].
  rewrite Ew, Eh.
  unfold alignRectBy2. cbn [rx ry].
  pose proof (isOdd_range (rx r)). pose proof (isOdd_range (ry r)).
  pose proof (isOdd_range (rwidth r)). pose proof (isOdd_range (rheight r)).
  repeat split; try lia;
    first [apply sub_isOdd_even | apply add_isOdd_even].
Qed.

Lemma alignRectBy2_even_witness :
  (rwidth (mkRect 3 (-5) 7 2147483646) < 2147483647 /\ rheight (mkRect 3 (-5) 7 2147483646) < 2147483647)
  /\ rx (alignRectBy2 (mkRect 3 (-5) 7 2147483646)) mod 2 = 0 /\ ry (alignRectBy2 (mkRect 3 (-5) 7 2147483646)) mod 2 = 0
  /\ rwidth (alignRectBy2 (mkRect 3 (-5) 7 2147483646)) mod 2 = 0 /\ rheight (alignRectBy2 (mkRect 3 (-5) 7 2147483646)) mod 2 = 0
  /\ rx (mkRect 3 (-5) 7 2147483646) - 1 <= rx (alignRectBy2 (mkRect 3 (-5) 7 2147483646)) <= rx (mkRect 3 (-5) 7 2147483646)
  /\ ry (mkRect 3 (-5) 7 2147483646) - 1 <= ry (alignRectBy2 (mkRect 3 (-5) 7 2147483646)) <= ry (mkRect 3 (-5) 7 2147483646)
  /\ rwidth (mkRect 3 (-5) 7 2147483646) <= rwidth (alignRectBy2 (mkRect 3 (-5) 7 2147483646)) <= rwidth (mkRect 3 (-5) 7 2147483646) + 1
  /\ rheight (mkRect 3 (-5) 7 2147483646) <= rheight (alignRectBy2 (mkRect 3 (-5) 7 2147483646)) <= rheight (mkRect 3 (-5) 7 2147483646) + 1.
Proof.
  assert (H1 : rwidth (mkRect 3 (-5) 7 2147483646) < 2147483647) by (cbn; lia).
  assert (H2 : rheight (mkRect 3 (-5) 7 2147483646) < 2147483647) by (cbn; lia).
  split; [tauto|].
  exact (alignRectBy2_even (mkRect 3 (-5) 7 2147483646) H1 H2).
Defined.

(** X2.  The width is extended after the origin has been made even, so the
    oddness of the original origin is not added to it: for sides below the
    largest [qint32], the far edges of the aligned rectangle are those of
    the original moved back by the oddness of the origin and forward by the
    oddness of the side.  With an odd origin and an even side the last
    column (row) of the original is left out. *)
Theorem alignRectBy2_far_edges (r : QRect) :
  rwidth r < 2147483647 -> rheight r < 2147483647 ->
  rx (alignRectBy2 r) + rwidth (alignRectBy2 r)
  = rx r + rwidth r - isOdd (rx r) + isOdd (rwidth r)
  /\ ry (alignRectBy2 r) + rheight (alignRectBy2 r)
     = ry r + rheight r - isOdd (ry r) + isOdd (rheight r).
Proof.
  intros Bw Bh.
  destruct (alignRectBy2_size r) as [Ew Eh]; [unfold aligns; lia..|].
  rewrite Ew, Eh.
  unfold alignRectBy2. cbn [rx ry]. lia.
Qed.

Lemma alignRectBy2_far_edges_witness :
  (rwidth (mkRect 1 1 4 6) < 2147483647 /\ rheight (mkRect 1 1 4 6) < 2147483647)
  /\ rx (alignRectBy2 (mkRect 1 1 4 6)) + rwidth (alignRectBy2 (mkRect 1 1 4 6))
     = rx (mkRect 1 1 4 6) + rwidth (mkRect 1 1 4 6)
       - isOdd (rx (mkRect 1 1 4 6)) + isOdd (rwidth (mkRect 1 1 4 6))
  /\ ry (alignRectBy2 (mkRect 1 1 4 6)) + rheight (alignRectBy2 (mkRect 1 1 4 6))
     = ry (mkRect 1 1 4 6) + rheight (mkRect 1 1 4 6)
       - isOdd (ry (mkRect 1 1 4 6)) + isOdd (rheight (mkRect 1 1 4 6)).
Proof.
  assert (H1 : rwidth (mkRect 1 1 4 6) < 2147483647) by (cbn; lia).
  assert (H2 : rheight (mkRect 1 1 4 6) < 2147483647) by (cbn; lia).
  split; [tauto|].
  exact (alignRectBy2_far_edges (mkRect 1 1 4 6) H1 H2).
Defined.

(** *** The caches *)

Lemma length_bind_const {A} (g : Z -> list A) (m : nat) (l : list Z) :
  (forall x, length (g x) = m) -> length (l ≫= g) = (length l * m)%nat.
Proof.
  intros Hg. induction l as [|a l IH]; [reflexivity|].
  change ((a :: l) ≫= g) with (g a ++ (l ≫= g)).
  rewrite length_app, Hg, IH. cbn. lia.
Qed.

(** Row [x] of a list laid out row after row, all rows of length [m]. *)
Lemma lookup_bind_rows {A} (g : Z -> list A) (m : nat) (n : nat) (x j : nat) :
  (forall x, length (g x) = m) ->
  (x < n)%nat -> (j < m)%nat ->
  (seqZ 0 (Z.of_nat n) ≫= g) !! (x * m + j)%nat = g (Z.of_nat x) !! j.
Proof.
  intros Hg. revert x. induction n as [|n IH]; intros x Hx Hj; [lia|].
  rewrite Nat2Z.inj_succ, <- Z.add_1_r, seqZ_app by lia.
  rewrite bind_app.
  assert (Hlen : length (seqZ 0 (Z.of_nat n) ≫= g) = (n * m)%nat).
  { rewrite (length_bind_const g m) by done. by rewrite length_seqZ, Nat2Z.id. }
  destruct (decide (x < n)%nat) as [Hlt|Hge].
  - rewrite lookup_app_l by (rewrite Hlen; nia). by apply IH.
  - assert (x = n) as -> by lia.
    rewrite lookup_app_r by (rewrite Hlen; lia).
    rewrite Hlen. replace (n * m + j - n * m)%nat with j by lia.
    rewrite seqZ_cons by lia. rewrite seqZ_nil by lia.
    change ([0 + Z.of_nat n] ≫= g) with (g (0 + Z.of_nat n) ++ []).
    by rewrite app_nil_r, Z.add_0_l.
Qed.


Lemma lookup_cacheMask msk sz x y :
  0 <= x < rwidth sz -> 0 <= y < rheight sz ->
  cacheMask msk sz !! idx2 (rheight sz) x y
  = Some (u8 (pixelAt msk x y !!! 0%nat) <? 128).
Proof.
  intros Hx Hy. unfold cacheMask, idx2.
  replace (Z.to_nat (x * rheight sz + y))
    with (Z.to_nat x * Z.to_nat (rheight sz) + Z.to_nat y)%nat by nia.
  rewrite <- (Z2Nat.id (rwidth sz)) at 1 by lia.
  rewrite (lookup_bind_rows _ (Z.to_nat (rheight sz))); [| |lia..].
  2:{ intros x'. rewrite (length_bind_const _ 1%nat) by done.
      rewrite length_seqZ. lia. }
  rewrite Z2Nat.id by lia.
  replace (Z.to_nat y) with (Z.to_nat y * 1 + 0)%nat by lia.
  rewrite <- (Z2Nat.id (rheight sz)) at 1 by lia.
  rewrite (lookup_bind_rows _ 1%nat); [|done|lia..].
  by rewrite Z2Nat.id by lia.
Qed.

(** X3.  [isMasked] on a freshly cached image answers from the mask device
    read at the same coordinates, without the offset of the image bounds:
    pixel [(x, y)] of the grid is a hole exactly when the first byte of the
    mask at [(x, y)] is below 128. *)
Theorem isMasked_reads_mask_device (img msk : KisPaintDevice) (x y : Z) :
  0 <= x < rwidth (exactBounds img) -> 0 <= y < rheight (exactBounds img) ->
  isMasked (MaskedImage_new img msk) x y
  = (u8 (pixelAt msk x y !!! 0%nat) <? 128).
Proof.
  intros Hx Hy. unfold isMasked, MaskedImage_new, cacheEverything.
  cbn [maskCache imageSize].
  apply list_lookup_total_correct. by apply lookup_cacheMask.
Qed.

Lemma isMasked_reads_mask_device_witness :
  (0 <= 0 < rwidth (exactBounds image3) /\ 0 <= 1 < rheight (exactBounds image3))
  /\ isMasked (MaskedImage_new image3 mask3) 0 1
     = (u8 (pixelAt mask3 0 1 !!! 0%nat) <? 128).
Proof.
  assert (H1 : 0 <= 0 < rwidth (exactBounds image3)) by (cbn; lia).
  assert (H2 : 0 <= 1 < rheight (exactBounds image3)) by (cbn; lia).
  split; [tauto|].
  exact (isMasked_reads_mask_device image3 mask3 0 1 H1 H2).
Defined.

Lemma lookup_cacheImage img sz x y chan :
  0 <= x < rwidth sz -> 0 <= y < rheight sz -> 0 <= chan < channelCount img ->
  cacheImage img sz !! idx3 (rheight sz) (channelCount img) x y chan
  = Some (pixelAt img (rx sz + x) (ry sz + y) !!! Z.to_nat chan).
Proof.
  intros Hx Hy Hc. unfold cacheImage, idx3.
  set (h := rheight sz) in *. set (n := channelCount img) in *.
  assert (Hrow : forall x' y' : Z,
            length (seqZ 0 n ≫= fun chan' =>
                      [pixelAt img (rx sz + x') (ry sz + y') !!! Z.to_nat chan'])
            = Z.to_nat n).
  { intros x' y'. rewrite (length_bind_const _ 1%nat) by done.
    rewrite length_seqZ. lia. }
  assert (Hplane : forall x' : Z,
            length (seqZ 0 h ≫= fun y' =>
                      seqZ 0 n ≫= fun chan' =>
                        [pixelAt img (rx sz + x') (ry sz + y')
                           !!! Z.to_nat chan'])
            = (Z.to_nat h * Z.to_nat n)%nat).
  { intros x'. rewrite (length_bind_const _ (Z.to_nat n)) by (intros; apply Hrow).
    by rewrite length_seqZ. }
  replace (Z.to_nat ((x * h + y) * n + chan))
    with (Z.to_nat x * (Z.to_nat h * Z.to_nat n)
          + (Z.to_nat y * Z.to_nat n + Z.to_nat chan))%nat by nia.
  rewrite <- (Z2Nat.id (rwidth sz)) at 1 by lia.
  rewrite (lookup_bind_rows _ (Z.to_nat h * Z.to_nat n)); [|done|lia|nia].
  rewrite Z2Nat.id by lia.
  rewrite <- (Z2Nat.id h) at 1 by lia.
  rewrite (lookup_bind_rows _ (Z.to_nat n)); [|intros; apply Hrow|lia..].
  rewrite Z2Nat.id by lia.
  replace (Z.to_nat chan) with (Z.to_nat chan * 1 + 0)%nat at 1 by lia.
  rewrite <- (Z2Nat.id n) at 1 by lia.
  rewrite (lookup_bind_rows _ 1%nat); [|done|lia..].
  by rewrite Z2Nat.id by lia.
Qed.

(** X4.  [getImagePixelU8] on a freshly cached image answers from the
    image device read at the coordinates shifted by the origin of its exact
    bounds. *)
Theorem getImagePixelU8_reads_image_device (img msk : KisPaintDevice)
    (x y chan : Z) :
  0 <= x < rwidth (exactBounds img) -> 0 <= y < rheight (exactBounds img) ->
  0 <= chan < channelCount img ->
  getImagePixelU8 (MaskedImage_new img msk) x y chan
  = pixelAt img (rx (exactBounds img) + x) (ry (exactBounds img) + y)
      !!! Z.to_nat chan.
Proof.
  intros Hx Hy Hc. unfold getImagePixelU8, MaskedImage_new, cacheEverything.
  cbn [imageCache imageSize imageDev].
  apply list_lookup_total_correct. by apply lookup_cacheImage.
Qed.

Lemma getImagePixelU8_reads_image_device_witness :
  (0 <= 2 < rwidth (exactBounds image3) /\ 0 <= 1 < rheight (exactBounds image3)
   /\ 0 <= 0 < channelCount image3)
  /\ getImagePixelU8 (MaskedImage_new image3 mask3) 2 1 0
     = pixelAt image3 (rx (exactBounds image3) + 2)
                      (ry (exactBounds image3) + 1) !!! Z.to_nat 0.
Proof.
  assert (H1 : 0 <= 2 < rwidth (exactBounds image3)) by (cbn; lia).
  assert (H2 : 0 <= 1 < rheight (exactBounds image3)) by (cbn; lia).
  assert (H3 : 0 <= 0 < channelCount image3) by (cbn; lia).
  split; [tauto|].
  exact (getImagePixelU8_reads_image_device image3 mask3 2 1 0 H1 H2 H3).
Defined.

(** *** [countMasked] *)


(** *** The pyramid loop at the largest width *)

Lemma countMasked_hole img msk x y :
  0 <= x < rwidth (exactBounds img) -> 0 <= y < rheight (exactBounds img) ->
  u8 (pixelAt msk x y !!! 0%nat) < 128 ->
  countMasked (MaskedImage_new img msk) <> 0.
Proof.
  intros Hx Hy Hm. unfold countMasked, MaskedImage_new, cacheEverything.
  cbn [maskCache].
  pose proof (lookup_cacheMask msk (exactBounds img) x y Hx Hy) as Hl.
  destruct (Z.ltb_spec (u8 (pixelAt msk x y !!! 0%nat)) 128); [|lia].
  intros Hz.
  assert (Hnil : filter (fun b : bool => b = true)
                        (cacheMask msk (exactBounds img)) = [])
    by (apply nil_length_inv; lia).
  apply (filter_nil_not_elem_of _ _ true Hnil); [reflexivity|].
  apply list_elem_of_lookup. eauto.
Qed.

(** C10 at the widest image.  With a radius of 1, an image 2147483647
    columns wide and two rows high with one masked pixel keeps the loop
    condition true; [alignRectBy2] overflows its width to -2147483648, so
    [downsample2x] takes its early return and shrinks nothing; and the
    pyramid loop of [patch] does not leave, however many rounds it is
    given. *)
Theorem pyramid_loop_stuck_at_widest (host : Host) (fuel : nat) :
  1 < rwidth (size (MaskedImage_new widest widest_mask))
  /\ 1 < rheight (size (MaskedImage_new widest widest_mask))
  /\ countMasked (MaskedImage_new widest widest_mask) <> 0
  /\ rwidth (alignRectBy2 (exactBounds widest)) = -2147483648
  /\ downsample2x host (MaskedImage_new widest widest_mask)
     = MaskedImage_new widest widest_mask
  /\ pyramid_loop fuel host 1 (clone (MaskedImage_new widest widest_mask))
                  [MaskedImage_new widest widest_mask]
     = None.
Proof.
  set (mi := MaskedImage_new widest widest_mask).
  assert (Hw : rwidth (size mi) = 2147483647) by reflexivity.
  assert (Hh : rheight (size mi) = 2) by reflexivity.
  assert (Hc : countMasked mi <> 0).
  { apply (countMasked_hole widest widest_mask 0 0).
    - change (rwidth (exactBounds widest)) with 2147483647. lia.
    - change (rheight (exactBounds widest)) with 2. lia.
    - change (u8 (pixelAt widest_mask 0 0 !!! 0%nat)) with 0. lia. }
  assert (Hd : downsample2x host mi = mi).
  { apply downsample2x_stuck. left. intros [H _]. apply H. reflexivity. }
  split; [lia|]. split; [lia|]. split; [exact Hc|].
  split; [reflexivity|]. split; [exact Hd|].
  change (clone mi) with mi.
  apply pyramid_loop_stuck; [exact Hd | lia | lia | exact Hc].
Qed.

(** *** [downsample2x] *)

Lemma aligned_side_empty w :
  w <= 0 ->
  (if (w =? 2147483647) || (w =? 2147483648) then -2147483648
   else w + isOdd w) < 1.
Proof.
  intros Hw. pose proof (isOdd_range w).
  destruct ((w =? 2147483647) || (w =? 2147483648)); [lia|].
  destruct (decide (w = 0)) as [->|E]; [reflexivity | lia].
Qed.

(** X6.  [downsample2x] returns the image as it is when its exact bounds
    have no width or no height. *)
Theorem downsample2x_empty (host : Host) (mi : MaskedImage) :
  rwidth (exactBounds (imageDev mi)) <= 0
  \/ rheight (exactBounds (imageDev mi)) <= 0 ->
  downsample2x host mi = mi.
Proof.
  intros H. unfold downsample2x.
  destruct (alignRectBy2_sides (exactBounds (imageDev mi))) as [-> ->].
  destruct H as [H|H]; apply aligned_side_empty in H.
  - destruct (Z.ltb_spec
                (if (rwidth (exactBounds (imageDev mi)) =? 2147483647)
                    || (rwidth (exactBounds (imageDev mi)) =? 2147483648)
                 then -2147483648
                 else rwidth (exactBounds (imageDev mi))
                      + isOdd (rwidth (exactBounds (imageDev mi)))) 1);
      [reflexivity | lia].
  - destruct (Z.ltb_spec
                (if (rheight (exactBounds (imageDev mi)) =? 2147483647)
                    || (rheight (exactBounds (imageDev mi)) =? 2147483648)
                 then -2147483648
                 else rheight (exactBounds (imageDev mi))
                      + isOdd (rheight (exactBounds (imageDev mi)))) 1);
      [by rewrite orb_true_r | lia].
Qed.

Lemma downsample2x_empty_witness :
  (rwidth (exactBounds (imageDev (MaskedImage_new (gray 0 3 []) (gray 0 3 []))))
     <= 0
   \/ rheight (exactBounds (imageDev (MaskedImage_new (gray 0 3 [])
                                                      (gray 0 3 [])))) <= 0)
  /\ downsample2x demo_host (MaskedImage_new (gray 0 3 []) (gray 0 3 []))
     = MaskedImage_new (gray 0 3 []) (gray 0 3 []).
Proof.
  assert (H : rwidth (exactBounds (imageDev (MaskedImage_new (gray 0 3 [])
                                                             (gray 0 3 []))))
              <= 0
              \/ rheight (exactBounds (imageDev (MaskedImage_new (gray 0 3 [])
                                                                 (gray 0 3 []))))
                 <= 0)
    by (left; cbn; lia).
  split; [exact H|].
  exact (downsample2x_empty demo_host _ H).
Defined.

Lemma half_up_double w : 0 <= w -> w <= 2 * half_up w <= w + 1.
Proof.
  intros Hw. unfold half_up. rewrite isOdd_mod.
  pose proof (Z.mod_pos_bound w 2 ltac:(lia)) as Hm.
  rewrite Z.quot_div_nonneg by lia.
  pose proof (Z.div_mod w 2 ltac:(lia)) as Hd.
  assert (Hq : (w + w mod 2) / 2 = w / 2 + w mod 2).
  { replace (w + w mod 2) with ((w / 2 + w mod 2) * 2) by lia.
    apply Z.div_mul. lia. }
  rewrite Hq. lia.
Qed.

Lemma downsample2x_same_layout host mi :
  fresh mi -> 1 <= rwidth (size mi) -> 1 <= rheight (size mi) ->
  aligns (rwidth (size mi)) -> aligns (rheight (size mi)) ->
  2 * rx (size (downsample2x host mi)) = rx (size mi) - isOdd (rx (size mi))
  /\ 2 * ry (size (downsample2x host mi)) = ry (size mi) - isOdd (ry (size mi))
  /\ same_layout mi (downsample2x host mi)
  /\ channelCount (maskDev (downsample2x host mi)) = channelCount (maskDev mi).
Proof.
  intros Hf Hw Hh Aw Ah.
  unfold fresh, size in *. rewrite Hf in Hw, Hh, Aw, Ah |- *.
  unfold downsample2x, same_layout.
  destruct (alignRectBy2_size (exactBounds (imageDev mi)) Aw Ah) as [Ew Eh].
  pose proof (isOdd_range (rwidth (exactBounds (imageDev mi)))).
  pose proof (isOdd_range (rheight (exactBounds (imageDev mi)))).
  destruct (Z.ltb_spec (rwidth (alignRectBy2 (exactBounds (imageDev mi)))) 1);
    [lia|].
  destruct (Z.ltb_spec (rheight (alignRectBy2 (exactBounds (imageDev mi)))) 1);
    [lia|].
  cbn [orb]. unfold cacheEverything, downsampleDevice, alignRectBy2.
  cbn [imageSize imageDev maskDev exactBounds channelCount channelIsAlpha
       rx ry rwidth rheight].
  assert (Hhalf : forall x, 2 * Z.quot (x - isOdd x) 2 = x - isOdd x).
  { intros x. pose proof (sub_isOdd_even x) as He.
    apply Z.mod_divide in He; [|lia]. destruct He as [k Hk]. rewrite Hk.
    rewrite Z.quot_mul by lia. lia. }
  rewrite !Hhalf. done.
Qed.

(** X7.  On an image with at least one row and one column and sides below
    the largest [qint32], [downsample2x] returns a freshly cached image
    whose sides are the old ones halved and rounded up, whose origin is the
    aligned origin halved, and whose two devices keep their channel
    layout. *)
Theorem downsample2x_layout (host : Host) (mi : MaskedImage) :
  fresh mi ->
  1 <= rwidth (size mi) < 2147483647 -> 1 <= rheight (size mi) < 2147483647 ->
  fresh (downsample2x host mi)
  /\ (rwidth (size mi) <= 2 * rwidth (size (downsample2x host mi))
        <= rwidth (size mi) + 1)
  /\ (rheight (size mi) <= 2 * rheight (size (downsample2x host mi))
        <= rheight (size mi) + 1)
  /\ 2 * rx (size (downsample2x host mi)) = rx (size mi) - isOdd (rx (size mi))
  /\ 2 * ry (size (downsample2x host mi)) = ry (size mi) - isOdd (ry (size mi))
  /\ same_layout mi (downsample2x host mi)
  /\ channelCount (maskDev (downsample2x host mi)) = channelCount (maskDev mi).
Proof.
  intros Hf Hw Hh.
  assert (Aw : aligns (rwidth (size mi))) by (unfold aligns; lia).
  assert (Ah : aligns (rheight (size mi))) by (unfold aligns; lia).
  destruct (downsample2x_size host mi Hf) as (Hf' & Ew & Eh); [lia | lia | done..|].
  split; [exact Hf'|]. rewrite Ew, Eh.
  split; [apply half_up_double; lia|]. split; [apply half_up_double; lia|].
  apply downsample2x_same_layout; [done | lia | lia | done..].
Qed.

Lemma downsample2x_layout_witness :
  (fresh square3 /\ 1 <= rwidth (size square3) < 2147483647
   /\ 1 <= rheight (size square3) < 2147483647)
  /\ (fresh (downsample2x demo_host square3)
      /\ (rwidth (size square3) <= 2 * rwidth (size (downsample2x demo_host square3))
            <= rwidth (size square3) + 1)
      /\ (rheight (size square3)
            <= 2 * rheight (size (downsample2x demo_host square3))
            <= rheight (size square3) + 1)
      /\ 2 * rx (size (downsample2x demo_host square3))
         = rx (size square3) - isOdd (rx (size square3))
      /\ 2 * ry (size (downsample2x demo_host square3))
         = ry (size square3) - isOdd (ry (size square3))
      /\ same_layout square3 (downsample2x demo_host square3)
      /\ channelCount (maskDev (downsample2x demo_host square3))
         = channelCount (maskDev square3)).
Proof.
  assert (H1 : fresh square3) by reflexivity.
  assert (H2 : 1 <= rwidth (size square3) < 2147483647)
    by (vm_compute; split; [discriminate | reflexivity]).
  assert (H3 : 1 <= rheight (size square3) < 2147483647)
    by (vm_compute; split; [discriminate | reflexivity]).
  split; [tauto|].
  exact (downsample2x_layout demo_host square3 H1 H2 H3).
Defined.

(** *** The pyramid built by [patch] *)

Lemma halving_chain_snoc (l : list MaskedImage) (a c : MaskedImage) :
  last l = Some a -> halving_chain l ->
  rwidth (size c) = half_up (rwidth (size a)) ->
  rheight (size c) = half_up (rheight (size a)) ->
  halving_chain (l ++ [c]).
Proof.
  intros Hl Hc Hw Hh. induction l as [|b l IH]; [discriminate|].
  destruct l as [|b' l].
  - cbn in Hl. injection Hl as ->. cbn. done.
  - change (halving_chain (b :: (b' :: l) ++ [c])).
    cbn [halving_chain app] in *. destruct Hc as (H1 & H2 & H3).
    split; [done|]. split; [done|]. apply IH; done.
Qed.

Lemma pyramid_loop_shape host radius (I0 : MaskedImage) (fuel : nat) :
  0 <= radius ->
  forall source pyramid source' pyramid',
    fresh source ->
    (exists a, last pyramid = Some a /\ size a = size source) ->
    halving_chain pyramid ->
    Forall (same_layout I0) pyramid -> same_layout I0 source ->
    pyramid_loop fuel host radius source pyramid = Some (source', pyramid') ->
    (exists rest, pyramid' = pyramid ++ rest)
    /\ halving_chain pyramid'
    /\ (exists a, last pyramid' = Some a /\ size a = size source')
    /\ Forall (same_layout I0) pyramid'.
Proof.
  intros Hr. induction fuel as [|fuel IH];
    intros source pyramid source' pyramid' Hf Hl Hc Hlay Hs Hloop;
    cbn [pyramid_loop] in Hloop;
    destruct (Z.gtb_spec (rwidth (size source)) radius) as [Hw|Hw];
    destruct (Z.gtb_spec (rheight (size source)) radius) as [Hh|Hh];
    cbn [andb] in Hloop;
    try (injection Hloop as <- <-;
         (split; [exists []; by rewrite app_nil_r | done])).
  - destruct (countMasked source =? 0); [|discriminate].
    injection Hloop as <- <-.
    split; [exists []; by rewrite app_nil_r | done].
  - destruct (Z.eqb_spec (countMasked source) 0) as [Hz|Hz].
    { injection Hloop as <- <-.
      split; [exists []; by rewrite app_nil_r | done]. }
    destruct (aligns_dec (rwidth (size source))) as [Aw|Aw].
    2: { assert (Hd : downsample2x host source = source).
         { apply downsample2x_stuck. left. unfold fresh, size in *.
           by rewrite <- Hf. }
         rewrite Hd in Hloop.
         rewrite (pyramid_loop_stuck host radius source Hd) in Hloop;
           [discriminate | lia | lia | exact Hz]. }
    destruct (aligns_dec (rheight (size source))) as [Ah|Ah].
    2: { assert (Hd : downsample2x host source = source).
         { apply downsample2x_stuck. right. unfold fresh, size in *.
           by rewrite <- Hf. }
         rewrite Hd in Hloop.
         rewrite (pyramid_loop_stuck host radius source Hd) in Hloop;
           [discriminate | lia | lia | exact Hz]. }
    destruct (downsample2x_same_layout host source Hf) as (_ & _ & L1 & _);
      [lia | lia | done..|].
    destruct (downsample2x_size host source Hf) as (Hf' & Ew & Eh);
      [lia | lia | done..|].
    set (s2 := downsample2x host source) in *.
    destruct Hl as (a & Ha & Hsa).
    apply IH in Hloop.
    + destruct Hloop as ((rest & ->) & H2 & H3 & H4).
      split; [exists (clone s2 :: rest); by rewrite <- app_assoc | done].
    + exact Hf'.
    + exists (clone s2). split; [apply last_snoc|].
      unfold clone, MaskedImage_new. rewrite size_cacheEverything.
      symmetry. exact Hf'.
    + apply (halving_chain_snoc pyramid a); [done..| |].
      * unfold clone, MaskedImage_new. rewrite size_cacheEverything.
        rewrite Hsa, <- Ew. symmetry. apply (f_equal rwidth Hf').
      * unfold clone, MaskedImage_new. rewrite size_cacheEverything.
        rewrite Hsa, <- Eh. symmetry. apply (f_equal rheight Hf').
    + apply Forall_app. split; [done|]. apply Forall_singleton.
      destruct Hs as [S1 S2], L1 as [L1 L2].
      split; cbn; congruence.
    + destruct Hs as [S1 S2], L1 as [L1 L2]. split; congruence.
Qed.

(** X8.  The pyramid that the loop of [patch] builds starts with the
    input; every further level has the sides of the level before it halved
    and rounded up; its last level has the size the loop stopped at; and
    every level has the channel layout of the input. *)
Theorem pyramid_shape (host : Host) (dev devMask : KisPaintDevice)
    (radius : Z) (fuel : nat) (source : MaskedImage)
    (pyramid : list MaskedImage) :
  0 <= radius ->
  pyramid_loop fuel host radius (clone (MaskedImage_new dev devMask))
               [MaskedImage_new dev devMask]
  = Some (source, pyramid) ->
  head pyramid = Some (MaskedImage_new dev devMask)
  /\ halving_chain pyramid
  /\ option_map size (last pyramid) = Some (size source)
  /\ Forall (same_layout (MaskedImage_new dev devMask)) pyramid.
Proof.
  intros Hr Hloop.
  apply (pyramid_loop_shape host radius (MaskedImage_new dev devMask)) in Hloop;
    [|exact Hr | apply fresh_clone | | exact I | |].
  - destruct Hloop as ((rest & ->) & H2 & (a & Ha & Hs) & H4).
    split; [reflexivity|]. split; [exact H2|]. split; [|exact H4].
    by rewrite Ha; cbn; rewrite Hs.
  - exists (MaskedImage_new dev devMask). by split.
  - apply Forall_singleton. by split.
  - by split.
Qed.

Lemma pyramid_shape_witness :
  (0 <= 1
   /\ pyramid_loop 3 demo_host 1 (clone (MaskedImage_new image3 mask3))
                   [MaskedImage_new image3 mask3]
      = Some (downsample2x demo_host (downsample2x demo_host square3),
              [square3; clone (downsample2x demo_host square3);
               clone (downsample2x demo_host (downsample2x demo_host square3))]))
  /\ (head [square3; clone (downsample2x demo_host square3);
            clone (downsample2x demo_host (downsample2x demo_host square3))]
      = Some (MaskedImage_new image3 mask3)
      /\ halving_chain
           [square3; clone (downsample2x demo_host square3);
            clone (downsample2x demo_host (downsample2x demo_host square3))]
      /\ option_map size
           (last [square3; clone (downsample2x demo_host square3);
                  clone (downsample2x demo_host
                           (downsample2x demo_host square3))])
         = Some (size (downsample2x demo_host (downsample2x demo_host square3)))
      /\ Forall (same_layout (MaskedImage_new image3 mask3))
           [square3; clone (downsample2x demo_host square3);
            clone (downsample2x demo_host (downsample2x demo_host square3))]).
Proof.
  assert (H1 : 0 <= 1) by lia.
  assert (H2 : pyramid_loop 3 demo_host 1 (clone (MaskedImage_new image3 mask3))
                   [MaskedImage_new image3 mask3]
      = Some (downsample2x demo_host (downsample2x demo_host square3),
              [square3; clone (downsample2x demo_host square3);
               clone (downsample2x demo_host (downsample2x demo_host square3))]))
    by reflexivity.
  split; [by split|].
  exact (pyramid_shape demo_host image3 mask3 1 3 _ _ H1 H2).
Defined.

(** *** [upscale] *)

(** X9.  With a transform worker that multiplies the bounds by its factors,
    [upscale] returns exactly the requested size whenever the current width
    divides the requested width and the current height the requested
    height. *)
Theorem upscale_exact_when_divisible (host : Host) (mi : MaskedImage)
    (xsize ysize : Z) :
  scales_bounds host -> fresh mi ->
  0 < rwidth (size mi) -> 0 < rheight (size mi) ->
  (rwidth (size mi) | xsize) -> (rheight (size mi) | ysize) ->
  rwidth (size (upscale host mi xsize ysize)) = xsize
  /\ rheight (size (upscale host mi xsize ysize)) = ysize.
Proof.
  intros Hs Hf Hw Hh [kx Hx] [ky Hy]. unfold upscale.
  rewrite size_cacheEverything.
  destruct (Hs (imageDev (clone mi))
              (Z.quot xsize (rwidth (size mi)))
              (Z.quot ysize (rheight (size mi)))) as [Ew Eh].
  rewrite Ew, Eh. cbn [clone MaskedImage_new cacheEverything imageDev].
  unfold size, fresh in *. rewrite <- Hf. subst xsize ysize.
  rewrite !Z.quot_mul by lia. lia.
Qed.

Lemma demo_host_scales_bounds : scales_bounds demo_host.
Proof. intros [[x y w h] c a p] sx sy. by split. Qed.

Lemma upscale_exact_when_divisible_witness :
  (scales_bounds demo_host /\ fresh square3
   /\ 0 < rwidth (size square3) /\ 0 < rheight (size square3)
   /\ (rwidth (size square3) | 6) /\ (rheight (size square3) | 9))
  /\ (rwidth (size (upscale demo_host square3 6 9)) = 6
      /\ rheight (size (upscale demo_host square3 6 9)) = 9).
Proof.
  assert (H1 : fresh square3) by reflexivity.
  assert (H2 : 0 < rwidth (size square3)) by reflexivity.
  assert (H3 : 0 < rheight (size square3)) by reflexivity.
  assert (H4 : (rwidth (size square3) | 6)) by (exists 2; reflexivity).
  assert (H5 : (rheight (size square3) | 9)) by (exists 3; reflexivity).
  split; [pose proof demo_host_scales_bounds; tauto|].
  exact (upscale_exact_when_divisible demo_host square3 6 9
           demo_host_scales_bounds H1 H2 H3 H4 H5).
Defined.

(** *** The pixel and patch distances *)

Lemma fold_left_pointwise {A B} (f g : A -> B -> A) (l : list B) (a : A) :
  (forall a b, f a b = g a b) -> fold_left f l a = fold_left g l a.
Proof.
  intros Hfg. revert a. induction l as [|b l IH]; intros a; [reflexivity|].
  cbn. by rewrite Hfg, IH.
Qed.

(** X10.  [MaskedImage::distance] is symmetric between two images with the
    same number of channels, whatever that number. *)
Theorem MaskedImage_distance_sym (a b : MaskedImage) (x y xo yo : Z) :
  channelCount (imageDev a) = channelCount (imageDev b) ->
  MaskedImage_distance a x y b xo yo = MaskedImage_distance b xo yo a x y.
Proof.
  intros Hn. unfold MaskedImage_distance. rewrite Hn.
  apply fold_left_pointwise. intros dsq chan. cbv zeta.
  pose proof (u8_range (getImagePixelU8 a x y chan)).
  pose proof (u8_range (getImagePixelU8 b xo yo chan)).
  rewrite !(int32_small (_ - _)) by lia.
  do 2 f_equal. f_equal. lia.
Qed.

Lemma MaskedImage_distance_sym_witness :
  channelCount (imageDev strip_target) = channelCount (imageDev strip_source)
  /\ MaskedImage_distance strip_target 0 0 strip_source 1 0
     = MaskedImage_distance strip_source 1 0 strip_target 0 0.
Proof.
  assert (H : channelCount (imageDev strip_target)
              = channelCount (imageDev strip_source)) by reflexivity.
  split; [exact H|].
  exact (MaskedImage_distance_sym strip_target strip_source 0 0 1 0 H).
Defined.

(** X11.  [MaskedImage::distance] between a pixel and itself is zero,
    whatever the number of channels. *)
Theorem MaskedImage_distance_self (a : MaskedImage) (x y : Z) :
  MaskedImage_distance a x y a x y = 0.
Proof.
  unfold MaskedImage_distance.
  generalize (seqZ 0 (channelCount (imageDev a))) as l.
  induction l as [|chan l IH]; [reflexivity|].
  cbn [fold_left]. rewrite Z.sub_diag. exact IH.
Qed.

Lemma distance_sq_self a x y : distance_sq a x y a x y = 0.
Proof.
  unfold distance_sq.
  rewrite (Zsum_const _ 0); [lia|]. intros c _. by rewrite Z.sub_diag.
Qed.

(** X12.  A patch that lies inside the image and holds no masked pixel is
    at distance zero from itself: when source and target are the same
    image, the link of such a pixel to itself has distance 0. *)
Theorem distance_of_identical_patch (nnf : NearestNeighborField) (x y : Z) :
  0 <= patchSize nnf ->
  MAX_DIST * ((2 * patchSize nnf + 1) ^ 2 * ssdmax) < 2 ^ 63 ->
  channelCount (imageDev (input nnf)) <= 10 ->
  output nnf = input nnf ->
  patchSize nnf <= x < rwidth (size (input nnf)) - patchSize nnf ->
  patchSize nnf <= y < rheight (size (input nnf)) - patchSize nnf ->
  (forall dx dy, - patchSize nnf <= dx <= patchSize nnf ->
                 - patchSize nnf <= dy <= patchSize nnf ->
                 isMasked (input nnf) (x + dx) (y + dy) = false) ->
  distance nnf x y x y = 0.
Proof.
  intros Hr Hfit Hn Hout Hx Hy Hm.
  destruct (distance_exact nnf x y x y (conj Hr Hfit) Hn) as [-> _].
  unfold distance_spec.
  assert (Hall : forall dy dx, dy ∈ offsets (patchSize nnf) ->
                 dx ∈ offsets (patchSize nnf) ->
                 contribution nnf x y x y dy dx = 0).
  { intros dy dx Hdy%elem_of_offsets Hdx%elem_of_offsets.
    unfold contribution. rewrite Hout.
    assert (Hu : usable (input nnf) (x + dx) (y + dy) = true).
    { unfold usable. rewrite (Hm dx dy Hdx Hdy).
      destruct (Z.leb_spec 0 (x + dx)); [|lia].
      destruct (Z.ltb_spec (x + dx) (rwidth (size (input nnf)))); [|lia].
      destruct (Z.leb_spec 0 (y + dy)); [|lia].
      destruct (Z.ltb_spec (y + dy) (rheight (size (input nnf)))); [|lia].
      reflexivity. }
    rewrite Hu. cbn [andb]. apply distance_sq_self. }
  rewrite (Zsum_const _ (Z.of_nat (length (offsets (patchSize nnf))) * 0)).
  2:{ intros dy Hdy. apply Zsum_const. intros dx Hdx. by apply Hall. }
  rewrite !Z.mul_0_r. apply Z.div_0_l.
  rewrite Z.pow_2_r. assert (Hs : ssdmax = 650250) by reflexivity. nia.
Qed.

Lemma distance_of_identical_patch_witness :
  (0 <= patchSize flat_nnf
   /\ MAX_DIST * ((2 * patchSize flat_nnf + 1) ^ 2 * ssdmax) < 2 ^ 63
   /\ channelCount (imageDev (input flat_nnf)) <= 10
   /\ output flat_nnf = input flat_nnf
   /\ patchSize flat_nnf <= 1 < rwidth (size (input flat_nnf)) - patchSize flat_nnf
   /\ patchSize flat_nnf <= 1
        < rheight (size (input flat_nnf)) - patchSize flat_nnf
   /\ (forall dx dy, - patchSize flat_nnf <= dx <= patchSize flat_nnf ->
                     - patchSize flat_nnf <= dy <= patchSize flat_nnf ->
                     isMasked (input flat_nnf) (1 + dx) (1 + dy) = false))
  /\ distance flat_nnf 1 1 1 1 = 0.
Proof.
  assert (H1 : 0 <= patchSize flat_nnf) by (vm_compute; discriminate).
  assert (H2 : MAX_DIST * ((2 * patchSize flat_nnf + 1) ^ 2 * ssdmax) < 2 ^ 63)
    by (vm_compute; reflexivity).
  assert (H3 : channelCount (imageDev (input flat_nnf)) <= 10)
    by (vm_compute; discriminate).
  assert (H4 : output flat_nnf = input flat_nnf) by reflexivity.
  assert (H5 : patchSize flat_nnf <= 1
               < rwidth (size (input flat_nnf)) - patchSize flat_nnf)
    by (vm_compute; split; [discriminate | reflexivity]).
  assert (H6 : patchSize flat_nnf <= 1
               < rheight (size (input flat_nnf)) - patchSize flat_nnf)
    by (vm_compute; split; [discriminate | reflexivity]).
  assert (H7 : forall dx dy, - patchSize flat_nnf <= dx <= patchSize flat_nnf ->
                 - patchSize flat_nnf <= dy <= patchSize flat_nnf ->
                 isMasked (input flat_nnf) (1 + dx) (1 + dy) = false).
  { change (patchSize flat_nnf) with 1. intros dx dy Hdx Hdy.
    assert (Ex : dx = -1 \/ dx = 0 \/ dx = 1) by lia.
    assert (Ey : dy = -1 \/ dy = 0 \/ dy = 1) by lia.
    destruct Ex as [->|[->| ->]], Ey as [->|[->| ->]]; reflexivity. }
  split; [tauto|].
  exact (distance_of_identical_patch flat_nnf 1 1 H1 H2 H3 H4 H5 H6 H7).
Defined.

(** X13.  A candidate whose centre lies more than the patch radius outside
    the source has distance [MAX_DIST]: every offset of its patch falls
    outside the source and is charged the cap. *)
Theorem distance_outside_source (nnf : NearestNeighborField) (x y xp yp : Z) :
  0 <= patchSize nnf ->
  MAX_DIST * ((2 * patchSize nnf + 1) ^ 2 * ssdmax) < 2 ^ 63 ->
  channelCount (imageDev (input nnf)) <= 10 ->
  xp < - patchSize nnf \/ rwidth (size (output nnf)) + patchSize nnf <= xp
  \/ yp < - patchSize nnf \/ rheight (size (output nnf)) + patchSize nnf <= yp ->
  distance nnf x y xp yp = MAX_DIST.
Proof.
  intros Hr Hfit Hn Hfar.
  apply distance_far; [by split | exact Hn | lia].
Qed.

Lemma distance_outside_source_witness :
  (0 <= patchSize strip_nnf
   /\ MAX_DIST * ((2 * patchSize strip_nnf + 1) ^ 2 * ssdmax) < 2 ^ 63
   /\ channelCount (imageDev (input strip_nnf)) <= 10
   /\ (4 < - patchSize strip_nnf
       \/ rwidth (size (output strip_nnf)) + patchSize strip_nnf <= 4
       \/ 0 < - patchSize strip_nnf
       \/ rheight (size (output strip_nnf)) + patchSize strip_nnf <= 0))
  /\ distance strip_nnf 2 0 4 0 = MAX_DIST.
Proof.
  assert (H1 : 0 <= patchSize strip_nnf) by (vm_compute; discriminate).
  assert (H2 : MAX_DIST * ((2 * patchSize strip_nnf + 1) ^ 2 * ssdmax) < 2 ^ 63)
    by (vm_compute; reflexivity).
  assert (H3 : channelCount (imageDev (input strip_nnf)) <= 10)
    by (vm_compute; discriminate).
  assert (H4 : 4 < - patchSize strip_nnf
       \/ rwidth (size (output strip_nnf)) + patchSize strip_nnf <= 4
       \/ 0 < - patchSize strip_nnf
       \/ rheight (size (output strip_nnf)) + patchSize strip_nnf <= 0)
    by (right; left; vm_compute; discriminate).
  split; [tauto|].
  exact (distance_outside_source strip_nnf 2 0 4 0 H1 H2 H3 H4).
Defined.

(** *** [minimize] never moves a link farther *)

Lemma post_mono {A} (m : Rand A) (I J : A -> Prop) :
  Rand_post m I -> (forall a, I a -> J a) -> Rand_post m J.
Proof. intros Hm HIJ g. apply HIJ, Hm. Qed.

Lemma not_farther_refl n : not_farther n n.
Proof. split; [reflexivity | intros i; lia]. Qed.

Lemma not_farther_trans n1 n2 n3 :
  not_farther n1 n2 -> not_farther n2 n3 -> not_farther n1 n3.
Proof.
  intros [S1 H1] [S2 H2]. split; [congruence|].
  intros i. specialize (H1 i). specialize (H2 i). lia.
Qed.

Lemma adopt_not_farther nnf x y xp yp : not_farther nnf (adopt nnf x y xp yp).
Proof.
  unfold adopt.
  destruct (Z.ltb_spec (distance nnf x y xp yp) (nn_distance (field_at nnf x y)))
    as [Hlt|]; [|apply not_farther_refl].
  split; [reflexivity|]. intros i. unfold field_set. cbn [field set_field].
  rewrite list_lookup_total_insert.
  case_decide as Hd; [|lia].
  destruct Hd as [<- _]. cbn [nn_distance]. unfold field_at in Hlt. lia.
Qed.

Lemma random_search_not_farther wi x y xpi ypi nnf :
  Rand_post (random_search wi x y xpi ypi nnf) (not_farther nnf).
Proof.
  revert nnf. induction wi as [p IH|p IH|]; intros nnf; cbn [random_search];
    (apply (post_bind _ _ (not_farther nnf));
     [ intros g; unfold random_search_step, bind, random_int, ret; cbn;
       apply adopt_not_farther
     | intros n' Hn';
       first [ apply (post_mono _ _ _ (IH n')); intros a Ha;
               by apply (not_farther_trans nnf n' a)
             | by apply post_ret ] ]).
Qed.

Lemma minimizeLink_not_farther nnf x y dir :
  Rand_post (minimizeLink nnf x y dir) (not_farther nnf).
Proof.
  unfold minimizeLink.
  assert (H1 : not_farther nnf (propagate_x nnf x y dir)).
  { unfold propagate_x. destruct (_ && _);
      [apply adopt_not_farther | apply not_farther_refl]. }
  assert (H2 : not_farther nnf (propagate_y (propagate_x nnf x y dir) x y dir)).
  { apply (not_farther_trans _ _ _ H1). unfold propagate_y, vertical_candidate.
    destruct (_ && _); [apply adopt_not_farther | apply not_farther_refl]. }
  cbv zeta.
  destruct (rwidth (size (output _))); try by apply post_ret.
  apply (post_mono _ _ _ (random_search_not_farther _ _ _ _ _ _)).
  intros a Ha. by apply (not_farther_trans _ _ _ H2).
Qed.

Lemma foldRand_not_farther {B} (f : NearestNeighborField -> B ->
                                    Rand NearestNeighborField) (l : list B) :
  (forall a b, Rand_post (f a b) (not_farther a)) ->
  forall nnf, Rand_post (foldRand f l nnf) (not_farther nnf).
Proof.
  intros Hf nnf.
  apply (post_foldRand _ _ (fun _ => True));
    [by apply Forall_true | | apply not_farther_refl].
  intros a b Ha _. apply (post_mono _ _ _ (Hf a b)).
  intros a' Ha'. by apply (not_farther_trans _ _ _ Ha).
Qed.

Lemma minimize_pass_not_farther nnf :
  Rand_post (minimize_pass nnf) (not_farther nnf).
Proof.
  unfold minimize_pass.
  apply (post_bind _ _ (not_farther nnf)).
  - apply foldRand_not_farther. intros a [x y].
    destruct (_ >? _); [apply minimizeLink_not_farther|].
    apply post_ret, not_farther_refl.
  - intros n1 H1.
    apply (post_mono _ (not_farther n1)).
    + apply foldRand_not_farther. intros a [x y].
      destruct (negb _); [apply minimizeLink_not_farther|].
      apply post_ret, not_farther_refl.
    + intros a Ha. by apply (not_farther_trans _ _ _ H1).
Qed.

Lemma minimize_not_farther pass nnf :
  Rand_post (minimize pass nnf) (not_farther nnf).
Proof.
  unfold minimize. generalize (Z.to_nat pass) as n. intros n. revert nnf.
  induction n as [|n IH]; intros nnf; cbn [minimize_n].
  - apply post_ret, not_farther_refl.
  - apply (post_bind _ _ (not_farther nnf)); [apply minimize_pass_not_farther|].
    intros n1 H1. apply (post_mono _ _ _ (IH n1)).
    intros a Ha. by apply (not_farther_trans _ _ _ H1).
Qed.

(** X14.  During [minimize] no distance ever grows: after any number of
    passes the distance stored at a pixel is at most the one stored there
    before, for every field and every generator state. *)
Theorem minimize_never_increases (nnf : NearestNeighborField) (pass : Z)
    (g : mt19937) (x y : Z) :
  nn_distance (field_at (minimize pass nnf g).1 x y)
  <= nn_distance (field_at nnf x y).
Proof.
  destruct (minimize_not_farther pass nnf g) as [Hs Hd].
  unfold field_at. rewrite Hs. apply Hd.
Qed.

(** *** A link with distance zero is final *)

Lemma idx2_inj h x y x' y' :
  0 <= x -> 0 <= x' -> 0 <= y < h -> 0 <= y' < h ->
  idx2 h x y = idx2 h x' y' -> x = x' /\ y = y'.
Proof.
  unfold idx2. intros Hx Hx' Hy Hy' E.
  assert (E' : x * h + y = x' * h + y') by nia.
  assert (x = x') by nia. subst. lia.
Qed.

Lemma only_cell_refl x y n : only_cell x y n n.
Proof. split; [apply same_frame_refl | by split]. Qed.

Lemma only_cell_trans x y n1 n2 n3 :
  only_cell x y n1 n2 -> only_cell x y n2 n3 -> only_cell x y n1 n3.
Proof.
  intros (F1 & L1 & H1) (F2 & L2 & H2). split; [|split; [congruence|]].
  - destruct F1, F2. split; congruence.
  - intros i Hi. rewrite H2, H1; [done..|].
    destruct F1 as [_ _ _ ->]. exact Hi.
Qed.

Lemma adopt_only_cell nnf x y xp yp : only_cell x y nnf (adopt nnf x y xp yp).
Proof.
  unfold adopt. destruct (_ <? _); [|apply only_cell_refl].
  split; [by split|]. unfold field_set. cbn [field set_field].
  split; [apply length_insert|].
  intros i Hi. by rewrite list_lookup_total_insert_ne.
Qed.

Lemma random_search_only_cell wi x y xpi ypi nnf :
  Rand_post (random_search wi x y xpi ypi nnf) (only_cell x y nnf).
Proof.
  revert nnf. induction wi as [p IH|p IH|]; intros nnf; cbn [random_search];
    (apply (post_bind _ _ (only_cell x y nnf));
     [ intros g; unfold random_search_step, bind, random_int, ret; cbn;
       apply adopt_only_cell
     | intros n' Hn';
       first [ apply (post_mono _ _ _ (IH n')); intros a Ha;
               by apply (only_cell_trans x y nnf n' a)
             | by apply post_ret ] ]).
Qed.

Lemma minimizeLink_only_cell nnf x y dir :
  Rand_post (minimizeLink nnf x y dir) (only_cell x y nnf).
Proof.
  unfold minimizeLink.
  assert (H1 : only_cell x y nnf (propagate_x nnf x y dir)).
  { unfold propagate_x. destruct (_ && _);
      [apply adopt_only_cell | apply only_cell_refl]. }
  assert (H2 : only_cell x y nnf (propagate_y (propagate_x nnf x y dir) x y dir)).
  { apply (only_cell_trans _ _ _ _ _ H1). unfold propagate_y, vertical_candidate.
    destruct (_ && _); [apply adopt_only_cell | apply only_cell_refl]. }
  cbv zeta.
  destruct (rwidth (size (output _))); try by apply post_ret.
  apply (post_mono _ _ _ (random_search_only_cell _ _ _ _ _ _)).
  intros a Ha. by apply (only_cell_trans _ _ _ _ _ H2).
Qed.

Lemma guarded_step_keeps n0 x0 y0 (guard : Z -> bool) dir a x y :
  guard 0 = false ->
  in_grid n0 x0 y0 -> nn_distance (field_at n0 x0 y0) = 0 ->
  in_grid n0 x y -> cell_kept n0 x0 y0 a ->
  Rand_post (if guard (nn_distance (field_at a x y))
             then minimizeLink a x y dir else ret a)
            (cell_kept n0 x0 y0).
Proof.
  intros Hg [Hx0 Hy0] Hz [Hx Hy] [Hf Hc].
  destruct (guard (nn_distance (field_at a x y))) eqn:E;
    [|by apply post_ret].
  assert (Hne : idx2 (rheight (imSize a)) x0 y0 <> idx2 (rheight (imSize a)) x y).
  { intros Heq. destruct Hf as [_ _ _ Hsz]. rewrite Hsz in Heq.
    apply idx2_inj in Heq as [-> ->]; [|lia..].
    rewrite Hc, Hz, Hg in E. discriminate. }
  apply (post_mono _ _ _ (minimizeLink_only_cell a x y dir)).
  intros a' (F & _ & H). split.
  - destruct Hf, F. split; congruence.
  - unfold field_at in *. destruct F as [_ _ _ ->].
    rewrite H; [exact Hc | exact Hne].
Qed.

Lemma minimize_pass_keeps n0 x0 y0 a :
  in_grid n0 x0 y0 -> nn_distance (field_at n0 x0 y0) = 0 ->
  cell_kept n0 x0 y0 a ->
  Rand_post (minimize_pass a) (cell_kept n0 x0 y0).
Proof.
  intros Hin Hz Ha. unfold minimize_pass.
  assert (Hsz : imSize a = imSize n0) by apply Ha. rewrite Hsz.
  apply (post_bind _ _ (cell_kept n0 x0 y0)).
  - apply (post_foldRand _ _ (grid_point n0)); [| |exact Ha].
    + apply Forall_forall. intros [x y] Hxy.
      apply forward_scan_in_grid in Hxy. unfold grid_point, in_grid. cbn. lia.
    + intros b [x y] Hb Hxy.
      apply (guarded_step_keeps n0 x0 y0 (fun d => d >? 0) 1); done.
  - intros n1 H1.
    apply (post_foldRand _ _ (grid_point n0)); [| |exact H1].
    + apply Forall_forall. intros [x y] Hxy.
      apply reverse_scan_in_grid in Hxy. unfold grid_point, in_grid. cbn. lia.
    + intros b [x y] Hb Hxy.
      apply (guarded_step_keeps n0 x0 y0 (fun d => negb (d =? 0)) (-1)); done.
Qed.

(** X15.  A link whose distance is zero is final: [minimize] skips its
    pixel in both scans, and the work on the other pixels does not touch
    its cell, so after any number of passes the entry is the same. *)
Theorem zero_distance_links_are_final (nnf : NearestNeighborField) (pass : Z)
    (g : mt19937) (x y : Z) :
  0 <= x < rwidth (imSize nnf) -> 0 <= y < rheight (imSize nnf) ->
  nn_distance (field_at nnf x y) = 0 ->
  field_at (minimize pass nnf g).1 x y = field_at nnf x y.
Proof.
  intros Hx Hy Hz.
  assert (H : forall a, cell_kept nnf x y a ->
            Rand_post (minimize pass a) (cell_kept nnf x y)).
  { unfold minimize. generalize (Z.to_nat pass) as n.
    induction n as [|n IH]; intros a Ha;
      cbn [minimize_n]; [by apply post_ret|].
    apply (post_bind _ _ (cell_kept nnf x y)); [|exact IH].
    apply minimize_pass_keeps; done. }
  assert (Ha : cell_kept nnf x y nnf) by (split; [apply same_frame_refl|done]).
  apply (H nnf Ha g).
Qed.

Lemma zero_distance_links_are_final_witness :
  (0 <= 1 < rwidth (imSize flat_nnf) /\ 0 <= 1 < rheight (imSize flat_nnf)
   /\ nn_distance (field_at flat_nnf 1 1) = 0)
  /\ field_at (minimize 2 flat_nnf (const_gen 5)).1 1 1 = field_at flat_nnf 1 1.
Proof.
  assert (H1 : 0 <= 1 < rwidth (imSize flat_nnf))
    by (vm_compute; split; [discriminate | reflexivity]).
  assert (H2 : 0 <= 1 < rheight (imSize flat_nnf))
    by (vm_compute; split; [discriminate | reflexivity]).
  assert (H3 : nn_distance (field_at flat_nnf 1 1) = 0) by reflexivity.
  split; [tauto|].
  exact (zero_distance_links_are_final flat_nnf 2 (const_gen 5) 1 1 H1 H2 H3).
Defined.

(** *** The stored distance is the distance of the stored link *)

Lemma field_at_set nnf x y p x' y' :
  field_sized nnf ->
  0 <= x < rwidth (imSize nnf) -> 0 <= y < rheight (imSize nnf) ->
  0 <= x' < rwidth (imSize nnf) -> 0 <= y' < rheight (imSize nnf) ->
  field_at (field_set nnf x y p) x' y'
  = if decide (x' = x /\ y' = y) then p else field_at nnf x' y'.
Proof.
  intros Hlen Hx Hy Hx' Hy'. unfold field_at, field_set. cbn [field imSize set_field].
  rewrite list_lookup_total_insert.
  case_decide as Hd; case_decide as Hd'; try done.
  - destruct Hd as [Hd _]. apply idx2_inj in Hd; [|lia..]. destruct Hd', Hd. done.
  - destruct Hd' as [-> ->]. exfalso. apply Hd. split; [done|].
    rewrite Hlen. by apply idx2_lt.
Qed.

Lemma visited_field_set n0 P done done' nnf x y p :
  visited n0 P done nnf -> in_grid n0 x y -> P x y p ->
  (forall c, c ∈ done' -> c ∈ done \/ c = (x, y)) ->
  visited n0 P done' (field_set nnf x y p).
Proof.
  intros (Hf & Hs & He) [Hx Hy] Hp Hsub.
  split; [by apply field_set_frame|]. split; [by apply field_set_sized|].
  intros x' y' Hin [Hx' Hy'].
  assert (Hsz : imSize nnf = imSize n0) by apply Hf.
  rewrite field_at_set by (rewrite ?Hsz; done).
  case_decide as Hd; [by destruct Hd as [-> ->]|].
  destruct (Hsub _ Hin) as [Hold|Heq]; [by apply He|].
  injection Heq as -> ->. by destruct Hd.
Qed.

Lemma Inv_at_field_set n0 P nnf x y p :
  Inv_at n0 P nnf -> in_grid n0 x y -> P x y p ->
  Inv_at n0 P (field_set nnf x y p).
Proof.
  intros (Hf & Hs & He) [Hx Hy] Hp.
  split; [by apply field_set_frame|]. split; [by apply field_set_sized|].
  intros x' y' [Hx' Hy'].
  assert (Hsz : imSize nnf = imSize n0) by apply Hf.
  rewrite field_at_set by (rewrite ?Hsz; done).
  case_decide as Hd; [by destruct Hd as [-> ->]|].
  by apply He.
Qed.

Lemma retry_visited n0 done n nnf x y :
  visited n0 (true_distance n0) done nnf -> in_grid n0 x y ->
  Rand_post (retry n nnf x y) (visited n0 (true_distance n0) done).
Proof.
  revert nnf. induction n as [|n IH]; intros nnf HI Hxy; cbn [retry].
  - by apply post_ret.
  - destruct (_ =? _); [|by apply post_ret].
    apply (post_bind _ _ (fun _ => True)); [done|]. intros r1 _.
    apply (post_bind _ _ (fun _ => True)); [done|]. intros r2 _.
    apply IH; [|done].
    apply (visited_field_set n0 _ done); [done..| |by left].
    unfold true_distance. cbn [nn_x nn_y nn_distance].
    apply distance_frame, HI.
Qed.

Lemma initialize_true n0 nnf :
  same_frame n0 nnf -> field_sized nnf ->
  Rand_post (initialize nnf) (Inv_at n0 (true_distance n0)).
Proof.
  intros Hf Hs g. unfold initialize.
  assert (Hsz : imSize nnf = imSize n0) by apply Hf. rewrite Hsz.
  pose proof (post_foldRand_prefix
    (fun nnf '(x, y) =>
       let p := field_at nnf x y in
       let nnf := field_set nnf x y
                    (mkNNPixel (nn_x p) (nn_y p)
                               (distance nnf x y (nn_x p) (nn_y p))) in
       retry 20 nnf x y)
    (visited n0 (true_distance n0)) (grid_point n0)
    (scanline (rwidth (imSize n0)) (rheight (imSize n0)))) as H.
  cbn [app] in H.
  specialize (H ltac:(apply Forall_forall; intros [x y] Hin;
                      apply scanline_in_grid in Hin;
                      unfold grid_point, in_grid; cbn; lia)).
  lapply H.
  - clear H. intros H. specialize (H [] nnf).
    destruct (H ltac:(split; [done|split; [done|]];
                      intros x y Hin; by apply elem_of_nil in Hin) g)
      as (Hf' & Hs' & He).
    split; [done|split; [done|]].
    intros x y [Hx Hy]. apply He; [by apply scanline_complete | by split].
  - clear H. intros done a [x y] Ha Hb. unfold grid_point in Hb.
    cbn [fst snd] in Hb. cbv zeta.
    apply retry_visited; [|done].
    apply (visited_field_set n0 _ done); [done..| |].
    + unfold true_distance. cbn [nn_x nn_y nn_distance].
      apply distance_frame, Ha.
    + intros c Hc. apply elem_of_app in Hc as [Hc|Hc]; [by left|].
      apply list_elem_of_singleton in Hc. by right.
Qed.

(** X16.  After [initialize()] every entry of the field carries the patch
    distance of the link stored with it, whatever the links and distances
    were before and whatever the generator yields in the retries. *)
Theorem initialize_stores_link_distance (nnf : NearestNeighborField)
    (g : mt19937) (x y : Z) :
  field_sized nnf ->
  0 <= x < rwidth (imSize nnf) -> 0 <= y < rheight (imSize nnf) ->
  let p := field_at (initialize nnf g).1 x y in
  nn_distance p = distance nnf x y (nn_x p) (nn_y p).
Proof.
  intros Hs Hx Hy.
  destruct (initialize_true nnf nnf (same_frame_refl nnf) Hs g) as (_ & _ & He).
  by apply He.
Qed.

Lemma initialize_stores_link_distance_witness :
  (field_sized flat_nnf
   /\ 0 <= 1 < rwidth (imSize flat_nnf) /\ 0 <= 2 < rheight (imSize flat_nnf))
  /\ let p := field_at (initialize flat_nnf (const_gen 5)).1 1 2 in
     nn_distance p = distance flat_nnf 1 2 (nn_x p) (nn_y p).
Proof.
  assert (H0 : field_sized flat_nnf) by reflexivity.
  assert (H1 : 0 <= 1 < rwidth (imSize flat_nnf))
    by (vm_compute; split; [discriminate | reflexivity]).
  assert (H2 : 0 <= 2 < rheight (imSize flat_nnf))
    by (vm_compute; split; [discriminate | reflexivity]).
  split; [tauto|].
  exact (initialize_stores_link_distance flat_nnf (const_gen 5) 1 2 H0 H1 H2).
Defined.

Lemma adopt_true n0 nnf x y xp yp :
  Inv_at n0 (true_distance n0) nnf -> in_grid n0 x y ->
  Inv_at n0 (true_distance n0) (adopt nnf x y xp yp).
Proof.
  intros HI Hxy. unfold adopt. destruct (_ <? _); [|done].
  apply Inv_at_field_set; [done..|].
  unfold true_distance. cbn [nn_x nn_y nn_distance].
  apply distance_frame, HI.
Qed.

Lemma random_search_true n0 wi x y xpi ypi nnf :
  Inv_at n0 (true_distance n0) nnf -> in_grid n0 x y ->
  Rand_post (random_search wi x y xpi ypi nnf) (Inv_at n0 (true_distance n0)).
Proof.
  intros HI Hxy. revert nnf HI.
  induction wi as [p IH|p IH|]; intros nnf HI; cbn [random_search];
    (apply (post_bind _ _ (Inv_at n0 (true_distance n0)));
     [ intros g; unfold random_search_step, bind, random_int, ret; cbn;
       by apply adopt_true
     | first [exact IH | intros a Ha; by apply post_ret] ]).
Qed.

Lemma minimizeLink_true n0 nnf x y dir :
  Inv_at n0 (true_distance n0) nnf -> in_grid n0 x y ->
  Rand_post (minimizeLink nnf x y dir) (Inv_at n0 (true_distance n0)).
Proof.
  intros HI Hxy. unfold minimizeLink.
  assert (H1 : Inv_at n0 (true_distance n0) (propagate_x nnf x y dir)).
  { unfold propagate_x. destruct (_ && _); [by apply adopt_true | done]. }
  assert (H2 : Inv_at n0 (true_distance n0)
                 (propagate_y (propagate_x nnf x y dir) x y dir)).
  { unfold propagate_y, vertical_candidate.
    destruct (_ && _); [by apply adopt_true | done]. }
  cbv zeta.
  destruct (rwidth (size (output _))); try by apply post_ret.
  by apply random_search_true.
Qed.

Lemma minimize_pass_true n0 nnf :
  Inv_at n0 (true_distance n0) nnf ->
  Rand_post (minimize_pass nnf) (Inv_at n0 (true_distance n0)).
Proof.
  intros HI. unfold minimize_pass.
  assert (Hsz : imSize nnf = imSize n0) by apply HI. rewrite Hsz.
  apply (post_bind _ _ (Inv_at n0 (true_distance n0))).
  - apply (post_foldRand _ _ (grid_point n0)); [| |exact HI].
    + apply Forall_forall. intros [x y] Hxy.
      apply forward_scan_in_grid in Hxy. unfold grid_point, in_grid. cbn. lia.
    + intros b [x y] Hb Hxy. destruct (_ >? _); [|by apply post_ret].
      by apply minimizeLink_true.
  - intros n1 H1.
    apply (post_foldRand _ _ (grid_point n0)); [| |exact H1].
    + apply Forall_forall. intros [x y] Hxy.
      apply reverse_scan_in_grid in Hxy. unfold grid_point, in_grid. cbn. lia.
    + intros b [x y] Hb Hxy. destruct (negb _); [|by apply post_ret].
      by apply minimizeLink_true.
Qed.

Lemma minimize_true n0 pass nnf :
  Inv_at n0 (true_distance n0) nnf ->
  Rand_post (minimize pass nnf) (Inv_at n0 (true_distance n0)).
Proof.
  unfold minimize. generalize (Z.to_nat pass) as n. intros n. revert nnf.
  induction n as [|n IH]; intros nnf HI; cbn [minimize_n].
  - by apply post_ret.
  - apply (post_bind _ _ (Inv_at n0 (true_distance n0)));
      [by apply minimize_pass_true | exact IH].
Qed.

(** X17.  [minimize] keeps links and distances together: if every entry
    of the field carries the distance of its link, then so does every entry
    after any number of passes. *)
Theorem minimize_keeps_link_distance (nnf : NearestNeighborField) (pass : Z)
    (g : mt19937) :
  field_sized nnf ->
  (forall x y, in_grid nnf x y -> true_distance nnf x y (field_at nnf x y)) ->
  forall x y, in_grid nnf x y ->
    true_distance nnf x y (field_at (minimize pass nnf g).1 x y).
Proof.
  intros Hs He.
  assert (HI : Inv_at nnf (true_distance nnf) nnf)
    by (split; [apply same_frame_refl | by split]).
  destruct (minimize_true nnf pass nnf HI g) as (_ & _ & H). exact H.
Qed.

Lemma minimize_keeps_link_distance_witness :
  (field_sized column_nnf
   /\ (forall x y, in_grid column_nnf x y ->
         true_distance column_nnf x y (field_at column_nnf x y))
   /\ in_grid column_nnf 0 2)
  /\ true_distance column_nnf 0 2
       (field_at (minimize 1 column_nnf (const_gen 5)).1 0 2).
Proof.
  assert (H0 : field_sized column_nnf) by (vm_compute; reflexivity).
  assert (H1 : forall x y, in_grid column_nnf x y ->
                 true_distance column_nnf x y (field_at column_nnf x y)).
  { intros x y [Hx Hy].
    change (rwidth (imSize column_nnf)) with 1 in Hx.
    change (rheight (imSize column_nnf)) with 3 in Hy.
    assert (x = 0) as -> by lia.
    assert (y = 0 \/ y = 1 \/ y = 2) as [->|[->| ->]] by lia;
      vm_compute; reflexivity. }
  assert (H2 : in_grid column_nnf 0 2)
    by (split; vm_compute; split; [discriminate | reflexivity
                                  | discriminate | reflexivity]).
  split; [tauto|].
  exact (minimize_keeps_link_distance column_nnf 1 (const_gen 5) H0 H1 0 2 H2).
Defined.

(** *** Number of draws of the random search *)

Lemma draws_ret {A} (a : A) : draws (ret a) 0.
Proof. intros g. cbn. split; [lia | reflexivity]. Qed.

Lemma draws_bind {A B} (m : Rand A) (f : A -> Rand B) j k :
  draws m j -> (forall a, draws (f a) k) -> draws (bind m f) (j + k).
Proof.
  intros Hm Hf g. unfold bind. destruct (Hm g) as [H1 H2].
  destruct (m g) as [a g']. destruct (Hf a g') as [H3 H4]. cbn in *.
  split; [lia | congruence].
Qed.

Lemma draws_random_int range : draws (random_int range) 1.
Proof. intros g. cbn. split; [lia | reflexivity]. Qed.

Lemma draws_random_search_step nnf x y xpi ypi wi :
  draws (random_search_step nnf x y xpi ypi wi) 2.
Proof.
  unfold random_search_step.
  apply (draws_bind _ _ 1 1); [apply draws_random_int|]. intros r1.
  apply (draws_bind _ _ 1 0); [apply draws_random_int|]. intros r2.
  apply draws_ret.
Qed.

Lemma draws_random_search wi x y xpi ypi nnf :
  draws (random_search wi x y xpi ypi nnf) (2 * Pos.size_nat wi).
Proof.
  revert nnf. induction wi as [p IH|p IH|]; intros nnf;
    cbn [random_search Pos.size_nat];
    [ replace (2 * S (Pos.size_nat p))%nat with (2 + 2 * Pos.size_nat p)%nat by lia
    | replace (2 * S (Pos.size_nat p))%nat with (2 + 2 * Pos.size_nat p)%nat by lia
    | change (2 * 1)%nat with (2 + 0)%nat ];
    (apply draws_bind; [apply draws_random_search_step|]);
    first [exact IH | intros a; apply draws_ret].
Qed.

Lemma size_nat_log2 p : Z.of_nat (Pos.size_nat p) = Z.log2 (Z.pos p) + 1.
Proof.
  induction p as [p IH|p IH|]; cbn [Pos.size_nat].
  - rewrite Nat2Z.inj_succ, IH, Pos2Z.inj_xI, Z.log2_succ_double; lia.
  - rewrite Nat2Z.inj_succ, IH, Pos2Z.inj_xO, Z.log2_double; lia.
  - reflexivity.
Qed.

Lemma output_adopt nnf x y xp yp : output (adopt nnf x y xp yp) = output nnf.
Proof. unfold adopt. by destruct (_ <? _). Qed.

(** X18.  Each call of [minimizeLink] on a source of positive width [w]
    makes the same number of draws [random_int], two for every halving of
    the search window: [2 * (log2 w + 1)], whatever the field, the pixel
    and the direction. *)
Theorem minimizeLink_draw_count (nnf : NearestNeighborField) (x y dir : Z)
    (g : mt19937) :
  0 < rwidth (size (output nnf)) ->
  Z.of_nat (pos (minimizeLink nnf x y dir g).2)
  = Z.of_nat (pos g) + 2 * (Z.log2 (rwidth (size (output nnf))) + 1)
  /\ stream (minimizeLink nnf x y dir g).2 = stream g.
Proof.
  intros Hw. unfold minimizeLink. cbv zeta.
  assert (Ho : output (propagate_y (propagate_x nnf x y dir) x y dir)
               = output nnf).
  { unfold propagate_y, propagate_x, vertical_candidate.
    repeat (destruct (_ && _)); rewrite ?output_adopt; reflexivity. }
  rewrite Ho. destruct (rwidth (size (output nnf))) as [|p|p] eqn:E; [lia| |lia].
  destruct (draws_random_search p x y
              (nn_x (field_at (propagate_y (propagate_x nnf x y dir) x y dir) x y))
              (nn_y (field_at (propagate_y (propagate_x nnf x y dir) x y dir) x y))
              (propagate_y (propagate_x nnf x y dir) x y dir) g) as [H1 H2].
  split; [|exact H2]. rewrite H1, <- size_nat_log2. lia.
Qed.

Lemma minimizeLink_draw_count_witness :
  0 < rwidth (size (output strip_nnf))
  /\ Z.of_nat (pos (minimizeLink strip_nnf 0 0 1 (const_gen 5)).2)
     = Z.of_nat (pos (const_gen 5))
       + 2 * (Z.log2 (rwidth (size (output strip_nnf))) + 1)
  /\ stream (minimizeLink strip_nnf 0 0 1 (const_gen 5)).2
     = stream (const_gen 5).
Proof.
  assert (H : 0 < rwidth (size (output strip_nnf))) by reflexivity.
  split; [exact H|].
  exact (minimizeLink_draw_count strip_nnf 0 0 1 (const_gen 5) H).
Defined.

(** *** What the voting step writes *)

Lemma repainted_refl t : repainted t t.
Proof. by repeat split. Qed.

Lemma repainted_trans t1 t2 t3 :
  repainted t1 t2 -> repainted t2 t3 -> repainted t1 t3.
Proof.
  unfold repainted. intros (?&?&?&?&?&?&?) (?&?&?&?&?&?&?).
  repeat split; congruence.
Qed.

Lemma setImagePixels_repainted host t x y vals :
  repainted t (setImagePixels host t x y vals).
Proof. by repeat split. Qed.

Lemma setImagePixels_elsewhere host t x y vals px py :
  (px, py) <> (x, y) ->
  pixelAt (imageDev (setImagePixels host t x y vals)) px py
  = pixelAt (imageDev t) px py.
Proof.
  intros Hne. cbn.
  destruct (Z.eqb_spec px x) as [->|]; [|reflexivity].
  destruct (Z.eqb_spec py y) as [->|]; [|reflexivity]. done.
Qed.

Lemma maximize_repainted host nnf hist wsum target x y :
  repainted target (maximize host nnf hist wsum target x y)
  /\ forall px py, (px, py) <> (x, y) ->
       pixelAt (imageDev (maximize host nnf hist wsum target x y)) px py
       = pixelAt (imageDev target) px py.
Proof.
  unfold maximize.
  generalize (getImagePixels host target x y) as vals. generalize 0 as c.
  generalize (seq 0 (length (channels nnf))) as l. intros l.
  assert (H : forall t c vals,
    repainted target t
    /\ (forall px py, (px, py) <> (x, y) ->
          pixelAt (imageDev t) px py = pixelAt (imageDev target) px py) ->
    let r := (fold_left
         (fun (st : MaskedImage * list fval * Z) chan =>
            let '(target, channel_values, colorChan) := st in
            let '(channel_values, colorChan) :=
              if negb (channels nnf !!! chan) then
                (<[chan := channel_value hist wsum colorChan]> channel_values,
                 colorChan + 1)
              else (channel_values, colorChan) in
            (setImagePixels host target x y channel_values,
             channel_values, colorChan))
         l (t, vals, c)).1.1 in
    repainted target r
    /\ (forall px py, (px, py) <> (x, y) ->
          pixelAt (imageDev r) px py = pixelAt (imageDev target) px py)).
  { induction l as [|chan l IH]; intros t c vals Ht; [exact Ht|].
    cbn [fold_left]. destruct (negb _); apply IH; destruct Ht as [Hr Hp];
      (split;
       [ apply (repainted_trans _ _ _ Hr), setImagePixels_repainted
       | intros px py Hne; rewrite setImagePixels_elsewhere by done;
         by apply Hp ]). }
  intros c vals. apply H. split; [apply repainted_refl | done].
Qed.

Lemma EM_Step_invariant host radius source target nnf upscaled :
  let r := EM_Step host radius source target nnf upscaled in
  repainted target r.1
  /\ same_outside (size target) target r.1
  /\ field r.2 = field nnf /\ same_frame nnf r.2.
Proof.
  unfold EM_Step.
  assert (Hl : Forall (fun p : Z * Z =>
                  0 <= p.1 < rwidth (size target)
                  /\ 0 <= p.2 < rheight (size target))
                (scanline (rwidth (size target)) (rheight (size target)))).
  { apply Forall_forall. intros [x y] Hin.
    apply scanline_in_grid in Hin. cbn. lia. }
  revert Hl.
  generalize (scanline (rwidth (size target)) (rheight (size target))) as l.
  intros l Hl.
  assert (H : forall t n,
    repainted target t /\ same_outside (size target) target t
    /\ field n = field nnf /\ same_frame nnf n ->
    let r := fold_left
      (fun (st : MaskedImage * NearestNeighborField) '(x, y) =>
         let '(target, nnf) := st in
         let '(hist, wsum) :=
           estimate source nnf upscaled
                    (if upscaled then radius * 2 else radius) x y in
         let nnf :=
           {| patchSize := patchSize nnf; input := input nnf;
              output := output nnf; imSize := imSize nnf; field := field nnf;
              similarity := similarity nnf; channels := channels nnf;
              histogram := hist |} in
         if Qltb wsum 1 then (target, nnf)
         else (maximize host nnf hist wsum target x y, nnf))
      l (t, n) in
    repainted target r.1 /\ same_outside (size target) target r.1
    /\ field r.2 = field nnf /\ same_frame nnf r.2).
  { induction Hl as [|[x y] l Hxy Hl IH]; intros t n Ht; [exact Ht|].
    cbn [fold_left]. destruct (estimate _ _ _ _ _ _) as [hist wsum].
    destruct Ht as (Hr & Ho & Hfld & Hfr).
    assert (Hfr' : same_frame nnf
              {| patchSize := patchSize n; input := input n;
                 output := output n; imSize := imSize n; field := field n;
                 similarity := similarity n; channels := channels n;
                 histogram := hist |}) by (destruct Hfr; by split).
    destruct (Qltb wsum 1); apply IH;
      [split; [done|split; [done|split; [done|done]]]|].
    set (n' := {| patchSize := patchSize n; histogram := hist |}).
    destruct (maximize_repainted host n' hist wsum t x y) as [Hm Hp].
    split; [by apply (repainted_trans _ _ _ Hr)|].
    split; [|by split].
    intros px py Hout. rewrite Hp; [by apply Ho|].
    cbn [fst snd] in Hxy. intros [= -> ->]. lia. }
  apply H. split; [apply repainted_refl|].
  split; [done|]. split; [done | apply same_frame_refl].
Qed.

(** X19.  The voting step [EM_Step] paints into the image device of the
    target and nowhere else: the size, the mask device and both caches of
    the image it returns are those of the target it was given, so
    [getImagePixelU8] and [isMasked] answer as before, and the links and
    distances of the field are unchanged. *)
Theorem EM_Step_keeps_caches (host : Host) (radius : Z)
    (source target : MaskedImage) (nnf : NearestNeighborField)
    (upscaled : bool) :
  let r := EM_Step host radius source target nnf upscaled in
  repainted target r.1
  /\ (forall x y chan,
        getImagePixelU8 r.1 x y chan = getImagePixelU8 target x y chan)
  /\ (forall x y, isMasked r.1 x y = isMasked target x y)
  /\ countMasked r.1 = countMasked target
  /\ field r.2 = field nnf.
Proof.
  intros r.
  destruct (EM_Step_invariant host radius source target nnf upscaled)
    as (Hr & _ & Hf & _).
  fold r in Hr, Hf. split; [exact Hr|].
  destruct Hr as (Hb & Hc & Ha & Hm & Hs & Hmc & Hic).
  unfold getImagePixelU8, isMasked, countMasked.
  rewrite Hs, Hmc, Hic, Hc. done.
Qed.

(** X20.  [EM_Step] writes no pixel outside the rectangle of the target's
    size: a pixel of the image device at a position outside it has the
    value it had before. *)
Theorem EM_Step_writes_inside (host : Host) (radius : Z)
    (source target : MaskedImage) (nnf : NearestNeighborField)
    (upscaled : bool) (px py : Z) :
  px < 0 \/ rwidth (size target) <= px
  \/ py < 0 \/ rheight (size target) <= py ->
  pixelAt (imageDev (EM_Step host radius source target nnf upscaled).1) px py
  = pixelAt (imageDev target) px py.
Proof.
  intros Hout.
  destruct (EM_Step_invariant host radius source target nnf upscaled)
    as (_ & Ho & _).
  by apply Ho.
Qed.

Lemma EM_Step_writes_inside_witness :
  (3 < 0 \/ rwidth (size square3) <= 3 \/ 1 < 0 \/ rheight (size square3) <= 1)
  /\ pixelAt (imageDev (EM_Step demo_host 1 square3 square3
                          (NearestNeighborField_new demo_host square3 square3 1)
                          false).1) 3 1
     = pixelAt (imageDev square3) 3 1.
Proof.
  assert (H : 3 < 0 \/ rwidth (size square3) <= 3
              \/ 1 < 0 \/ rheight (size square3) <= 1)
    by (right; left; vm_compute; discriminate).
  split; [exact H|].
  exact (EM_Step_writes_inside demo_host 1 square3 square3
           (NearestNeighborField_new demo_host square3 square3 1) false 3 1 H).
Defined.

(** *** The EM loop *)

(** X21.  [ExpectationMaximization] called with a level below one runs no
    round: it returns the field as it is with a null image and takes
    nothing from the generator. *)
Theorem ExpectationMaximization_level_zero (host : Host) (radius : Z)
    (pyramid : list MaskedImage) (level : Z) (nnf : NearestNeighborField)
    (g : mt19937) :
  level <= 0 ->
  ExpectationMaximization host radius pyramid level nnf g = ((nnf, None), g).
Proof.
  intros Hl. unfold ExpectationMaximization.
  rewrite seqZ_nil by lia. reflexivity.
Qed.

Lemma ExpectationMaximization_level_zero_witness :
  0 <= 0
  /\ ExpectationMaximization demo_host 1 [square3] 0 flat_nnf (const_gen 5)
     = ((flat_nnf, None), const_gen 5).
Proof.
  assert (H : 0 <= 0) by lia.
  split; [exact H|].
  exact (ExpectationMaximization_level_zero demo_host 1 [square3] 0 flat_nnf
           (const_gen 5) H).
Defined.

Lemma ExpectationMaximization_repaints host radius pyramid level nnf :
  1 <= level ->
  Rand_post (ExpectationMaximization host radius pyramid level nnf)
    (fun r => exists t, r.2 = Some t
       /\ repainted
            (upscale host (input nnf)
               (rwidth (size (pyramid !!! Z.to_nat (level - 1))))
               (rheight (size (pyramid !!! Z.to_nat (level - 1)))))
            t).
Proof.
  intros Hl. unfold ExpectationMaximization.
  set (iterEM := Z.min (2 * level) 4).
  assert (Hi : 1 <= iterEM) by (unfold iterEM; lia).
  assert (seqZ 1 iterEM = seqZ 1 (iterEM - 1) ++ [iterEM]) as ->.
  { replace iterEM with (iterEM - 1 + 1) at 1 by lia.
    rewrite seqZ_app by lia. f_equal.
    rewrite seqZ_cons by lia. rewrite seqZ_nil by lia. f_equal. lia. }
  apply post_foldRand_last. intros [n t] g. unfold EM_round, bind.
  destruct (minimize _ _ g) as [n' g'].
  destruct (Z.geb_spec level 1) as [_|]; [|lia].
  rewrite Z.eqb_refl. cbn [andb].
  pose proof (EM_Step_invariant host radius (pyramid !!! Z.to_nat (level - 1))
    (upscale host (input nnf)
       (rwidth (size (pyramid !!! Z.to_nat (level - 1))))
       (rheight (size (pyramid !!! Z.to_nat (level - 1)))))
    n' true) as (Hr & _).
  destruct (EM_Step _ _ _ _ _ _) as [t' n''] eqn:E.
  exists t'. split; [reflexivity | exact Hr].
Qed.

Lemma upscale_within host mi finer :
  scales_bounds host -> within finer mi ->
  fresh (upscale host mi (rwidth (size finer)) (rheight (size finer)))
  /\ rwidth (size mi)
     <= rwidth (size (upscale host mi (rwidth (size finer))
                                      (rheight (size finer))))
     <= rwidth (size finer)
  /\ rheight (size mi)
     <= rheight (size (upscale host mi (rwidth (size finer))
                                       (rheight (size finer))))
     <= rheight (size finer).
Proof.
  intros Hs (Hf & Hw & Hh). split; [reflexivity|].
  unfold upscale. rewrite size_cacheEverything.
  destruct (Hs (imageDev (clone mi))
              (Z.quot (rwidth (size finer)) (rwidth (size mi)))
              (Z.quot (rheight (size finer)) (rheight (size mi)))) as [-> ->].
  cbn [clone MaskedImage_new cacheEverything imageDev].
  unfold fresh, size in *. rewrite <- Hf.
  rewrite !Z.quot_div_nonneg by lia.
  pose proof (Z.mul_div_le (rwidth (imageSize finer)) (rwidth (imageSize mi))
                ltac:(lia)).
  pose proof (Z.mul_div_le (rheight (imageSize finer)) (rheight (imageSize mi))
                ltac:(lia)).
  assert (1 <= rwidth (imageSize finer) / rwidth (imageSize mi))
    by (apply Z.div_le_lower_bound; lia).
  assert (1 <= rheight (imageSize finer) / rheight (imageSize mi))
    by (apply Z.div_le_lower_bound; lia).
  nia.
Qed.

Lemma repainted_within finer u t :
  fresh u -> repainted u t ->
  1 <= rwidth (size u) <= rwidth (size finer) ->
  1 <= rheight (size u) <= rheight (size finer) ->
  within finer t.
Proof.
  intros Hf (Hb & _ & _ & _ & Hs & _) Hw Hh. unfold within, fresh, size in *.
  rewrite Hs, Hb. done.
Qed.

Lemma ExpectationMaximization_within host radius pyramid level nnf finer :
  1 <= level -> scales_bounds host ->
  pyramid !! Z.to_nat (level - 1) = Some finer ->
  within finer (input nnf) ->
  Rand_post (ExpectationMaximization host radius pyramid level nnf)
    (fun r => exists t,
       r.2 = Some t
       /\ repainted (upscale host (input nnf) (rwidth (size finer))
                             (rheight (size finer))) t
       /\ within finer t
       /\ rwidth (size (input nnf)) <= rwidth (size t)
       /\ rheight (size (input nnf)) <= rheight (size t)).
Proof.
  intros Hl Hs Hfin Hin g.
  destruct (ExpectationMaximization_repaints host radius pyramid level nnf Hl g)
    as (t & Ht & Hr).
  rewrite (list_lookup_total_correct _ _ _ Hfin) in Hr.
  destruct (upscale_within host (input nnf) finer Hs Hin) as (Hf & Hw & Hh).
  destruct Hin as (_ & Hw0 & Hh0).
  exists t. split; [exact Ht|]. split; [exact Hr|].
  assert (Hsz : size t = size (upscale host (input nnf) (rwidth (size finer))
                                       (rheight (size finer))))
    by apply Hr.
  split; [|rewrite Hsz; lia].
  apply (repainted_within finer _ t Hf Hr); lia.
Qed.

(** X22.  [ExpectationMaximization] as [patch] calls it: at a level of at
    least one, on a field whose source is that level of the pyramid and
    whose target is freshly cached, not empty and no larger than the
    source, with a transform worker that multiplies the bounds by its
    factors.  The image it returns is the starting target upscaled towards
    the size of the next finer level and repainted: its mask device, size
    and caches are those of the upscaled target, and each side lies between
    the side of the starting target and the side of the finer level. *)
Theorem ExpectationMaximization_result (host : Host) (radius : Z)
    (pyramid : list MaskedImage) (level : Z) (nnf : NearestNeighborField)
    (finer : MaskedImage) (g : mt19937) :
  1 <= level -> scales_bounds host ->
  pyramid !! Z.to_nat (level - 1) = Some finer ->
  pyramid !! Z.to_nat level = Some (output nnf) ->
  within (output nnf) (input nnf) -> within finer (output nnf) ->
  exists t,
    (ExpectationMaximization host radius pyramid level nnf g).1.2 = Some t
    /\ repainted (upscale host (input nnf) (rwidth (size finer))
                          (rheight (size finer))) t
    /\ within finer t
    /\ rwidth (size (input nnf)) <= rwidth (size t)
    /\ rheight (size (input nnf)) <= rheight (size t).
Proof.
  intros Hl Hs Hfin Hcur (Hf & Hw & Hh) (_ & Hw' & Hh').
  apply (ExpectationMaximization_within host radius pyramid level nnf finer);
    [done..|].
  split; [exact Hf|]. lia.
Qed.

Lemma ExpectationMaximization_result_witness :
  (1 <= 1 /\ scales_bounds demo_host
   /\ [square3; coarse3] !! Z.to_nat (1 - 1) = Some square3
   /\ [square3; coarse3] !! Z.to_nat 1 = Some (output level1_nnf)
   /\ within (output level1_nnf) (input level1_nnf)
   /\ within square3 (output level1_nnf))
  /\ exists t,
       (ExpectationMaximization demo_host 2 [square3; coarse3] 1 level1_nnf
          (const_gen 5)).1.2 = Some t
       /\ repainted (upscale demo_host (input level1_nnf)
                             (rwidth (size square3))
                             (rheight (size square3))) t
       /\ within square3 t
       /\ rwidth (size (input level1_nnf)) <= rwidth (size t)
       /\ rheight (size (input level1_nnf)) <= rheight (size t).
Proof.
  assert (H1 : 1 <= 1) by lia.
  assert (H2 : scales_bounds demo_host)
    by (intros [[x y w h] c a p] sx sy; split; reflexivity).
  assert (H3 : [square3; coarse3] !! Z.to_nat (1 - 1) = Some square3)
    by reflexivity.
  assert (H4 : [square3; coarse3] !! Z.to_nat 1 = Some (output level1_nnf))
    by reflexivity.
  assert (H5 : within (output level1_nnf) (input level1_nnf))
    by (split; [reflexivity | vm_compute; repeat split; discriminate]).
  assert (H6 : within square3 (output level1_nnf))
    by (split; [reflexivity | vm_compute; repeat split; discriminate]).
  split; [tauto|].
  exact (ExpectationMaximization_result demo_host 2 [square3; coarse3] 1
           level1_nnf square3 (const_gen 5) H1 H2 H3 H4 H5 H6).
Defined.

(** *** The driver [patch] *)

(** X23.  An image that is no wider or no higher than the radius, or that
    has no masked pixel, is not inpainted at all: [patch] builds a pyramid
    of one level, runs no round, takes nothing from the generator and
    returns the input with its mask device cleared. *)
Theorem patch_single_level (fuel : nat) (host : Host)
    (dev devMask : KisPaintDevice) (radius : Z) (g : mt19937) :
  rwidth (exactBounds dev) <= radius \/ rheight (exactBounds dev) <= radius
  \/ countMasked (MaskedImage_new dev devMask) = 0 ->
  patch fuel host dev devMask radius g
  = (Some (clearMask (MaskedImage_new dev devMask)), g).
Proof.
  intros H. unfold patch.
  assert (E : pyramid_loop fuel host radius
                (clone (MaskedImage_new dev devMask))
                [MaskedImage_new dev devMask]
              = Some (clone (MaskedImage_new dev devMask),
                      [MaskedImage_new dev devMask])).
  { destruct fuel; cbn [pyramid_loop];
      change (size (clone (MaskedImage_new dev devMask)))
        with (exactBounds dev);
      change (countMasked (clone (MaskedImage_new dev devMask)))
        with (countMasked (MaskedImage_new dev devMask));
      destruct (Z.gtb_spec (rwidth (exactBounds dev)) radius);
      destruct (Z.gtb_spec (rheight (exactBounds dev)) radius);
      cbn [andb]; try reflexivity;
      (destruct (Z.eqb_spec (countMasked (MaskedImage_new dev devMask)) 0);
       [reflexivity | lia]). }
  rewrite E. reflexivity.
Qed.

Lemma patch_single_level_witness :
  (rwidth (exactBounds image3) <= 3 \/ rheight (exactBounds image3) <= 3
   \/ countMasked (MaskedImage_new image3 mask3) = 0)
  /\ patch 0 demo_host image3 mask3 3 (const_gen 5)
     = (Some (clearMask (MaskedImage_new image3 mask3)), const_gen 5).
Proof.
  assert (H : rwidth (exactBounds image3) <= 3
              \/ rheight (exactBounds image3) <= 3
              \/ countMasked (MaskedImage_new image3 mask3) = 0)
    by (left; vm_compute; discriminate).
  split; [exact H|].
  exact (patch_single_level 0 demo_host image3 mask3 3 (const_gen 5) H).
Defined.

Lemma half_up_le w : 1 <= w -> 1 <= half_up w <= w.
Proof.
  intros Hw. destruct (half_up_bounds w Hw) as [H1 _].
  pose proof (half_up_double w ltac:(lia)). lia.
Qed.

(** In a pyramid whose first level is not empty, no level is empty and no
    level is larger than the one before it. *)
Lemma halving_chain_sides (l : list MaskedImage) :
  halving_chain l ->
  (forall a, head l = Some a -> 1 <= rwidth (size a) /\ 1 <= rheight (size a)) ->
  forall (i : nat) a, l !! i = Some a ->
    (1 <= rwidth (size a) /\ 1 <= rheight (size a))
    /\ forall b, l !! S i = Some b ->
         rwidth (size b) <= rwidth (size a)
         /\ rheight (size b) <= rheight (size a).
Proof.
  induction l as [|a0 l IH]; intros Hc Hh i a Hi; [done|].
  destruct (Hh a0 eq_refl) as [Hw0 Hh0].
  destruct l as [|b0 l].
  - destruct i; [|done]. injection Hi as <-. split; [done|]. intros b Hb. done.
  - cbn [halving_chain] in Hc. destruct Hc as (Ew & Eh & Hc).
    pose proof (half_up_le _ Hw0). pose proof (half_up_le _ Hh0).
    destruct i as [|i].
    + injection Hi as <-. split; [done|]. intros b [= <-]. lia.
    + apply (IH Hc); [|exact Hi]. intros b [= <-]. lia.
Qed.

Lemma initialize_from_frame nnf coarse :
  Rand_post (initialize_from nnf coarse) (same_frame nnf).
Proof.
  unfold initialize_from. cbv zeta. apply initialize_frame.
  generalize (scanline (rwidth (imSize nnf)) (rheight (imSize nnf))) as l.
  intros l.
  assert (H : forall n, same_frame nnf n ->
    same_frame nnf
      (fold_left
         (fun (nnf0 : NearestNeighborField) '(x, y) =>
            field_set nnf0 x y
              (mkNNPixel
                 (nn_x (field_at coarse
                          (Z.min (Z.quot x (Z.quot (rwidth (imSize nnf))
                                                   (rwidth (imSize coarse))))
                                 (rwidth (imSize coarse) - 1))
                          (Z.min (Z.quot y (Z.quot (rheight (imSize nnf))
                                                   (rheight (imSize coarse))))
                                 (rheight (imSize coarse) - 1)))
                  * Z.quot (rwidth (imSize nnf)) (rwidth (imSize coarse)))
                 (nn_y (field_at coarse
                          (Z.min (Z.quot x (Z.quot (rwidth (imSize nnf))
                                                   (rwidth (imSize coarse))))
                                 (rwidth (imSize coarse) - 1))
                          (Z.min (Z.quot y (Z.quot (rheight (imSize nnf))
                                                   (rheight (imSize coarse))))
                                 (rheight (imSize coarse) - 1)))
                  * Z.quot (rheight (imSize nnf)) (rheight (imSize coarse)))
                 MAX_DIST))
         l n)).
  { induction l as [|[x y] l IH]; intros n Hn; [exact Hn|].
    cbn [fold_left]. by apply IH, field_set_frame. }
  apply H, same_frame_refl.
Qed.

Lemma cacheMask_sides msk sz sz' :
  rwidth sz = rwidth sz' -> rheight sz = rheight sz' ->
  cacheMask msk sz = cacheMask msk sz'.
Proof. intros Hw Hh. unfold cacheMask. by rewrite Hw, Hh. Qed.

Lemma upscale_frame host mi finer :
  scales_bounds host -> fresh mi ->
  frame_of (upscale host mi (rwidth (size finer)) (rheight (size finer)))
  = upscaled_frame host finer (frame_of mi).
Proof.
  intros Hs Hf. unfold frame_of, upscaled_frame, upscale.
  rewrite size_cacheEverything.
  cbn [maskDev maskCache cacheEverything clone MaskedImage_new imageDev].
  destruct (Hs (imageDev mi)
              (Z.quot (rwidth (size finer)) (rwidth (size mi)))
              (Z.quot (rheight (size finer)) (rheight (size mi)))) as [Ew Eh].
  unfold fresh, size in *. rewrite <- Hf in Ew, Eh.
  rewrite Ew, Eh. f_equal.
  apply cacheMask_sides; cbn [rwidth rheight]; done.
Qed.

Lemma repainted_frame u t : repainted u t -> frame_of t = frame_of u.
Proof.
  intros (_ & _ & _ & Hm & Hs & Hc & _). unfold frame_of, size.
  by rewrite Hm, Hs, Hc.
Qed.

(** One round of the level loop of [patch] on a target that fits the
    level: the field is there, the new target fits the next finer level,
    and its frame is the old one upscaled. *)
Lemma patch_level_within host radius pyramid maxlevel t old (k : nat) :
  scales_bounds host ->
  (S k < length pyramid)%nat ->
  rwidth (size (pyramid !!! S k)) <= rwidth (size (pyramid !!! k)) ->
  rheight (size (pyramid !!! S k)) <= rheight (size (pyramid !!! k)) ->
  within (pyramid !!! S k) t ->
  (Z.of_nat (S k) = maxlevel - 1 \/ exists o, old = Some o) ->
  Rand_post (patch_level host radius pyramid maxlevel (Some (t, old))
                         (Z.of_nat (S k)))
            (fun r => exists t' n',
               r = Some (t', Some n') /\ within (pyramid !!! k) t'
               /\ frame_of t'
                  = upscaled_frame host (pyramid !!! k) (frame_of t)).
Proof.
  intros Hs Hlen Mw Mh (Hf & Hw & Hh) Hold g. unfold patch_level, bind.
  rewrite Nat2Z.id.
  assert (Hfin : pyramid !! Z.to_nat (Z.of_nat (S k) - 1)
                 = Some (pyramid !!! k)).
  { replace (Z.to_nat (Z.of_nat (S k) - 1)) with k by lia.
    apply list_lookup_lookup_total_lt. lia. }
  destruct (Z.eqb_spec (Z.of_nat (S k)) (maxlevel - 1)) as [E|E];
    [ pose proof (randomize_frame
                    (NearestNeighborField_new host t (pyramid !!! S k) radius)
                    g) as Hfr;
      destruct (randomize _ g) as [n g1]
    | destruct Hold as [?|[o ->]]; [done|];
      pose proof (initialize_from_frame
                    (NearestNeighborField_new host t (pyramid !!! S k) radius)
                    o g) as Hfr;
      destruct (initialize_from _ o g) as [n g1] ];
    cbn [ret fst] in *;
    (assert (Hin : input n = t) by apply Hfr;
     destruct (ExpectationMaximization_within host radius pyramid
                 (Z.of_nat (S k)) n (pyramid !!! k) ltac:(lia) Hs Hfin
                 ltac:(rewrite Hin; split; [exact Hf | lia]) g1)
       as (t' & Ht & Hrep & Hwithin & _);
     destruct (ExpectationMaximization host radius pyramid (Z.of_nat (S k)) n g1)
       as [[n' ot] g2];
     cbn in Ht; subst ot; exists t', n';
     split; [reflexivity|]; split; [exact Hwithin|];
     rewrite (repainted_frame _ _ Hrep), Hin;
     by apply upscale_frame).
Qed.

Lemma patch_levels_within host radius pyramid maxlevel :
  scales_bounds host ->
  (forall (i : nat), (S i < length pyramid)%nat ->
     rwidth (size (pyramid !!! S i)) <= rwidth (size (pyramid !!! i))
     /\ rheight (size (pyramid !!! S i)) <= rheight (size (pyramid !!! i))) ->
  forall (k : nat) t old,
    (k < length pyramid)%nat -> within (pyramid !!! k) t ->
    (Z.of_nat k = maxlevel - 1 \/ exists o, old = Some o) ->
    Rand_post (foldRand (patch_level host radius pyramid maxlevel)
                        (reverse (seqZ 1 (Z.of_nat k))) (Some (t, old)))
              (fun r => exists t', option_map fst r = Some t'
                                   /\ within (pyramid !!! 0%nat) t'
                                   /\ frame_of t'
                                      = frames host pyramid k (frame_of t)).
Proof.
  intros Hs Hmono. unfold frames.
  induction k as [|k IH]; intros t old Hlen Hin Hold.
  - apply post_ret. by exists t.
  - assert (seqZ 1 (Z.of_nat (S k)) = seqZ 1 (Z.of_nat k) ++ [Z.of_nat (S k)])
      as ->.
    { replace (Z.of_nat (S k)) with (Z.of_nat k + 1) at 1 by lia.
      rewrite seqZ_app by lia. f_equal.
      rewrite seqZ_cons by lia. rewrite seqZ_nil by lia. f_equal. lia. }
    rewrite reverse_snoc. cbn [foldRand fold_left].
    replace (Z.to_nat (Z.of_nat (S k) - 1)) with k by lia.
    destruct (Hmono k Hlen) as [Mw Mh].
    apply (post_bind _ _ (fun r => exists t' n',
                            r = Some (t', Some n')
                            /\ within (pyramid !!! k) t'
                            /\ frame_of t'
                               = upscaled_frame host (pyramid !!! k)
                                                (frame_of t))).
    + by apply patch_level_within.
    + intros r (t' & n' & -> & Ht' & <-). apply IH; [lia | exact Ht' |].
      right. by exists n'.
Qed.

(** [patch] on an image that is not empty, with sides below the largest
    [qint32]: the pyramid loop leaves, and whatever the generator yields the
    level loop returns an image that fits the input and whose frame is
    computed from the pyramid alone. *)
Lemma patch_result_frame (fuel : nat) (host : Host)
    (dev devMask : KisPaintDevice) (radius : Z) :
  1 <= radius -> scales_bounds host ->
  1 <= rwidth (exactBounds dev) < 2147483647 ->
  1 <= rheight (exactBounds dev) < 2147483647 ->
  (Z.to_nat (rwidth (exactBounds dev)) <= fuel)%nat ->
  exists f, forall g,
    exists t, (patch fuel host dev devMask radius g).1 = Some t
              /\ within (MaskedImage_new dev devMask) t
              /\ frame_of t = f.
Proof.
  intros Hr Hs Bw Bh Hfuel. unfold patch.
  destruct (pyramid_loop_exits host radius (Z.to_nat (rwidth (exactBounds dev)))
              Hr (clone (MaskedImage_new dev devMask))
              [MaskedImage_new dev devMask] fuel)
    as (source & pyramid & E & _ & Hfs);
    [apply fresh_clone | cbn; lia | cbn; lia | cbn; lia | exact Hfuel |].
  rewrite E.
  apply (pyramid_loop_shape host radius (MaskedImage_new dev devMask)) in E;
    [|lia | apply fresh_clone | | exact I | |].
  2: { exists (MaskedImage_new dev devMask). by split. }
  2: { apply Forall_singleton. by split. }
  2: { by split. }
  destruct E as ((rest & ->) & Hc & (a & Ha & Hsa) & _).
  set (pyramid := [MaskedImage_new dev devMask] ++ rest) in *.
  exists (frames host pyramid (length pyramid - 1)
                 (frame_of (clearMask (clone source)))).
  intros g.
  assert (Hsides : forall (i : nat) b, pyramid !! i = Some b ->
            (1 <= rwidth (size b) /\ 1 <= rheight (size b))
            /\ forall c, pyramid !! S i = Some c ->
                 rwidth (size c) <= rwidth (size b)
                 /\ rheight (size c) <= rheight (size b)).
  { apply halving_chain_sides; [exact Hc|].
    intros b [= <-]. cbn. lia. }
  assert (Hlen : (1 <= length pyramid)%nat) by (cbn; lia).
  assert (Hlast : pyramid !! (length pyramid - 1)%nat = Some a).
  { rewrite <- Ha. rewrite last_lookup. f_equal. lia. }
  destruct (Hsides _ _ Hlast) as [[Hwa Hha] _].
  cbv zeta. unfold bind.
  destruct (patch_levels_within host radius pyramid
              (Z.of_nat (length pyramid)) Hs) with
      (k := (length pyramid - 1)%nat) (t := clearMask (clone source))
      (old := @None NearestNeighborField) (g := g) as (t & Ht & Hin & Hfr).
  - intros i Hi.
    pose proof (list_lookup_lookup_total_lt pyramid i ltac:(lia)) as Li.
    pose proof (list_lookup_lookup_total_lt pyramid (S i) Hi) as Lsi.
    destruct (Hsides _ _ Li) as [_ Hm]. exact (Hm _ Lsi).
  - lia.
  - rewrite (list_lookup_total_correct _ _ _ Hlast).
    split; [reflexivity|].
    change (size (clearMask (clone source)))
      with (exactBounds (imageDev source)).
    unfold fresh in Hfs. rewrite <- Hfs. fold (size source).
    rewrite Hsa in Hwa, Hha |- *. lia.
  - left. lia.
  - replace (Z.of_nat (length pyramid) - 1)
      with (Z.of_nat (length pyramid - 1)) by lia.
    destruct (foldRand _ _ _ g) as [r g']. cbn [fst snd] in Ht |- *.
    exists t. split; [exact Ht|]. split; [exact Hin | exact Hfr].
Qed.

(** X24.  With a transform worker that multiplies the bounds by its
    factors, a radius of at least one, an image that is not empty with
    sides below the largest [qint32], and as many rounds allowed for the
    pyramid as the image is wide, [patch] returns an image, for every mask
    and generator: the pyramid loop leaves; the field is assigned in the
    first round of the level loop, before any round reads it; every target
    is freshly cached, not empty and no larger than the level it is
    matched against, so every quotient of [upscale] is at least one; and
    the image returned is not empty and no larger than the input. *)
Theorem patch_returns_image (fuel : nat) (host : Host)
    (dev devMask : KisPaintDevice) (radius : Z) (g : mt19937) :
  1 <= radius -> scales_bounds host ->
  1 <= rwidth (exactBounds dev) < 2147483647 ->
  1 <= rheight (exactBounds dev) < 2147483647 ->
  (Z.to_nat (rwidth (exactBounds dev)) <= fuel)%nat ->
  exists t, (patch fuel host dev devMask radius g).1 = Some t
            /\ within (MaskedImage_new dev devMask) t.
Proof.
  intros Hr Hs Bw Bh Hfuel.
  destruct (patch_result_frame fuel host dev devMask radius Hr Hs Bw Bh Hfuel)
    as [f H].
  destruct (H g) as (t & Ht & Hin & _). by exists t.
Qed.

Lemma patch_returns_image_witness :
  (1 <= 1 /\ scales_bounds demo_host
   /\ 1 <= rwidth (exactBounds image3) < 2147483647
   /\ 1 <= rheight (exactBounds image3) < 2147483647
   /\ (Z.to_nat (rwidth (exactBounds image3)) <= 3)%nat)
  /\ exists t, (patch 3 demo_host image3 mask3 1 (const_gen 5)).1 = Some t
               /\ within (MaskedImage_new image3 mask3) t.
Proof.
  assert (H1 : 1 <= 1) by lia.
  assert (H2 : scales_bounds demo_host)
    by (intros [[x y w h] c a p] sx sy; split; reflexivity).
  assert (H3 : 1 <= rwidth (exactBounds image3) < 2147483647)
    by (vm_compute; split; [discriminate | reflexivity]).
  assert (H4 : 1 <= rheight (exactBounds image3) < 2147483647)
    by (vm_compute; split; [discriminate | reflexivity]).
  assert (H5 : (Z.to_nat (rwidth (exactBounds image3)) <= 3)%nat)
    by (vm_compute; lia).
  split; [tauto|].
  exact (patch_returns_image 3 demo_host image3 mask3 1 (const_gen 5)
           H1 H2 H3 H4 H5).
Defined.

(** *** Two runs of [patch] *)




(** *** Random search and the coarse-to-fine start *)

(** X25.  One step of the random search either leaves the entry of its
    pixel as it is or replaces it by a link inside the source with a
    strictly smaller distance: the candidate is clamped to the source
    before it is compared. *)
Theorem random_search_step_in_source (nnf : NearestNeighborField)
    (x y xpi ypi wi : Z) (g : mt19937) :
  field_sized nnf ->
  0 <= x < rwidth (imSize nnf) -> 0 <= y < rheight (imSize nnf) ->
  1 <= rwidth (size (output nnf)) -> 1 <= rheight (size (output nnf)) ->
  let p := field_at (random_search_step nnf x y xpi ypi wi g).1 x y in
  p = field_at nnf x y
  \/ (0 <= nn_x p < rwidth (size (output nnf))
      /\ 0 <= nn_y p < rheight (size (output nnf))
      /\ nn_distance p < nn_distance (field_at nnf x y)).
Proof.
  intros Hs Hx Hy Hw Hh.
  unfold random_search_step, bind, random_int, ret. cbn [fst snd].
  cbv zeta. unfold adopt.
  destruct (Z.ltb_spec
    (distance nnf x y
       (Z.max 0 (Z.min (rwidth (size (output nnf)) - 1)
                       (xpi + stream g (pos g) mod (2 * wi) - wi)))
       (Z.max 0 (Z.min (rheight (size (output nnf)) - 1)
                       (ypi + stream (mkGen (stream g) (S (pos g)))
                                (pos (mkGen (stream g) (S (pos g))))
                              mod (2 * wi) - wi))))
    (nn_distance (field_at nnf x y))) as [Hlt|Hge]; [right | by left].
  rewrite field_at_set by done.
  rewrite decide_True by done. cbn [nn_x nn_y nn_distance].
  split; [lia|]. split; [lia | exact Hlt].
Qed.

Lemma random_search_step_in_source_witness :
  (field_sized strip_nnf
   /\ 0 <= 1 < rwidth (imSize strip_nnf) /\ 0 <= 0 < rheight (imSize strip_nnf)
   /\ 1 <= rwidth (size (output strip_nnf))
   /\ 1 <= rheight (size (output strip_nnf)))
  /\ let p := field_at (random_search_step strip_nnf 1 0 0 0 2
                          (const_gen 5)).1 1 0 in
     p = field_at strip_nnf 1 0
     \/ (0 <= nn_x p < rwidth (size (output strip_nnf))
         /\ 0 <= nn_y p < rheight (size (output strip_nnf))
         /\ nn_distance p < nn_distance (field_at strip_nnf 1 0)).
Proof.
  assert (H0 : field_sized strip_nnf) by (vm_compute; reflexivity).
  assert (H1 : 0 <= 1 < rwidth (imSize strip_nnf))
    by (vm_compute; split; [discriminate | reflexivity]).
  assert (H2 : 0 <= 0 < rheight (imSize strip_nnf))
    by (vm_compute; split; [discriminate | reflexivity]).
  assert (H3 : 1 <= rwidth (size (output strip_nnf)))
    by (vm_compute; discriminate).
  assert (H4 : 1 <= rheight (size (output strip_nnf)))
    by (vm_compute; discriminate).
  split; [tauto|].
  exact (random_search_step_in_source strip_nnf 1 0 0 0 2 (const_gen 5)
           H0 H1 H2 H3 H4).
Defined.

Lemma fold_left_prefix {A B} (f : A -> B -> A) (I : list B -> A -> Prop)
    (Q : B -> Prop) (l : list B) :
  Forall Q l ->
  (forall done a b, I done a -> Q b -> I (done ++ [b]) (f a b)) ->
  forall done a, I done a -> I (done ++ l) (fold_left f l a).
Proof.
  intros Hl Hf. induction Hl as [|b l Hb Hl IH]; intros done a Ha.
  - by rewrite app_nil_r.
  - cbn [fold_left]. rewrite (cons_middle b done l), app_assoc.
    apply IH. by apply Hf.
Qed.

(** X26.  Starting a field from a coarser one keeps the links in range:
    when the coarse field is no larger than the fine one and its links lie
    inside its own grid, every link of the field [initialize] from it
    leaves lies inside the fine grid, with a distance in [0, MAX_DIST]. *)
Theorem initialize_from_in_target (nnf coarse : NearestNeighborField)
    (g : mt19937) :
  radius_fits (patchSize nnf) ->
  channelCount (imageDev (input nnf)) <= 10 ->
  field_sized nnf ->
  1 <= rwidth (imSize coarse) <= rwidth (imSize nnf) ->
  1 <= rheight (imSize coarse) <= rheight (imSize nnf) ->
  every_entry coarse (in_target coarse) ->
  every_entry (initialize_from nnf coarse g).1 (in_target nnf).
Proof.
  intros Hfit Hchan Hlen Hw Hh Hc. unfold initialize_from. cbv zeta.
  set (Wc := rwidth (imSize coarse)) in *.
  set (Hgt := rheight (imSize coarse)) in *.
  set (W := rwidth (imSize nnf)) in *.
  set (H := rheight (imSize nnf)) in *.
  assert (Hxs : 1 <= Z.quot W Wc /\ Wc * Z.quot W Wc <= W).
  { rewrite Z.quot_div_nonneg by lia. split.
    - apply Z.div_le_lower_bound; lia.
    - apply Z.mul_div_le. lia. }
  assert (Hys : 1 <= Z.quot H Hgt /\ Hgt * Z.quot H Hgt <= H).
  { rewrite Z.quot_div_nonneg by lia. split.
    - apply Z.div_le_lower_bound; lia.
    - apply Z.mul_div_le. lia. }
  set (xscale := Z.quot W Wc) in *. set (yscale := Z.quot H Hgt) in *.
  pose proof (fold_left_prefix
    (fun (nnf : NearestNeighborField) '(x, y) =>
       field_set nnf x y
         (mkNNPixel
            (nn_x (field_at coarse (Z.min (Z.quot x xscale) (Wc - 1))
                                   (Z.min (Z.quot y yscale) (Hgt - 1)))
             * xscale)
            (nn_y (field_at coarse (Z.min (Z.quot x xscale) (Wc - 1))
                                   (Z.min (Z.quot y yscale) (Hgt - 1)))
             * yscale)
            MAX_DIST))
    (visited nnf (fun _ _ => in_target nnf)) (grid_point nnf)
    (scanline W H)) as HF.
  cbn [app] in HF.
  specialize (HF ltac:(apply Forall_forall; intros [x y] Hin;
                       apply scanline_in_grid in Hin;
                       unfold grid_point, in_grid; cbn; fold W H; lia)).
  lapply HF.
  - clear HF. intros HF. specialize (HF [] nnf).
    lapply HF.
    + clear HF. intros (Hf & Hs & He).
      assert (HI : Inv nnf (in_target nnf)
                (fold_left
                   (fun (nnf : NearestNeighborField) '(x, y) =>
                      field_set nnf x y
                        (mkNNPixel
                           (nn_x (field_at coarse
                                    (Z.min (Z.quot x xscale) (Wc - 1))
                                    (Z.min (Z.quot y yscale) (Hgt - 1)))
                            * xscale)
                           (nn_y (field_at coarse
                                    (Z.min (Z.quot x xscale) (Wc - 1))
                                    (Z.min (Z.quot y yscale) (Hgt - 1)))
                            * yscale)
                           MAX_DIST))
                   (scanline W H) nnf)).
      { split; [done|split; [done|]]. intros x y Hx Hy.
        assert (Hsz : imSize (fold_left _ (scanline W H) nnf) = imSize nnf)
          by apply Hf.
        rewrite Hsz in Hx, Hy.
        apply He; [by apply scanline_complete | by split]. }
      destruct (initialize_target nnf Hfit Hchan _ HI g) as (Hf' & _ & He').
      intros x y Hx Hy. apply He'; done.
    + split; [apply same_frame_refl|split; [done|]].
      intros x y Hin. by apply elem_of_nil in Hin.
  - clear HF. intros done a [x y] Ha [Hx Hy]. cbn [fst snd] in Hx, Hy.
    fold W in Hx. fold H in Hy.
    apply (visited_field_set nnf _ done); [done | by split | |].
    + assert (Hxl : 0 <= Z.min (Z.quot x xscale) (Wc - 1) < Wc).
      { pose proof (Z.quot_pos x xscale). lia. }
      assert (Hyl : 0 <= Z.min (Z.quot y yscale) (Hgt - 1) < Hgt).
      { pose proof (Z.quot_pos y yscale). lia. }
      destruct (Hc _ _ Hxl Hyl) as (Hcx & Hcy & _).
      fold Wc in Hcx. fold Hgt in Hcy.
      unfold in_target, link_within. cbn [nn_x nn_y nn_distance].
      fold W H. unfold MAX_DIST. nia.
    + intros c Hin. apply elem_of_app in Hin as [Hin|Hin]; [by left|].
      apply list_elem_of_singleton in Hin. by right.
Qed.

Lemma initialize_from_in_target_witness :
  (radius_fits (patchSize flat_base)
   /\ channelCount (imageDev (input flat_base)) <= 10
   /\ field_sized flat_base
   /\ 1 <= rwidth (imSize column_nnf) <= rwidth (imSize flat_base)
   /\ 1 <= rheight (imSize column_nnf) <= rheight (imSize flat_base)
   /\ every_entry column_nnf (in_target column_nnf))
  /\ every_entry (initialize_from flat_base column_nnf (const_gen 5)).1
                 (in_target flat_base).
Proof.
  assert (H1 : radius_fits (patchSize flat_base))
    by (split; vm_compute; [discriminate | reflexivity]).
  assert (H2 : channelCount (imageDev (input flat_base)) <= 10)
    by (vm_compute; discriminate).
  assert (H3 : field_sized flat_base) by (vm_compute; reflexivity).
  assert (H4 : 1 <= rwidth (imSize column_nnf) <= rwidth (imSize flat_base))
    by (vm_compute; split; discriminate).
  assert (H5 : 1 <= rheight (imSize column_nnf) <= rheight (imSize flat_base))
    by (vm_compute; split; discriminate).
  assert (H6 : every_entry column_nnf (in_target column_nnf)).
  { intros x y Hx Hy.
    change (rwidth (imSize column_nnf)) with 1 in Hx.
    change (rheight (imSize column_nnf)) with 3 in Hy.
    assert (x = 0) as -> by lia.
    assert (y = 0 \/ y = 1 \/ y = 2) as [->|[->| ->]] by lia;
      vm_compute; repeat split; discriminate. }
  split; [tauto|].
  exact (initialize_from_in_target flat_base column_nnf (const_gen 5)
           H1 H2 H3 H4 H5 H6).
Defined.

(** *** Scan orders *)

Lemma reverse_bind {A B} (f : A -> list B) (l : list A) :
  reverse (l ≫= f) = reverse l ≫= (fun a => reverse (f a)).
Proof.
  induction l as [|a l IH]; [reflexivity|].
  cbn [mbind list_bind]. rewrite reverse_app, reverse_cons, bind_app, IH.
  f_equal. cbn. by rewrite app_nil_r.
Qed.

(** X27.  The reverse scan of [minimize] visits the pixels in exactly the
    opposite order of the scan of [initialize] and [randomize]. *)
Theorem reverse_scan_is_scanline_reversed (w h : Z) :
  reverse_scan w h = reverse (scanline w h).
Proof.
  unfold reverse_scan, scanline. cbv zeta.
  replace (h - 1 + 1) with h by lia. replace (w - 1 + 1) with w by lia.
  rewrite reverse_bind. apply list_bind_ext; [|reflexivity].
  intros y. rewrite reverse_bind. by apply list_bind_ext.
Qed.

(** *** Votes *)

Lemma Qtrunc_nonneg (q : Q) : (0 <= q)%Q -> 0 <= Qtrunc q.
Proof.
  intros Hq. unfold Qtrunc. apply Qle_bool_iff in Hq as Hb. rewrite Hb.
  apply (Qfloor_resp_le 0 q Hq).
Qed.

Lemma hist_add_nonneg (h : Z) (w : Q) :
  0 <= h -> (0 <= w)%Q -> 0 <= hist_add h w.
Proof.
  intros Hh Hw. unfold hist_add. apply Qtrunc_nonneg.
  pose proof Hh as H. rewrite Zle_Qle in H. change (inject_Z 0) with 0%Q in H.
  lra.
Qed.

Lemma nonneg_lookup (hist : list Z) (i : nat) :
  Forall (fun h => 0 <= h) hist -> 0 <= hist !!! i.
Proof.
  intros Hf. destruct (decide (i < length hist)%nat) as [Hi|Hi].
  - by apply (Forall_lookup_total_1 _ hist i Hf).
  - rewrite list_lookup_total_alt, lookup_ge_None_2 by lia. cbn. lia.
Qed.

Lemma vote_channels_nonneg source nnf x y (w : Q) hist :
  (0 <= w)%Q -> Forall (fun h => 0 <= h) hist ->
  Forall (fun h => 0 <= h) (vote_channels source nnf x y w hist)
  /\ length (vote_channels source nnf x y w hist) = length hist.
Proof.
  intros Hw. unfold vote_channels.
  set (P := fun h : Z => 0 <= h).
  generalize (seqZ 0 (channelCount (imageDev (input nnf)))) as l.
  intros l. generalize 0 as c. revert hist.
  induction l as [|chan l IH]; intros hist c Hf; [by split|].
  cbn [fold_left]. destruct (negb _); [|by apply IH].
  set (i := hidx c (u8 (getImagePixelU8 source x y chan))).
  destruct (IH (<[i := hist_add (hist !!! i) w]> hist) (c + 1)) as [H1 H2].
  - apply Forall_insert; [exact Hf|]. unfold P.
    apply hist_add_nonneg; [by apply nonneg_lookup | exact Hw].
  - split; [exact H1|]. rewrite H2. apply length_insert.
Qed.

Lemma vote_body_nonneg source nnf upscaled x y dy dx hist wsum :
  (forall d, (0 <= similarity nnf d)%Q) ->
  Forall (fun h => 0 <= h) hist -> (0 <= wsum)%Q ->
  let r := vote_body source nnf upscaled x y dy dx (hist, wsum) in
  Forall (fun h => 0 <= h) r.1 /\ (0 <= r.2)%Q /\ length r.1 = length hist.
Proof.
  intros Hsim Hf Hw. unfold vote_body.
  destruct (negb upscaled);
    repeat (destruct (_ || _); [by repeat split|]);
    (destruct (isMasked _ _ _); [by repeat split|]); cbn [fst snd];
    match goal with
    | |- context [vote_channels ?s ?n ?a ?b (similarity nnf ?d) hist] =>
        destruct (vote_channels_nonneg s n a b (similarity nnf d) hist
                    (Hsim d) Hf) as [H1 H2];
        pose proof (Hsim d)
    end;
    (split; [exact H1 | split; [lra | exact H2]]).
Qed.

Lemma vote_fold_nonneg {B} (f : list Z * Q -> B -> list Z * Q) (l : list B)
    (n : nat) :
  (forall hist wsum b,
      Forall (fun h => 0 <= h) hist -> (0 <= wsum)%Q -> length hist = n ->
      Forall (fun h => 0 <= h) (f (hist, wsum) b).1
      /\ (0 <= (f (hist, wsum) b).2)%Q
      /\ length (f (hist, wsum) b).1 = n) ->
  forall hist wsum,
    Forall (fun h => 0 <= h) hist -> (0 <= wsum)%Q -> length hist = n ->
    Forall (fun h => 0 <= h) (fold_left f l (hist, wsum)).1
    /\ (0 <= (fold_left f l (hist, wsum)).2)%Q
    /\ length (fold_left f l (hist, wsum)).1 = n.
Proof.
  intros Hstep. induction l as [|b l IH]; intros hist wsum Hf Hw Hn;
    [by repeat split|].
  cbn [fold_left]. destruct (Hstep hist wsum b Hf Hw Hn) as (H1 & H2 & H3).
  destruct (f (hist, wsum) b) as [h' w']. by apply IH.
Qed.

(** X28.  With a similarity curve that is nowhere negative, the
    estimation step of a pixel yields a histogram with no negative count,
    as long as the one of the field, and a weight sum that is not
    negative. *)
Theorem estimate_votes_nonnegative (source : MaskedImage)
    (nnf : NearestNeighborField) (upscaled : bool) (R x y : Z) :
  (forall d, (0 <= similarity nnf d)%Q) ->
  let r := estimate source nnf upscaled R x y in
  Forall (fun h => 0 <= h) r.1 /\ (0 <= r.2)%Q
  /\ length r.1 = length (histogram nnf).
Proof.
  intros Hsim. unfold estimate.
  apply (vote_fold_nonneg _ (offsets R) (length (histogram nnf)));
    [| apply Forall_replicate; lia | lra | apply length_replicate].
  intros hist wsum dy Hf Hw Hn.
  apply (vote_fold_nonneg _ (offsets R) (length (histogram nnf)));
    [|done..].
  intros h' w' dx Hf' Hw' Hn'.
  destruct (vote_body_nonneg source nnf upscaled x y dy dx h' w' Hsim Hf' Hw')
    as (H1 & H2 & H3).
  split; [exact H1 | split; [exact H2 | congruence]].
Qed.

Lemma estimate_votes_nonnegative_witness :
  (forall d, (0 <= similarity flat_nnf d)%Q)
  /\ let r := estimate flat flat_nnf false 1 1 1 in
     Forall (fun h => 0 <= h) r.1 /\ (0 <= r.2)%Q
     /\ length r.1 = length (histogram flat_nnf).
Proof.
  assert (H : forall d, (0 <= similarity flat_nnf d)%Q)
    by (intros d; apply (demo_similarity_range d)).
  split; [exact H|].
  exact (estimate_votes_nonnegative flat flat_nnf false 1 1 1 H).
Defined.

(** X30.  [clearMask] writes zero, the value that [cacheMask] reads as a
    hole: in a clone taken after [clearMask], every pixel of the grid that
    lies inside the exact bounds of the mask device is masked. *)
Theorem clone_after_clearMask_is_masked (mi : MaskedImage) (x y : Z) :
  0 <= x < rwidth (exactBounds (imageDev mi)) ->
  0 <= y < rheight (exactBounds (imageDev mi)) ->
  in_rect (rx (exactBounds (maskDev mi))) (ry (exactBounds (maskDev mi)))
          (rwidth (exactBounds (maskDev mi)))
          (rheight (exactBounds (maskDev mi))) x y = true ->
  isMasked (clone (clearMask mi)) x y = true.
Proof.
  intros Hx Hy Hin. unfold isMasked, clone, MaskedImage_new, cacheEverything.
  cbn [maskCache imageSize imageDev maskDev clearMask].
  pose proof (lookup_cacheMask
                (fill (maskDev mi) (rx (exactBounds (maskDev mi)))
                      (ry (exactBounds (maskDev mi)))
                      (rwidth (exactBounds (maskDev mi)))
                      (rheight (exactBounds (maskDev mi))) [Byte.x00])
                (exactBounds (imageDev mi)) x y Hx Hy) as Hl.
  rewrite (list_lookup_total_correct _ _ _ Hl).
  cbn [pixelAt fill]. rewrite Hin. reflexivity.
Qed.

Lemma clone_after_clearMask_is_masked_witness :
  (0 <= 0 < rwidth (exactBounds (imageDev square3))
   /\ 0 <= 2 < rheight (exactBounds (imageDev square3))
   /\ in_rect (rx (exactBounds (maskDev square3)))
              (ry (exactBounds (maskDev square3)))
              (rwidth (exactBounds (maskDev square3)))
              (rheight (exactBounds (maskDev square3))) 0 2 = true)
  /\ isMasked (clone (clearMask square3)) 0 2 = true.
Proof.
  assert (H1 : 0 <= 0 < rwidth (exactBounds (imageDev square3)))
    by (vm_compute; split; [discriminate | reflexivity]).
  assert (H2 : 0 <= 2 < rheight (exactBounds (imageDev square3)))
    by (vm_compute; split; [discriminate | reflexivity]).
  assert (H3 : in_rect (rx (exactBounds (maskDev square3)))
                       (ry (exactBounds (maskDev square3)))
                       (rwidth (exactBounds (maskDev square3)))
                       (rheight (exactBounds (maskDev square3))) 0 2 = true)
    by reflexivity.
  split; [tauto|].
  exact (clone_after_clearMask_is_masked square3 0 2 H1 H2 H3).
Defined.
